(** * Bookmark syncer: sync lock, push strategy, WebDAV listing, compression

    A shallow embedding of the TypeScript sources

      - [core/sync/lock-manager.ts]            (SyncLockManager)
      - [core/sync/strategies/push-strategy.ts] (smartPush)
      - [infrastructure/http/webdav-client.ts]  (WebDAVClient)
      - [infrastructure/utils/compression.ts]   (compressText, decompressText)

    Asynchronous functions are programs over a signature of commands (the
    host and collaborator calls the code awaits); [try]/[catch]/[finally]
    and early [return] are operations on programs.  A program is run
    against a world: the persisted lock slot, the clock, the answers the
    collaborators give, and a trace of the mutating calls made so far. *)

From Stdlib Require Import ZArith Lia Bool List Ascii.
From stdpp Require Import base strings pretty list gmap.

Open Scope string_scope.
Open Scope Z_scope.

(** ** JavaScript values used by the sources *)

(** What a [catch] clause receives.  The sources do one thing with a
    caught value other than logging it: the outer [catch] of [smartPush]
    reads its [message].  A thrown value is told here by what that read
    gives: [WithMessage m] is a value other than [null] and [undefined]
    whose [message] reads as the string [m], such as [new Error(m)], with
    [m] empty when the value has no message or a falsy one; [Nullish] is
    [null] or [undefined], of which no property can be read.  A value
    whose [message] is truthy and not a string has no counterpart:
    [SyncResult] declares [message] a string. *)
Inductive Raised : Type :=
| WithMessage (message : string)
| Nullish.
Coercion WithMessage : string >-> Raised.

(** A call that may throw, or a settled promise: the value, or what was
    thrown. *)
Inductive settled (E A : Type) : Type :=
| Ok (a : A)
| Err (error : E).
Arguments Ok {E A} & a.
Arguments Err {E A} & error.

(** A call of the platform ([fetch], [JSON.parse], the streams) or of a
    function of these sources: what it throws is an [Error], given by
    its message. *)
Definition result (A : Type) : Type := settled string A.

(** A promise of a collaborator whose code is not part of the sources,
    and a call of an asynchronous function: it may be rejected with any
    value. *)
Definition outcome (A : Type) : Type := settled Raised A.

Definition lift {A : Type} (r : result A) : outcome A :=
  match r with
  | Ok a => Ok a
  | Err message => Err (WithMessage message)
  end.

(** Truthiness of a [string] (the empty string is falsy) and of a
    [string | null] field. *)
Definition truthy (s : string) : bool := negb (String.eqb s "").

Definition truthy_opt (o : option string) : bool :=
  match o with
  | Some s => truthy s
  | None => false
  end.

(** [a || b] on strings. *)
Definition or_else (s d : string) : string := if truthy s then s else d.

(** ** Data model *)

(** [SyncLock] of [core/sync/types.ts], as [lock-manager.ts] builds it. *)
Record SyncLock : Type := mkSyncLock {
  holder : string;
  timestamp : Z;
  lockId : string;
}.

(** Modelled from the spec: [LOCK_TIMEOUT_MS] is imported from
    [core/sync/types.ts]; section 4.7 gives the timeout as 60 seconds. *)
Definition LOCK_TIMEOUT_MS : Z := 60000.

(** [BookmarkNode] of [types.ts]: a title, an optional url, optional
    children. *)
#[warnings="-register-all"]
Inductive BookmarkNode : Type :=
| mkNode (title : string) (url : option string)
         (children : option (list BookmarkNode)).

(** Modelled from the spec: [countBookmarks] lives in
    [core/bookmark/comparator.ts]; section 4.5 describes it as the
    recursive count of the URL-bearing nodes, folders contributing
    nothing themselves. *)
Fixpoint countBookmarks_node (n : BookmarkNode) : Z :=
  match n with
  | mkNode _ url children =>
      (if truthy_opt url then 1 else 0) +
      match children with
      | Some cs => fold_right (fun c acc => countBookmarks_node c + acc) 0 cs
      | None => 0
      end
  end.

Definition countBookmarks (tree : list BookmarkNode) : Z :=
  fold_right (fun c acc => countBookmarks_node c + acc) 0 tree.

(** [CloudBackup] of [types.ts], as [smartPush] reads it:
    [cloudData.metadata?.timestamp] (the metadata may be missing) and
    [cloudData.data]. *)
Record BackupMetadata : Type := mkBackupMetadata {
  md_timestamp : Z;
  md_clientVersion : string;
}.

Record CloudBackup : Type := mkCloudBackup {
  metadata : option BackupMetadata;
  data : list BookmarkNode;
}.

(** Argument of [setSyncState]. *)
Record SyncState : Type := mkSyncState {
  time : Z;
  url : string;
  type : string;
}.

(** Record kept by [getLastBackupFileInfo] / [saveLastBackupFileInfo]. *)
Record BackupFileInfo : Type := mkBackupFileInfo {
  fileName : string;
  filePath : string;
  createdAt : Z;
  revisionNumber : Z;
}.

(** [SyncResult] of [core/sync/types.ts]. *)
Inductive SyncAction : Type :=
| action_error
| action_skipped
| action_uploaded
| action_downloaded.

Record SyncResult : Type := mkSyncResult {
  success : bool;
  action : SyncAction;
  message : string;
}.

(** [WebDAVConfig]. *)
Record WebDAVConfig : Type := mkWebDAVConfig {
  cfg_url : string;
  cfg_username : string;
  cfg_password : string;
}.

(** [WebDAVFile]. *)
Record WebDAVFile : Type := mkWebDAVFile {
  name : string;
  path : string;
  lastModified : Z;
  size : Z;
}.

(** The part of a [fetch] [Response] the client reads. *)
Record Response : Type := mkResponse {
  ok : bool;
  status : Z;
  statusText : string;
  body : string;
}.

(** ** String helpers of the JavaScript library used by the sources *)

(** [s.endsWith(suffix)]. *)
Definition endsWith (s suffix : string) : bool :=
  let n := String.length s in
  let m := String.length suffix in
  (m <=? n)%nat && String.eqb (String.substring (n - m) m s) suffix.

(** [s.startsWith(prefix)]. *)
Definition startsWith (s pre : string) : bool :=
  String.eqb (String.substring 0 (String.length pre) s) pre.

(** [s.slice(1)]. *)
Definition slice1 (s : string) : string :=
  match s with
  | EmptyString => EmptyString
  | String _ r => r
  end.

(** [s.split("/").pop()]: the text after the last slash. *)
Fixpoint split_pop_from (acc s : string) : string :=
  match s with
  | EmptyString => acc
  | String c r =>
      if Ascii.eqb c "/"%char then split_pop_from "" r
      else split_pop_from (acc +:+ String c "") r
  end.

Definition split_pop (s : string) : string := split_pop_from "" s.


(** ** Commands: what the asynchronous code asks of its surroundings *)

Inductive Method : Type := PROPFIND | PUT | GET | MKCOL | DELETE.

(** A [fetch] request as [WebDAVClient] issues it: the verb, the
    normalized url, the [Depth] header and the body.  The other headers
    ([Authorization], [Content-Type], [Connection]) are the same on every
    request and are left out. *)
Record Request : Type := mkRequest {
  req_method : Method;
  req_url : string;
  req_depth : option string;
  req_body : option string;
}.

(** One constructor per call the sources make on the host or on a
    collaborator; the index is the type of the answer. *)
Inductive Cmd : Type -> Type :=
(* browser.storage.local, slot SYNC_LOCK_KEY *)
| StorageGet : Cmd (option SyncLock)
| StorageSet (l : SyncLock) : Cmd unit
| StorageRemove : Cmd unit
(* new Promise(resolve => setTimeout(resolve, ms)) *)
| SetTimeout (ms : Z) : Cmd unit
| DateNow : Cmd Z
(* Math.random().toString(36).slice(2) *)
| MathRandom36 : Cmd string
(* this.activeLockId of the singleton syncLockManager *)
| GetActiveLockId : Cmd (option string)
| SetActiveLockId (v : option string) : Cmd unit
(* host *)
| NavigatorOnLine : Cmd bool
| Fetch (req : Request) : Cmd Response
| JsonParse (text : string) : Cmd CloudBackup
| JsonStringify (backup : CloudBackup) : Cmd string
(* collaborators of smartPush *)
| GetTree : Cmd (list BookmarkNode)
| CreateSnapshot (tree : list BookmarkNode) (count : Z) (reason : string) : Cmd unit
| GetLatestBackupFile : Cmd (option string)
| GetFileWithDedup (path : string) : Cmd (option string)
| GetLastSyncTime (url : string) : Cmd Z
| CompareWithCloud (tree : list BookmarkNode) (cloud : CloudBackup) : Cmd bool
| GetBrowserInfo : Cmd string
| ParseBackupFileName (fileName : string) : Cmd (option string)
| IsSameBrowser (a b : string) : Cmd bool
| SetSyncState (st : SyncState) : Cmd unit
| CreateCloudBackup : Cmd (option CloudBackup)
| GetBackupFileInterval : Cmd Z
| GetLastBackupFileInfo : Cmd (option BackupFileInfo)
| GenerateBackupFileName (browser : string) (count revision : Z) : Cmd string
| CompressText (text : string) : Cmd string
| SaveLastBackupFileInfo (info : BackupFileInfo) : Cmd unit
| CleanOldBackups (maxAgeDays : Z) : Cmd unit
| ClearBackupListCache : Cmd unit
(* parsing of a multistatus body by listFiles: DOMParser, then the
   regular-expression fallback *)
| ParseMultistatus (baseUrl xml : string) : Cmd (list WebDAVFile).

(** ** Programs

    [Prog R A]: a piece of the body of a function returning [R] that
    completes normally with an [A], leaves the function by [return],
    throws, or issues a command and goes on with its answer. *)
Inductive Prog (R A : Type) : Type :=
| Pure (a : A)
| Return (r : R)
| Throw (error : Raised)
| Vis {X : Type} (c : Cmd X) (k : outcome X -> Prog R A).
Arguments Pure {R A} a.
Arguments Return {R A} r.
Arguments Throw {R A} error.
Arguments Vis {R A X} c k.

(** [await c] (or a plain call of [c]): a rejected promise throws. *)
Definition perform {R X : Type} (c : Cmd X) : Prog R X :=
  Vis c (fun r => match r with Ok x => Pure x | Err e => Throw e end).

Fixpoint bind {R A B : Type} (p : Prog R A) (f : A -> Prog R B) : Prog R B :=
  match p with
  | Pure a => f a
  | Return r => Return r
  | Throw e => Throw e
  | Vis c k => Vis c (fun x => bind (k x) f)
  end.

(** [try { p } catch (error) { h error }]: only a throw is caught. *)
Fixpoint try_catch {R A : Type} (p : Prog R A) (h : Raised -> Prog R A) : Prog R A :=
  match p with
  | Pure a => Pure a
  | Return r => Return r
  | Throw e => h e
  | Vis c k => Vis c (fun x => try_catch (k x) h)
  end.

(** [try { p } finally { f }]: [f] runs however [p] completes, and the
    completion of [p] stands unless [f] itself returns or throws. *)
Fixpoint try_finally {R A : Type} (p : Prog R A) (f : Prog R unit) : Prog R A :=
  match p with
  | Pure a => bind f (fun _ => Pure a)
  | Return r => bind f (fun _ => Return r)
  | Throw e => bind f (fun _ => Throw e)
  | Vis c k => Vis c (fun x => try_finally (k x) f)
  end.

(** Calling a function whose body is [p]: its [return] is the value of
    the call; a body of a [void] function that runs off its end returns
    [tt]. *)
Fixpoint call {R A : Type} (p : Prog A A) : Prog R A :=
  match p with
  | Pure a => Pure a
  | Return a => Pure a
  | Throw e => Throw e
  | Vis c k => Vis c (fun x => call (k x))
  end.

Declare Scope prog_scope.
Delimit Scope prog_scope with prog.
Notation "x <- p ;; q" := (bind p (fun x => q))
  (at level 100, p at next level, right associativity) : prog_scope.
Notation "p ;; q" := (bind p (fun _ => q))
  (at level 100, right associativity) : prog_scope.
Notation "'try' p 'catch' h" := (try_catch p h)
  (at level 100, p at next level, h at next level) : prog_scope.
Open Scope prog_scope.

(** ** The world a program runs in *)

(** What happens while the code is suspended on a storage call or on the
    timer: time passes, another context may have rewritten the lock
    slot, and the call itself may be rejected. *)
Record Await : Type := mkAwait {
  elapsed : Z;
  interfere : option (option SyncLock);
  rejects : bool;
}.

Definition quiet : Await :=
  {| elapsed := 0; interfere := None; rejects := false |}.

(** The calls a run has made that the statements speak of, oldest
    first: every call that writes, and the content comparison. *)
Inductive Event : Type :=
| EvStorageSet (l : SyncLock)
| EvStorageRemove
| EvFetch (req : Request) (answer : result Response)
| EvCompareWithCloud (answer : outcome bool)
| EvCreateSnapshot (count : Z) (reason : string) (done : bool)
| EvSetSyncState (st : SyncState) (done : bool)
| EvSaveLastBackupFileInfo (info : BackupFileInfo) (done : bool)
| EvCleanOldBackups (maxAgeDays : Z) (done : bool)
| EvClearBackupListCache (done : bool).

Record World : Type := mkWorld {
  (* value stored under SYNC_LOCK_KEY in browser.storage.local *)
  lockSlot : option SyncLock;
  (* syncLockManager.activeLockId *)
  activeLockId : option string;
  (* Date.now() *)
  clock : Z;
  (* the suspensions to come; quiet ones once the list is used up *)
  script : list Await;
  (* the values Math.random().toString(36).slice(2) will give *)
  randoms : list string;
  (* what setSyncState and saveLastBackupFileInfo last persisted *)
  syncState : option SyncState;
  lastBackupFileInfo : option BackupFileInfo;
  trace : list Event;
}.

(** The answers of the host and of the collaborators whose code is not
    part of the sources.  What they are asked to persist is recorded in
    the world; what they answer is given here, one answer per call site
    ([smartPush] has no loop, so no call site runs twice).  [fetch],
    [JSON.parse] and the parser of [listFiles] are of the platform and
    [compressText] is of the sources: they throw [Error]s.  The other
    calls are promises of collaborators. *)
Record Env : Type := mkEnv {
  onLine : bool;
  fetch : Request -> result Response;
  JSON_parse : string -> result CloudBackup;
  JSON_stringify : CloudBackup -> string;
  getTree : outcome (list BookmarkNode);
  createSnapshot : outcome unit;
  getLatestBackupFile : outcome (option string);
  getFileWithDedup : string -> outcome (option string);
  getLastSyncTime : string -> outcome Z;
  compareWithCloud : list BookmarkNode -> CloudBackup -> outcome bool;
  getBrowserInfo : string;
  parseBackupFileName : string -> option string;
  isSameBrowser : string -> string -> bool;
  setSyncState : SyncState -> outcome unit;
  createCloudBackup : outcome (option CloudBackup);
  getBackupFileInterval : outcome Z;
  getLastBackupFileInfo : outcome (option BackupFileInfo);
  generateBackupFileName : string -> Z -> Z -> string;
  compressText_answer : string -> result string;
  saveLastBackupFileInfo : BackupFileInfo -> outcome unit;
  cleanOldBackups : outcome unit;
  clearBackupListCache : outcome unit;
  parseMultistatus : string -> string -> result (list WebDAVFile);
}.

Definition log (e : Event) (w : World) : World :=
  {| lockSlot := lockSlot w; activeLockId := activeLockId w; clock := clock w;
     script := script w; randoms := randoms w; syncState := syncState w;
     lastBackupFileInfo := lastBackupFileInfo w; trace := trace w ++ [e] |}.

Definition set_lockSlot (s : option SyncLock) (w : World) : World :=
  {| lockSlot := s; activeLockId := activeLockId w; clock := clock w;
     script := script w; randoms := randoms w; syncState := syncState w;
     lastBackupFileInfo := lastBackupFileInfo w; trace := trace w |}.

Definition set_activeLockId (v : option string) (w : World) : World :=
  {| lockSlot := lockSlot w; activeLockId := v; clock := clock w;
     script := script w; randoms := randoms w; syncState := syncState w;
     lastBackupFileInfo := lastBackupFileInfo w; trace := trace w |}.

Definition set_syncState (st : SyncState) (w : World) : World :=
  {| lockSlot := lockSlot w; activeLockId := activeLockId w; clock := clock w;
     script := script w; randoms := randoms w; syncState := Some st;
     lastBackupFileInfo := lastBackupFileInfo w; trace := trace w |}.

Definition set_lastBackupFileInfo (info : BackupFileInfo) (w : World) : World :=
  {| lockSlot := lockSlot w; activeLockId := activeLockId w; clock := clock w;
     script := script w; randoms := randoms w; syncState := syncState w;
     lastBackupFileInfo := Some info; trace := trace w |}.

(** The head of the script, [quiet] when none is left. *)
Definition next_await (w : World) : Await :=
  match script w with
  | a :: _ => a
  | [] => quiet
  end.

(** The world when a suspension of [ms] milliseconds (0 for a storage
    call) ends: the script moves on, the clock has advanced, and the
    lock slot holds what another context may have put there. *)
Definition resume (ms : Z) (w : World) : World :=
  let a := next_await w in
  {| lockSlot := match interfere a with Some s => s | None => lockSlot w end;
     activeLockId := activeLockId w;
     clock := clock w + ms + elapsed a;
     script := tail (script w); randoms := randoms w;
     syncState := syncState w; lastBackupFileInfo := lastBackupFileInfo w;
     trace := trace w |}.

(** The value [Math.random().toString(36).slice(2)] gives next. *)
Definition next_random (w : World) : string :=
  match randoms w with
  | r :: _ => r
  | [] => ""
  end.

Definition drop_random (w : World) : World :=
  {| lockSlot := lockSlot w; activeLockId := activeLockId w; clock := clock w;
     script := script w; randoms := tail (randoms w); syncState := syncState w;
     lastBackupFileInfo := lastBackupFileInfo w; trace := trace w |}.

Definition is_ok {E A : Type} (r : settled E A) : bool :=
  match r with Ok _ => true | Err _ => false end.

(** The answer to one command and the world after it. *)
Definition handle (env : Env) {X : Type} (c : Cmd X) (w : World) : outcome X * World :=
  match c in Cmd X return outcome X * World with
  | StorageGet =>
      let a := next_await w in
      let w1 := resume 0 w in
      if rejects a then (Err (WithMessage "storage.local.get failed"), w1)
      else (Ok (lockSlot w1), w1)
  | StorageSet l =>
      let a := next_await w in
      let w1 := resume 0 w in
      if rejects a then (Err (WithMessage "storage.local.set failed"), w1)
      else (Ok tt, log (EvStorageSet l) (set_lockSlot (Some l) w1))
  | StorageRemove =>
      let a := next_await w in
      let w1 := resume 0 w in
      if rejects a then (Err (WithMessage "storage.local.remove failed"), w1)
      else (Ok tt, log EvStorageRemove (set_lockSlot None w1))
  | SetTimeout ms => (Ok tt, resume ms w)
  | DateNow => (Ok (clock w), w)
  | MathRandom36 => (Ok (next_random w), drop_random w)
  | GetActiveLockId => (Ok (activeLockId w), w)
  | SetActiveLockId v => (Ok tt, set_activeLockId v w)
  | NavigatorOnLine => (Ok (onLine env), w)
  | Fetch req => (lift (fetch env req), log (EvFetch req (fetch env req)) w)
  | JsonParse text => (lift (JSON_parse env text), w)
  | JsonStringify backup => (Ok (JSON_stringify env backup), w)
  | GetTree => (getTree env, w)
  | CreateSnapshot tree count reason =>
      (createSnapshot env,
       log (EvCreateSnapshot count reason (is_ok (createSnapshot env))) w)
  | GetLatestBackupFile => (getLatestBackupFile env, w)
  | GetFileWithDedup path => (getFileWithDedup env path, w)
  | GetLastSyncTime url => (getLastSyncTime env url, w)
  | CompareWithCloud tree cloud =>
      (compareWithCloud env tree cloud,
       log (EvCompareWithCloud (compareWithCloud env tree cloud)) w)
  | GetBrowserInfo => (Ok (getBrowserInfo env), w)
  | ParseBackupFileName fileName => (Ok (parseBackupFileName env fileName), w)
  | IsSameBrowser a b => (Ok (isSameBrowser env a b), w)
  | SetSyncState st =>
      match setSyncState env st with
      | Ok u => (Ok u, log (EvSetSyncState st true) (set_syncState st w))
      | Err e => (Err e, log (EvSetSyncState st false) w)
      end
  | CreateCloudBackup => (createCloudBackup env, w)
  | GetBackupFileInterval => (getBackupFileInterval env, w)
  | GetLastBackupFileInfo => (getLastBackupFileInfo env, w)
  | GenerateBackupFileName browser count revision =>
      (Ok (generateBackupFileName env browser count revision), w)
  | CompressText text => (lift (compressText_answer env text), w)
  | SaveLastBackupFileInfo info =>
      match saveLastBackupFileInfo env info with
      | Ok u => (Ok u, log (EvSaveLastBackupFileInfo info true)
                          (set_lastBackupFileInfo info w))
      | Err e => (Err e, log (EvSaveLastBackupFileInfo info false) w)
      end
  | CleanOldBackups days =>
      (cleanOldBackups env, log (EvCleanOldBackups days (is_ok (cleanOldBackups env))) w)
  | ClearBackupListCache =>
      (clearBackupListCache env,
       log (EvClearBackupListCache (is_ok (clearBackupListCache env))) w)
  | ParseMultistatus baseUrl xml => (lift (parseMultistatus env baseUrl xml), w)
  end.

(** How a piece of a function body ends. *)
Inductive Completion (R A : Type) : Type :=
| Normal (a : A)
| Returned (r : R)
| Thrown (error : Raised).
Arguments Normal {R A} a.
Arguments Returned {R A} r.
Arguments Thrown {R A} error.

Fixpoint run (env : Env) {R A : Type} (p : Prog R A) (w : World)
  : Completion R A * World :=
  match p with
  | Pure a => (Normal a, w)
  | Return r => (Returned r, w)
  | Throw e => (Thrown e, w)
  | Vis c k => let '(x, w1) := handle env c w in run env (k x) w1
  end.

(** A whole call of an asynchronous function: the promise it returns
    settles with a value or rejects. *)
Definition exec (env : Env) {A : Type} (p : Prog A A) (w : World)
  : outcome A * World :=
  match run env p w with
  | (Normal a, w1) => (Ok a, w1)
  | (Returned a, w1) => (Ok a, w1)
  | (Thrown e, w1) => (Err e, w1)
  end.

(** One command of a suspended call, for interleaved runs. *)
Definition step (env : Env) {R A : Type} (p : Prog R A) (w : World)
  : Prog R A * World :=
  match p with
  | Vis c k => let '(x, w1) := handle env c w in (k x, w1)
  | _ => (p, w)
  end.

(** ** [SyncLockManager] ([core/sync/lock-manager.ts]) *)

(** [`${holder}_${Date.now()}_${Math.random().toString(36).slice(2)}`]. *)
Definition make_lockId (who : string) (now : Z) (rnd : string) : string :=
  who +:+ "_" +:+ pretty now +:+ "_" +:+ rnd.

(** [verifyLock?.lockId === lockId]. *)
Definition same_lockId (verifyLock : option SyncLock) (lid : string) : bool :=
  match verifyLock with
  | Some v => String.eqb (lockId v) lid
  | None => false
  end.

(** [acquire(holder)]; the parameter is called [who] here because
    [holder] names the field of [SyncLock]. *)
Definition acquire (who : string) : Prog bool bool :=
  try (
    existingLock <- perform StorageGet ;;
    match existingLock with
    | Some existing =>
        now <- perform DateNow ;;
        let lockAge := now - timestamp existing in
        if lockAge <? LOCK_TIMEOUT_MS then Return false else Pure tt
    | None => Pure tt
    end ;;
    idTime <- perform DateNow ;;
    rnd <- perform MathRandom36 ;;
    let lid := make_lockId who idTime rnd in
    stamp <- perform DateNow ;;
    let newLock := {| holder := who; timestamp := stamp; lockId := lid |} in
    perform (StorageSet newLock) ;;
    perform (SetTimeout 50) ;;
    verifyLock <- perform StorageGet ;;
    if same_lockId verifyLock lid then
      perform (SetActiveLockId (Some lid)) ;;
      Return true
    else Return false
  ) catch (fun error => Return false).

(** [this.activeLockId && existingLock.lockId !== this.activeLockId]. *)
Definition lockId_mismatch (active : option string) (existing : SyncLock) : bool :=
  match active with
  | Some a => truthy a && negb (String.eqb (lockId existing) a)
  | None => false
  end.

(** [release(holder)]. *)
Definition release (who : string) : Prog unit unit :=
  try (
    existingLock <- perform StorageGet ;;
    match existingLock with
    | None =>
        perform (SetActiveLockId None) ;;
        Return tt
    | Some existing =>
        if negb (String.eqb (holder existing) who) then Return tt
        else
          active <- perform GetActiveLockId ;;
          if lockId_mismatch active existing then
            perform (SetActiveLockId None) ;;
            Return tt
          else
            perform StorageRemove ;;
            perform (SetActiveLockId None) ;;
            Pure tt
    end
  ) catch (fun error => perform (SetActiveLockId None)).

Definition acquireSyncLock (who : string) : Prog bool bool := acquire who.
Definition releaseSyncLock (who : string) : Prog unit unit := release who.

(** *** Two calls of [acquire] in flight at once

    The calls take turns, one command at a time, in the order a schedule
    gives ([true]: the first call moves, [false]: the second). *)
Fixpoint interleave (env : Env) (schedule : list bool)
    (p q : Prog bool bool) (w : World) : Prog bool bool * Prog bool bool * World :=
  match schedule with
  | [] => (p, q, w)
  | true :: rest => let '(p1, w1) := step env p w in interleave env rest p1 q w1
  | false :: rest => let '(q1, w1) := step env q w in interleave env rest p q1 w1
  end.

(** What a call has returned, if it has. *)
Definition returned {R A : Type} (p : Prog R A) : option R :=
  match p with
  | Return r => Some r
  | _ => None
  end.

(** What is left of a call of [acquire] that has written its lock with
    id [lid]: before the settle delay, after it (about to read the slot
    back), and after a matching re-read (about to remember the id). *)
Definition settling (lid : string) : Prog bool bool :=
  try (
    perform (SetTimeout 50) ;;
    verifyLock <- perform StorageGet ;;
    if same_lockId verifyLock lid then
      perform (SetActiveLockId (Some lid)) ;;
      Return true
    else Return false
  ) catch (fun error => Return false).

Definition rereading (lid : string) : Prog bool bool :=
  try (
    verifyLock <- perform StorageGet ;;
    if same_lockId verifyLock lid then
      perform (SetActiveLockId (Some lid)) ;;
      Return true
    else Return false
  ) catch (fun error => Return false).

Definition confirming (lid : string) : Prog bool bool :=
  try (
    perform (SetActiveLockId (Some lid)) ;;
    Return true
  ) catch (fun error => Return false).

(** A call that has written its lock and not yet read the slot back. *)
Definition written_not_reread (lid : string) (p : Prog bool bool) : Prop :=
  p = settling lid \/ p = rereading lid.

(** What a call in its settle phase can have become, given the slot. *)
Inductive settle_state (lid : string) (slot : option SyncLock) : Prog bool bool -> Prop :=
| st_settling : settle_state lid slot (settling lid)
| st_rereading : settle_state lid slot (rereading lid)
| st_confirming : same_lockId slot lid = true -> settle_state lid slot (confirming lid)
| st_true : same_lockId slot lid = true -> settle_state lid slot (Return true)
| st_false : settle_state lid slot (Return false).


(** ** [WebDAVClient] ([infrastructure/http/webdav-client.ts]) *)

Definition normalizeUrl (config : WebDAVConfig) (path : string) : string :=
  let baseUrl :=
    if endsWith (cfg_url config) "/" then cfg_url config
    else cfg_url config +:+ "/" in
  let cleanPath := if startsWith path "/" then slice1 path else path in
  baseUrl +:+ cleanPath.

(** The requests the methods build in their calls of [fetch]. *)
Definition request (config : WebDAVConfig) (method : Method) (path : string)
    (depth body : option string) : Request :=
  {| req_method := method; req_url := normalizeUrl config path;
     req_depth := depth; req_body := body |}.

Definition putFile (config : WebDAVConfig) (path content : string) : Prog unit unit :=
  response <- perform (Fetch (request config PUT path None (Some content))) ;;
  if negb (ok response) then
    Throw ("Failed to upload file: " +:+ pretty (status response) +:+ " "
           +:+ statusText response)
  else Pure tt.

Definition createDirectory (config : WebDAVConfig) (path : string) : Prog unit unit :=
  response <- perform (Fetch (request config MKCOL path None None)) ;;
  if negb (ok response) && negb (status response =? 405) then
    Throw ("Failed to create directory: " +:+ pretty (status response) +:+ " "
           +:+ statusText response)
  else Pure tt.

Definition exists_ (config : WebDAVConfig) (path : string) : Prog bool bool :=
  try (
    response <- perform (Fetch (request config PROPFIND path (Some "0") None)) ;;
    Return (ok response || (status response =? 207))
  ) catch (fun _ => Return false).

Definition deleteFile (config : WebDAVConfig) (path : string) : Prog unit unit :=
  response <- perform (Fetch (request config DELETE path None None)) ;;
  if negb (ok response) && negb (status response =? 404) then
    Throw ("Failed to delete file: " +:+ pretty (status response) +:+ " "
           +:+ statusText response)
  else Pure tt.

(** [listFiles(dirPath)].  Everything from [response.text()] on, the
    DOMParser pass and its regular-expression fallback, is the one
    command [ParseMultistatus]. *)
Definition listFiles (config : WebDAVConfig) (dirPath : string)
  : Prog (list WebDAVFile) (list WebDAVFile) :=
  try (
    response <- perform (Fetch (request config PROPFIND dirPath (Some "1") None)) ;;
    if (status response =? 401) || (status response =? 403) then
      Throw "WebDAV 认证失败（用户名/密码或权限不正确）"
    else if status response =? 404 then Return []
    else if negb (ok response) && negb (status response =? 207) then Return []
    else
      files <- perform (ParseMultistatus (cfg_url config) (body response)) ;;
      Return files
  ) catch (fun error => Return []).

(** ** [smartPush] ([core/sync/strategies/push-strategy.ts]) *)

(** [STORAGE_CONSTANTS.BACKUP_DIR], with the value the tests' mock of
    [core/storage] gives it. *)
Definition DIR : string := "BookmarkSyncer".

(** [new Date(t).toISOString()], which the log calls evaluate: a
    [RangeError] when [t] is not a time value.  Nothing else of the
    console output is modelled. *)
Definition MAX_TIME_VALUE : Z := 8640000000000000.

Definition time_value (t : Z) : bool :=
  (- MAX_TIME_VALUE <=? t) && (t <=? MAX_TIME_VALUE).

Definition toISOString {R : Type} (t : Z) : Prog R unit :=
  if time_value t then Pure tt else Throw "Invalid time value".

Definition result_offline : SyncResult :=
  {| success := false; action := action_error; message := "网络断开" |}.
Definition result_locked : SyncResult :=
  {| success := false; action := action_error; message := "同步正在进行中" |}.
Definition result_empty : SyncResult :=
  {| success := false; action := action_error; message := "本地书签为空" |}.
Definition result_cloud_newer : SyncResult :=
  {| success := false; action := action_error; message := "云端有更新，请先拉取" |}.
Definition result_skipped : SyncResult :=
  {| success := true; action := action_skipped; message := "书签已同步，无需更新" |}.
Definition result_invalid_backup : SyncResult :=
  {| success := false; action := action_error; message := "生成的备份数据无效" |}.
Definition result_empty_backup : SyncResult :=
  {| success := false; action := action_error; message := "书签数据为空，无法上传" |}.
Definition result_uploaded : SyncResult :=
  {| success := true; action := action_uploaded; message := "上传成功" |}.

(** The locals the two branches of the time-window test assign. *)
Record Target : Type := mkTarget {
  targetFileName : string;
  targetFilePath : string;
  target_revisionNumber : Z;
  isNewFile : bool;
  oldFileToDelete : option string;
}.

(** Lines 219-244: inside the window the previous file is replaced,
    outside it a new file is started. *)
Definition chooseTarget {R : Type} (lastBackupInfo : option BackupFileInfo)
    (now backupIntervalMs : Z) (browserName : string) (bookmarkCount : Z)
  : Prog R Target :=
  match lastBackupInfo with
  | Some info =>
      if now - createdAt info <? backupIntervalMs then
        name <- perform (GenerateBackupFileName browserName bookmarkCount
                           (revisionNumber info + 1)) ;;
        Pure {| targetFileName := name;
                targetFilePath := DIR +:+ "/" +:+ name;
                target_revisionNumber := revisionNumber info + 1;
                isNewFile := false;
                oldFileToDelete := Some (filePath info) |}
      else
        name <- perform (GenerateBackupFileName browserName bookmarkCount 1) ;;
        Pure {| targetFileName := name;
                targetFilePath := DIR +:+ "/" +:+ name;
                target_revisionNumber := 1;
                isNewFile := true;
                oldFileToDelete := None |}
  | None =>
      name <- perform (GenerateBackupFileName browserName bookmarkCount 1) ;;
      Pure {| targetFileName := name;
              targetFilePath := DIR +:+ "/" +:+ name;
              target_revisionNumber := 1;
              isNewFile := true;
              oldFileToDelete := None |}
  end.

Definition with_gz (s : string) : string :=
  if endsWith s ".gz" then s else s +:+ ".gz".

(** [cloudData.metadata?.timestamp || 0]. *)
Definition cloudTime_of (cloudData : CloudBackup) : Z :=
  match metadata cloudData with
  | Some m => md_timestamp m
  | None => 0
  end.

(** Step 2 (lines 80-176): look at the latest cloud backup.  A [Return]
    leaves [smartPush]; a throw is swallowed and the upload goes on. *)
Definition checkCloudState (config : WebDAVConfig) (lockHolder : string)
    (localTree : list BookmarkNode) : Prog SyncResult unit :=
  try (
    latestBackupPath <- perform GetLatestBackupFile ;;
    if truthy_opt latestBackupPath then
      let latestPath := default "" latestBackupPath in
      cloudJson <- perform (GetFileWithDedup latestPath) ;;
      if truthy_opt cloudJson then
        cloudData <- (try (perform (JsonParse (default "" cloudJson)))
                      catch (fun _ => Throw "云端备份数据格式损坏，无法解析")) ;;
        let cloudTime := cloudTime_of cloudData in
        toISOString cloudTime ;;
        lastSyncTime <- perform (GetLastSyncTime (cfg_url config)) ;;
        (if cloudTime >? lastSyncTime then
           let isManualSync := String.eqb lockHolder "manual" in
           toISOString cloudTime ;;
           toISOString lastSyncTime ;;
           if negb isManualSync then Return result_cloud_newer else Pure tt
         else Pure tt) ;;
        isIdentical <- perform (CompareWithCloud localTree cloudData) ;;
        if isIdentical then
          localBrowserName <- perform GetBrowserInfo ;;
          let fileName := split_pop latestPath in
          parsed <- perform (ParseBackupFileName fileName) ;;
          let cloudBrowser := default "" parsed in
          isBrowserMatch <- perform (IsSameBrowser localBrowserName cloudBrowser) ;;
          let isManualSync := String.eqb lockHolder "manual" in
          if isManualSync && isBrowserMatch then Pure tt
          else
            now <- perform DateNow ;;
            perform (SetSyncState {| time := now; url := cfg_url config;
                                     type := "skip_identical" |}) ;;
            Return result_skipped
        else Pure tt
      else Pure tt
    else Pure tt
  ) catch (fun error => Pure tt).

(** Steps 3-5 (lines 178-310): build the archive and write it. *)
Definition upload (config : WebDAVConfig) : Prog SyncResult SyncResult :=
  backup <- perform CreateCloudBackup ;;
  match backup with
  | None => Return result_invalid_backup
  | Some backup =>
      if negb (bool_decide (is_Some (metadata backup))) then Return result_invalid_backup
      else if (length (data backup) =? 0)%nat then Return result_empty_backup
      else
        dirExists <- call (exists_ config DIR) ;;
        (if negb dirExists then call (createDirectory config DIR) else Pure tt) ;;
        backupIntervalMinutes <- perform GetBackupFileInterval ;;
        let backupIntervalMs := backupIntervalMinutes * 60 * 1000 in
        lastBackupInfo <- perform GetLastBackupFileInfo ;;
        now <- perform DateNow ;;
        browserName <- perform GetBrowserInfo ;;
        let bookmarkCount := countBookmarks (data backup) in
        target <- chooseTarget lastBackupInfo now backupIntervalMs browserName
                    bookmarkCount ;;
        backupJson <- perform (JsonStringify backup) ;;
        fileContent <- perform (CompressText backupJson) ;;
        let finalFileName := with_gz (targetFileName target) in
        let finalFilePath := with_gz (targetFilePath target) in
        call (putFile config finalFilePath fileContent) ;;
        (if truthy_opt (oldFileToDelete target) then
           try (call (deleteFile config (default "" (oldFileToDelete target))))
           catch (fun error => Pure tt)
         else Pure tt) ;;
        (try (perform (SaveLastBackupFileInfo
                {| fileName := finalFileName;
                   filePath := finalFilePath;
                   createdAt :=
                     if isNewFile target then now
                     else match lastBackupInfo with
                          | Some info => if createdAt info =? 0 then now else createdAt info
                          | None => now
                          end;
                   revisionNumber := target_revisionNumber target |}))
         catch (fun error => Pure tt)) ;;
        (if isNewFile target then perform (CleanOldBackups 3) else Pure tt) ;;
        perform ClearBackupListCache ;;
        syncTime <- perform DateNow ;;
        perform (SetSyncState {| time := syncTime; url := cfg_url config;
                                 type := "upload" |}) ;;
        Return result_uploaded
  end.

Definition snapshot_reason (lockHolder : string) : string :=
  "上传前自动备份 ("
  +:+ (if String.eqb lockHolder "manual" then "手动" else "自动") +:+ ")".

(** The failure the outer [catch] returns for a caught value whose
    [message] reads as [message]: [message || "上传失败"]. *)
Definition result_failed (message : string) : SyncResult :=
  {| success := false; action := action_error; message := or_else message "上传失败" |}.

(** The [TypeError] of reading a property of [null] or [undefined], with
    the wording of V8 for [null]; nothing depends on the wording. *)
Definition cannot_read_message : string :=
  "Cannot read properties of null (reading 'message')".

(** The outer [catch] (lines 311-319): [(error as Error).message] is
    read before anything is returned, and that read throws when the
    caught value is [null] or [undefined]. *)
Definition failed {A : Type} (error : Raised) : Prog SyncResult A :=
  match error with
  | WithMessage message => Return (result_failed message)
  | Nullish => Throw (WithMessage cannot_read_message)
  end.

(** The outer [try { ... } catch (error) { ... }] (lines 52-319). *)
Definition pushBody (config : WebDAVConfig) (lockHolder : string)
  : Prog SyncResult SyncResult :=
  try (
    localTree <- perform GetTree ;;
    let localCount := countBookmarks localTree in
    if localCount =? 0 then Return result_empty
    else
      (try (perform (CreateSnapshot localTree localCount (snapshot_reason lockHolder)))
       catch (fun error => Pure tt)) ;;
      checkCloudState config lockHolder localTree ;;
      upload config
  ) catch failed.

(** [smartPush(config, lockHolder, options)], with
    [skipLock = options?.skipLock ?? false]. *)
Definition smartPush (config : WebDAVConfig) (lockHolder : string) (skipLock : bool)
  : Prog SyncResult SyncResult :=
  online <- perform NavigatorOnLine ;;
  if negb online then Return result_offline
  else
    (if negb skipLock then
       lockAcquired <- call (acquireSyncLock lockHolder) ;;
       if negb lockAcquired then Return result_locked else Pure tt
     else Pure tt) ;;
    try_finally
      (pushBody config lockHolder)
      (if negb skipLock then call (releaseSyncLock lockHolder) else Pure tt).

(** ** Compression ([infrastructure/utils/compression.ts])

    A [Uint8Array] is a list of bytes ([ascii]), a binary string (what
    [String.fromCharCode] builds and [atob] returns) is a [string], and
    a text string is the list of its UTF-16 code units. *)

Definition byte_of (z : Z) : ascii := ascii_of_N (Z.to_N z).
Definition code (a : ascii) : Z := Z.of_N (N_of_ascii a).

(** *** The platform's text codec ([TextEncoder], [TextDecoder])

    Modelled on the Encoding Standard: the encoder takes a string with
    every unpaired surrogate replaced by U+FFFD; the decoder is the
    standard's UTF-8 state machine in its replacement mode, and, since
    [ignoreBOM] is left at its default, a leading byte order mark is
    dropped. *)

Definition is_high_surrogate (u : Z) : bool := (0xD800 <=? u) && (u <=? 0xDBFF).
Definition is_low_surrogate (u : Z) : bool := (0xDC00 <=? u) && (u <=? 0xDFFF).

Definition encode_code_point (cp : Z) : list ascii :=
  if cp <? 0x80 then [byte_of cp]
  else if cp <? 0x800 then
    [byte_of (0xC0 + cp / 64); byte_of (0x80 + cp mod 64)]
  else if cp <? 0x10000 then
    [byte_of (0xE0 + cp / 4096); byte_of (0x80 + (cp / 64) mod 64);
     byte_of (0x80 + cp mod 64)]
  else
    [byte_of (0xF0 + cp / 262144); byte_of (0x80 + (cp / 4096) mod 64);
     byte_of (0x80 + (cp / 64) mod 64); byte_of (0x80 + cp mod 64)].

Fixpoint utf8_encode (units : list Z) : list ascii :=
  match units with
  | [] => []
  | u :: rest =>
      if is_high_surrogate u then
        match rest with
        | v :: rest' =>
            if is_low_surrogate v then
              encode_code_point (0x10000 + (u - 0xD800) * 1024 + (v - 0xDC00))
              ++ utf8_encode rest'
            else encode_code_point 0xFFFD ++ utf8_encode rest
        | [] => encode_code_point 0xFFFD
        end
      else if is_low_surrogate u then encode_code_point 0xFFFD ++ utf8_encode rest
      else encode_code_point u ++ utf8_encode rest
  end.

Record Utf8Decoder : Type := mkUtf8Decoder {
  code_point : Z;
  bytes_seen : Z;
  bytes_needed : Z;
  lower_boundary : Z;
  upper_boundary : Z;
}.

Definition decoder_init : Utf8Decoder :=
  {| code_point := 0; bytes_seen := 0; bytes_needed := 0;
     lower_boundary := 0x80; upper_boundary := 0xBF |}.

(** A decoded code point as UTF-16 code units. *)
Definition emit (cp : Z) : list Z :=
  if cp <=? 0xFFFF then [cp]
  else [0xD800 + (cp - 0x10000) / 1024; 0xDC00 + (cp - 0x10000) mod 1024].

Definition within (lo hi b : Z) : bool := (lo <=? b) && (b <=? hi).

(** A byte met when no sequence is open. *)
Definition decoder_start (b : Z) : Utf8Decoder * list Z :=
  if b <=? 0x7F then (decoder_init, [b])
  else if within 0xC2 0xDF b then
    ({| code_point := b mod 32; bytes_seen := 0; bytes_needed := 1;
        lower_boundary := 0x80; upper_boundary := 0xBF |}, [])
  else if within 0xE0 0xEF b then
    ({| code_point := b mod 16; bytes_seen := 0; bytes_needed := 2;
        lower_boundary := if b =? 0xE0 then 0xA0 else 0x80;
        upper_boundary := if b =? 0xED then 0x9F else 0xBF |}, [])
  else if within 0xF0 0xF4 b then
    ({| code_point := b mod 8; bytes_seen := 0; bytes_needed := 3;
        lower_boundary := if b =? 0xF0 then 0x90 else 0x80;
        upper_boundary := if b =? 0xF4 then 0x8F else 0xBF |}, [])
  else (decoder_init, [0xFFFD]).

(** One byte: a byte outside the expected range closes the open
    sequence with U+FFFD and is then read afresh. *)
Definition decoder_step (st : Utf8Decoder) (b : Z) : Utf8Decoder * list Z :=
  if bytes_needed st =? 0 then decoder_start b
  else if negb (within (lower_boundary st) (upper_boundary st) b) then
    let '(st', out) := decoder_start b in (st', 0xFFFD :: out)
  else
    let cp := code_point st * 64 + b mod 64 in
    let seen := bytes_seen st + 1 in
    if seen =? bytes_needed st then (decoder_init, emit cp)
    else ({| code_point := cp; bytes_seen := seen; bytes_needed := bytes_needed st;
             lower_boundary := 0x80; upper_boundary := 0xBF |}, []).

Fixpoint decoder_run (st : Utf8Decoder) (bytes : list ascii) : list Z :=
  match bytes with
  | [] => if bytes_needed st =? 0 then [] else [0xFFFD]
  | b :: rest =>
      let '(st', out) := decoder_step st (code b) in
      out ++ decoder_run st' rest
  end.

Definition strip_bom (bytes : list ascii) : list ascii :=
  match bytes with
  | a :: b :: c :: rest =>
      if (code a =? 0xEF) && (code b =? 0xBB) && (code c =? 0xBF) then rest
      else bytes
  | _ => bytes
  end.

Definition utf8_decode (bytes : list ascii) : list Z :=
  decoder_run decoder_init (strip_bom bytes).

(** *** The platform's Base64 codec ([btoa], [atob]) *)

Definition sextet_char (n : Z) : ascii :=
  if n <? 26 then byte_of (65 + n)
  else if n <? 52 then byte_of (97 + (n - 26))
  else if n <? 62 then byte_of (48 + (n - 52))
  else if n =? 62 then "+"%char
  else "/"%char.

Definition char_sextet (c : ascii) : option Z :=
  let k := code c in
  if within 65 90 k then Some (k - 65)
  else if within 97 122 k then Some (k - 71)
  else if within 48 57 k then Some (k + 4)
  else if k =? 43 then Some 62
  else if k =? 47 then Some 63
  else None.

Definition pad : ascii := "="%char.

Fixpoint btoa_loop (bytes : list ascii) : list ascii :=
  match bytes with
  | [] => []
  | [a] =>
      [sextet_char (code a / 4); sextet_char (code a mod 4 * 16); pad; pad]
  | [a; b] =>
      [sextet_char (code a / 4);
       sextet_char (code a mod 4 * 16 + code b / 16);
       sextet_char (code b mod 16 * 4); pad]
  | a :: b :: c :: rest =>
      [sextet_char (code a / 4);
       sextet_char (code a mod 4 * 16 + code b / 16);
       sextet_char (code b mod 16 * 4 + code c / 64);
       sextet_char (code c mod 64)] ++ btoa_loop rest
  end.

Definition btoa (binary : string) : string :=
  String.string_of_list_ascii (btoa_loop (String.list_ascii_of_string binary)).

Definition is_ascii_whitespace (c : ascii) : bool :=
  let k := code c in
  (k =? 9) || (k =? 10) || (k =? 12) || (k =? 13) || (k =? 32).

Definition decode2 (c1 c2 : ascii) : option (list ascii) :=
  d1 ← char_sextet c1; d2 ← char_sextet c2;
  Some [byte_of (d1 * 4 + d2 / 16)].

Definition decode3 (c1 c2 c3 : ascii) : option (list ascii) :=
  d1 ← char_sextet c1; d2 ← char_sextet c2; d3 ← char_sextet c3;
  Some [byte_of (d1 * 4 + d2 / 16); byte_of (d2 mod 16 * 16 + d3 / 4)].

Definition decode4 (c1 c2 c3 c4 : ascii) (tail : option (list ascii))
  : option (list ascii) :=
  d1 ← char_sextet c1; d2 ← char_sextet c2; d3 ← char_sextet c3;
  d4 ← char_sextet c4; rest ← tail;
  Some (byte_of (d1 * 4 + d2 / 16) :: byte_of (d2 mod 16 * 16 + d3 / 4)
        :: byte_of (d3 mod 4 * 64 + d4) :: rest).

(** Forgiving Base64 decoding of a text free of whitespace: padding is
    accepted at the very end only, one leftover character is an error. *)
Fixpoint atob_loop (cs : list ascii) : option (list ascii) :=
  match cs with
  | [] => Some []
  | [_] => None
  | [c1; c2] => decode2 c1 c2
  | [c1; c2; c3] => decode3 c1 c2 c3
  | c1 :: c2 :: c3 :: c4 :: rest =>
      match rest with
      | [] =>
          if Ascii.eqb c4 pad then
            if Ascii.eqb c3 pad then decode2 c1 c2 else decode3 c1 c2 c3
          else decode4 c1 c2 c3 c4 (Some [])
      | _ :: _ => decode4 c1 c2 c3 c4 (atob_loop rest)
      end
  end.

(** [atob]: [None] stands for the [InvalidCharacterError] it throws. *)
Definition atob (text : string) : option string :=
  String.string_of_list_ascii <$>
    atob_loop (filter (fun c => is_ascii_whitespace c = false)
                 (String.list_ascii_of_string text)).

Definition is_base64_char (c : ascii) : bool := bool_decide (is_Some (char_sextet c)).

(** [/^[A-Za-z0-9+/]+=*$/] of the tests, with the padding kept to what a
    whole number of quadruples allows. *)
Fixpoint valid_base64_chars (cs : list ascii) : bool :=
  match cs with
  | [] => true
  | [c1; c2; c3; c4] =>
      is_base64_char c1 && is_base64_char c2
      && ((is_base64_char c3 && (is_base64_char c4 || Ascii.eqb c4 pad))
          || (Ascii.eqb c3 pad && Ascii.eqb c4 pad))
  | c1 :: c2 :: c3 :: c4 :: rest =>
      is_base64_char c1 && is_base64_char c2 && is_base64_char c3
      && is_base64_char c4 && valid_base64_chars rest
  | _ => false
  end.

Definition valid_base64 (text : string) : bool :=
  valid_base64_chars (String.list_ascii_of_string text).

(** *** [compression.ts] itself *)

Section Compression.
(** The platform: how many arguments [Function.prototype.apply] can
    pass before the engine throws a [RangeError], the chunks a
    [CompressionStream('gzip')] hands to its reader, and the chunks a
    [DecompressionStream('gzip')] hands out, or the error it raises. *)
Variable max_arguments : nat.
Variable gzip_stream : list ascii -> list (list ascii).
Variable gunzip_stream : list ascii -> result (list (list ascii)).

(** [String.fromCharCode.apply(null, Array.from(chunk))]. *)
Definition fromCharCode_apply (chunk : list ascii) : result string :=
  if (length chunk <=? max_arguments)%nat then Ok (String.string_of_list_ascii chunk)
  else Err "RangeError: Maximum call stack size exceeded".

Definition chunkSize : nat := Z.to_nat 8192.

(** [bytes.subarray(i, j)]. *)
Definition subarray (bytes : list ascii) (i j : nat) : list ascii :=
  take (j - i) (drop i bytes).

(** The [for] loop of [uint8ArrayToBase64]; it runs at most once per
    byte, so [fuel] one above the length never runs out. *)
Fixpoint toBinary (fuel : nat) (bytes : list ascii) (i : nat) (binary : string)
  : result string :=
  match fuel with
  | O => Ok binary
  | S fuel' =>
      if (i <? length bytes)%nat then
        let chunk := subarray bytes i (Nat.min (i + chunkSize) (length bytes)) in
        match fromCharCode_apply chunk with
        | Ok piece => toBinary fuel' bytes (i + chunkSize) (binary +:+ piece)
        | Err e => Err e
        end
      else Ok binary
  end.

Definition uint8ArrayToBase64 (bytes : list ascii) : result string :=
  match toBinary (S (length bytes)) bytes 0 "" with
  | Ok binary => Ok (btoa binary)
  | Err e => Err e
  end.

(** [result.set(chunk, offset)]. *)
Definition set_at (result : list ascii) (chunk : list ascii) (offset : nat)
  : list ascii :=
  take offset result ++ chunk ++ drop (offset + length chunk) result.

(** "合并所有 chunks": a zero-filled array of the total length, filled
    chunk by chunk. *)
Definition merge (chunks : list (list ascii)) : list ascii :=
  let totalLength := fold_left (fun acc chunk => (acc + length chunk)%nat) chunks 0%nat in
  let result := repeat Ascii.zero totalLength in
  fst (fold_left
         (fun '(result, offset) chunk =>
            (set_at result chunk offset, (offset + length chunk)%nat))
         chunks (result, 0%nat)).

Definition compressText (text : list Z) : result string :=
  let data := utf8_encode text in
  let chunks := gzip_stream data in
  let result := merge chunks in
  uint8ArrayToBase64 result.

Definition decompressText (base64Data : string) : result (list Z) :=
  match atob base64Data with
  | None => Err "Base64 解码失败，数据可能已损坏"
  | Some binaryString =>
      let bytes := String.list_ascii_of_string binaryString in
      match gunzip_stream bytes with
      | Err e => Err e
      | Ok chunks =>
          let result := merge chunks in
          Ok (utf8_decode result)
      end
  end.
End Compression.

(** What the code relies on from the platform. *)
Definition platform_ok (max_arguments : nat)
    (gzip_stream : list ascii -> list (list ascii))
    (gunzip_stream : list ascii -> result (list (list ascii))) : Prop :=
  (chunkSize <= max_arguments)%nat
  /\ forall data, exists chunks,
       gunzip_stream (concat (gzip_stream data)) = Ok chunks
       /\ concat chunks = data.

(** A Unicode scalar value: a code point that is not a surrogate. *)
Definition scalar (cp : Z) : Prop :=
  0 <= cp <= 0x10FFFF /\ ~ (0xD800 <= cp <= 0xDFFF).

(** A text string: UTF-16 code units. *)
Definition utf16 (text : list Z) : Prop :=
  Forall (fun u => 0 <= u <= 0xFFFF) text.

(** No surrogate stands alone. *)
Fixpoint paired_surrogates (text : list Z) : bool :=
  match text with
  | [] => true
  | u :: rest =>
      if is_high_surrogate u then
        match rest with
        | v :: rest' => is_low_surrogate v && paired_surrogates rest'
        | [] => false
        end
      else negb (is_low_surrogate u) && paired_surrogates rest
  end.

Definition starts_with_bom (text : list Z) : bool :=
  match text with
  | u :: _ => u =? 0xFEFF
  | [] => false
  end.

(** The round trip of section 6, for every text string. *)
Definition roundtrip_for_every_string : Prop :=
  forall max_arguments gzip_stream gunzip_stream text,
    platform_ok max_arguments gzip_stream gunzip_stream ->
    utf16 text ->
    exists base64,
      compressText max_arguments gzip_stream text = Ok base64
      /\ decompressText gunzip_stream base64 = Ok text.

(** ** Predicates used in the statements *)

(** The lock is held when the body of [smartPush] starts in [w1]:
    inherited from the caller, or acquired by this call from [w]. *)
Definition lock_taken (env : Env) (lockHolder : string) (skipLock : bool)
    (w w1 : World) : Prop :=
  if skipLock then w1 = w
  else exec env (acquireSyncLock lockHolder) w = (Ok true, w1).

(** The world [smartPush] leaves when its body has ended in [wb]: the
    [finally] releases the lock unless it was inherited. *)
Definition after_finally (env : Env) (lockHolder : string) (skipLock : bool)
    (wb : World) : World :=
  if skipLock then wb else snd (exec env (releaseSyncLock lockHolder) wb).

(** How the body of [smartPush] ends when [error] reaches its outer
    [catch] in the world [w]. *)
Definition caught (error : Raised) (w : World)
  : Completion SyncResult SyncResult * World :=
  match error with
  | WithMessage message => (Returned (result_failed message), w)
  | Nullish => (Thrown (WithMessage cannot_read_message), w)
  end.

(** How [smartPush] ends, given how its body ends. *)
Definition finish (env : Env) (lockHolder : string) (skipLock : bool)
    (end_of_body : Completion SyncResult SyncResult * World)
  : outcome SyncResult * World :=
  match end_of_body with
  | (Normal r, wb) => (Ok r, after_finally env lockHolder skipLock wb)
  | (Returned r, wb) => (Ok r, after_finally env lockHolder skipLock wb)
  | (Thrown e, wb) => (Err e, after_finally env lockHolder skipLock wb)
  end.

(** Whether an event is a write to the remote store: a PUT, DELETE or
    MKCOL request, or a call of [cleanOldBackups], which deletes remote
    files. *)
Definition remote_write (e : Event) : bool :=
  match e with
  | EvFetch req _ =>
      match req_method req with
      | PUT | DELETE | MKCOL => true
      | _ => false
      end
  | EvCleanOldBackups _ _ => true
  | _ => false
  end.

(** Commands that reach the remote store through the client. *)
Definition remote_command {X : Type} (c : Cmd X) : bool :=
  match c with
  | Fetch _ | CleanOldBackups _ => true
  | _ => false
  end.

(** Programs none of whose paths issues such a command. *)
Inductive remote_free {R A : Type} : Prog R A -> Prop :=
| rf_pure (a : A) : remote_free (Pure a)
| rf_return (r : R) : remote_free (Return r)
| rf_throw (e : Raised) : remote_free (Throw e)
| rf_vis {X : Type} (c : Cmd X) (k : outcome X -> Prog R A) :
    remote_command c = false ->
    (forall x, remote_free (k x)) ->
    remote_free (Vis c k).

(** From [w] to [w'] only calls that leave the remote store alone were
    made: no PUT and no DELETE request. *)
Definition no_remote_write (w w' : World) : Prop :=
  exists events,
    trace w' = (trace w ++ events)%list
    /\ Forall (fun e => remote_write e = false) events.

(** The files on an idealised server after the requests of a trace: a
    PUT answered with success stores its url, a DELETE answered with
    success removes it, nothing else changes the store. *)
Definition apply_event (files : gset string) (e : Event) : gset string :=
  match e with
  | EvFetch req (Ok response) =>
      match req_method req with
      | PUT => if ok response then {[ req_url req ]} ∪ files else files
      | DELETE => if ok response then files ∖ {[ req_url req ]} else files
      | _ => files
      end
  | _ => files
  end.

Definition remote_after (files : gset string) (events : list Event) : gset string :=
  fold_left apply_event events files.

(** No other context writes the lock slot and no storage call is
    rejected during the suspensions to come (time may pass). *)
Definition calm (w : World) : Prop :=
  Forall (fun a => interfere a = None /\ rejects a = false) (script w).

(** No other context writes the lock slot during the suspensions to
    come (storage calls may be rejected, time may pass). *)
Definition undisturbed (w : World) : Prop :=
  Forall (fun a => interfere a = None) (script w).

(** The remembered lock id is [null] or an id [acquire] made, which is
    never the empty string. *)
Definition manager_wf (w : World) : Prop := activeLockId w <> Some "".

(** ** Stages of [smartPush], as the statements name them *)

(** The world once the snapshot before the upload has been asked for. *)
Definition after_snapshot (env : Env) (lockHolder : string)
    (tree : list BookmarkNode) (w : World) : World :=
  log (EvCreateSnapshot (countBookmarks tree) (snapshot_reason lockHolder)
         (is_ok (createSnapshot env))) w.

(** The new file's path in the replace branch, and the requests for
    it and for the previous file. *)
Definition replace_path (env : Env) (backup : CloudBackup) (info : BackupFileInfo)
  : string :=
  with_gz (DIR +:+ "/" +:+
           generateBackupFileName env (getBrowserInfo env)
             (countBookmarks (data backup)) (revisionNumber info + 1)).

Definition skip_state (config : WebDAVConfig) (now : Z) : SyncState :=
  {| time := now; url := cfg_url config; type := "skip_identical" |}.

Definition upload_state (config : WebDAVConfig) (now : Z) : SyncState :=
  {| time := now; url := cfg_url config; type := "upload" |}.

(** ** Sample worlds, used to exercise the statements *)

Definition config_demo : WebDAVConfig :=
  {| cfg_url := "https://dav.example.com/dav"; cfg_username := "user";
     cfg_password := "pass" |}.

Definition tree_demo : list BookmarkNode :=
  [mkNode "Bar" None
     (Some [mkNode "Test" (Some "https://test.com") None])].

Definition response_of (st : Z) : Response :=
  {| ok := (200 <=? st) && (st <=? 299); status := st; statusText := ""; body := "" |}.

(** A server that answers every request with the given status, and
    collaborators that answer every call: the local tree is [tree], the
    cloud backup is from timestamp 5000 and has the same content, the
    last sync was at [lastSync]. *)
Definition env_sample (tree : list BookmarkNode) (lastSync : Z)
    (status_of : Method -> Z) : Env :=
  {| onLine := true;
     fetch := fun req => Ok (response_of (status_of (req_method req)));
     JSON_parse := fun _ =>
       Ok {| metadata := Some {| md_timestamp := 5000; md_clientVersion := "1.0.0" |};
             data := tree_demo |};
     JSON_stringify := fun _ => "{}";
     getTree := Ok tree;
     createSnapshot := Ok tt;
     getLatestBackupFile :=
       Ok (Some "BookmarkSyncer/bookmarks_20260127_143052_edge_1_v1.json.gz");
     getFileWithDedup := fun _ => Ok (Some "{}");
     getLastSyncTime := fun _ => Ok lastSync;
     compareWithCloud := fun _ _ => Ok true;
     getBrowserInfo := "edge";
     parseBackupFileName := fun _ => Some "edge";
     isSameBrowser := String.eqb;
     setSyncState := fun _ => Ok tt;
     createCloudBackup :=
       Ok (Some {| metadata := Some {| md_timestamp := 9000; md_clientVersion := "1.0.0" |};
                   data := tree_demo |});
     getBackupFileInterval := Ok 1;
     getLastBackupFileInfo :=
       Ok (Some {| fileName := "bookmarks_20260127_143052_edge_1_v1.json.gz";
                   filePath := "BookmarkSyncer/bookmarks_20260127_143052_edge_1_v1.json.gz";
                   createdAt := 8000; revisionNumber := 1 |});
     generateBackupFileName := fun browser count revision =>
       "bookmarks_20260127_143100_" +:+ browser +:+ "_" +:+ pretty count
       +:+ "_v" +:+ pretty revision +:+ ".json";
     compressText_answer := fun text => Ok ("H4sI" +:+ text);
     saveLastBackupFileInfo := fun _ => Ok tt;
     cleanOldBackups := Ok tt;
     clearBackupListCache := Ok tt;
     parseMultistatus := fun _ _ => Ok [] |}.

Definition status_ok (method : Method) : Z :=
  match method with
  | PROPFIND => 207
  | PUT | MKCOL => 201
  | DELETE => 204
  | GET => 200
  end.

(** The cloud is newer than the last sync. *)
Definition env_demo : Env := env_sample tree_demo 4000 status_ok.

(** The cloud has been pulled already. *)
Definition env_synced : Env := env_sample tree_demo 6000 status_ok.

(** The local tree holds a folder and no bookmark. *)
Definition env_empty_tree : Env :=
  env_sample [mkNode "Bar" None (Some [])] 6000 status_ok.

(** The server refuses the credentials. *)
Definition env_unauthorized : Env := env_sample tree_demo 6000 (fun _ => 401).

(** The server refuses to delete. *)
Definition env_delete_fails : Env :=
  env_sample tree_demo 4000
    (fun method => match method with DELETE => 500 | _ => status_ok method end).

Definition lock_new : SyncLock :=
  {| holder := "auto-sync"; timestamp := 8990; lockId := "auto-sync_8990_n3w0" |}.

(** An instance that remembers an older lock of its own while the slot
    holds a newer one of the same holder. *)
Definition world_stale : World :=
  {| lockSlot := Some lock_new; activeLockId := Some "auto-sync_1000_0ld0";
     clock := 9000; script := []; randoms := ["k3x9"]; syncState := None;
     lastBackupFileInfo := None; trace := [] |}.

(** The slot holds a lock written 61 seconds ago and never released. *)
Definition world_expired : World :=
  {| lockSlot := Some {| holder := "auto-sync"; timestamp := 9000;
                         lockId := "auto-sync_9000_0ld0" |};
     activeLockId := None; clock := 70000; script := []; randoms := ["k3x9"];
     syncState := None; lastBackupFileInfo := None; trace := [] |}.

(** A stand-in for the gzip streams that stores the data as it is, in
    one chunk. *)
Definition gzip_stored (data : list ascii) : list (list ascii) := [data].
Definition gunzip_stored (data : list ascii) : result (list (list ascii)) := Ok [data].

(** "\uFEFFa": a well-formed text that starts with a byte order mark. *)
Definition text_with_bom : list Z := [0xFEFF; 0x61].

(** "中文🔖é". *)
Definition text_unicode : list Z := [0x4E2D; 0x6587; 0xD83D; 0xDD16; 0xE9].

Definition world_unlocked : World :=
  {| lockSlot := None; activeLockId := None; clock := 9000; script := [];
     randoms := ["k3x9"; "p07q"]; syncState := None; lastBackupFileInfo := None;
     trace := [] |}.

(** The first call reads the empty slot, the second reads it too; the
    first then writes, waits, reads its own lock back and returns; only
    then does the second resume from its read. *)
Definition racing_schedule : list bool :=
  [true; false] ++ repeat true 7 ++ repeat false 7.

(** The exclusion property of section 8, over interleaved runs. *)
Definition at_most_one_acquires : Prop :=
  forall env schedule whoA whoB w,
    let '(p, q, _) := interleave env schedule (acquire whoA) (acquire whoB) w in
    ~ (returned p = Some true /\ returned q = Some true).

(** * The rest of the sources *)

(** ** [WebDAVClient], the other methods *)

(** [testConnection()]: as [exists("")], without the [try]. *)
Definition testConnection (config : WebDAVConfig) : Prog bool bool :=
  response <- perform (Fetch (request config PROPFIND "" (Some "0") None)) ;;
  Return (ok response || (status response =? 207)).

Definition not_found (path : string) : string := "文件不存在: " +:+ path.
Definition auth_failed (path : string) : string := "认证失败: " +:+ path.
Definition conflict : string := "文件访问冲突，请稍后再试 (409)".
Definition download_failed (response : Response) : string :=
  "Failed to download file: " +:+ pretty (status response) +:+ " "
  +:+ statusText response.

(** [getFile(path)]: one GET, no retry; [response.text()] is the [body]
    of the answer. *)
Definition getFile (config : WebDAVConfig) (path : string) : Prog string string :=
  response <- perform (Fetch (request config GET path None None)) ;;
  if negb (ok response) then
    if status response =? 404 then Throw (not_found path)
    else if (status response =? 401) || (status response =? 403) then
      Throw (auth_failed path)
    else if status response =? 409 then Throw conflict
    else Throw (download_failed response)
  else Return (body response).


(** ** Shapes of programs, for statements about every run *)

(** Programs all of whose commands are among [allowed], whose normal
    completions give a value in [normals] and whose [return]s give a
    value in [returns]. *)
Inductive shaped (allowed : forall X, Cmd X -> bool) {R A : Type}
    (normals : A -> Prop) (returns : R -> Prop) : Prog R A -> Prop :=
| shaped_pure (a : A) : normals a -> shaped allowed normals returns (Pure a)
| shaped_return (r : R) : returns r -> shaped allowed normals returns (Return r)
| shaped_throw (e : Raised) : shaped allowed normals returns (Throw e)
| shaped_vis {X : Type} (c : Cmd X) (k : outcome X -> Prog R A) :
    allowed X c = true ->
    (forall x, shaped allowed normals returns (k x)) ->
    shaped allowed normals returns (Vis c k).

(** Programs whose own [throw]s all carry a message: whatever such a
    program throws has a message unless a command has answered with
    [null] or [undefined]. *)
Inductive throws_messages {R A : Type} : Prog R A -> Prop :=
| tm_pure (a : A) : throws_messages (Pure a)
| tm_return (r : R) : throws_messages (Return r)
| tm_throw (message : string) : throws_messages (Throw (WithMessage message))
| tm_vis {X : Type} (c : Cmd X) (k : outcome X -> Prog R A) :
    (forall x, x <> Err Nullish -> throws_messages (k x)) ->
    throws_messages (Vis c k).

(** No call the environment answers is rejected with [null] or
    [undefined]. *)
Definition rejections_have_messages (env : Env) : Prop :=
  forall X (c : Cmd X) w, fst (handle env c w) <> Err Nullish.

Definition any_command : forall X, Cmd X -> bool := fun _ _ => true.
Definition any {T : Type} : T -> Prop := fun _ => True.
Definition none {T : Type} : T -> Prop := fun _ => False.

(** The commands on the lock: the storage slot, the timer, the
    remembered id and the random source of the lock ids. *)
Definition lock_command (X : Type) (c : Cmd X) : bool :=
  match c with
  | StorageGet | StorageSet _ | StorageRemove | SetTimeout _
  | SetActiveLockId _ | MathRandom36 => true
  | _ => false
  end.

Definition not_lock_command (X : Type) (c : Cmd X) : bool := negb (lock_command X c).

(** The part of the world the lock manager works on. *)
Definition same_lock_state (w w' : World) : Prop :=
  lockSlot w' = lockSlot w /\ activeLockId w' = activeLockId w
  /\ script w' = script w /\ randoms w' = randoms w /\ clock w' = clock w.

Definition storage_event (e : Event) : bool :=
  match e with
  | EvStorageSet _ | EvStorageRemove => true
  | _ => false
  end.

(** From [w] to [w'] the lock was left alone. *)
Definition lock_untouched (w w' : World) : Prop :=
  same_lock_state w w'
  /\ exists events,
       trace w' = (trace w ++ events)%list
       /\ Forall (fun e => storage_event e = false) events.

(** The forms a result of [smartPush] takes. *)
Definition well_formed_result (r : SyncResult) : Prop :=
  (success r = true -> r = result_skipped \/ r = result_uploaded)
  /\ (success r = false -> action r = action_error).

(** *** The sync state is written last *)

Definition state_command (X : Type) (c : Cmd X) : bool :=
  match c with
  | SetSyncState _ => true
  | _ => false
  end.

Definition not_state_command (X : Type) (c : Cmd X) : bool := negb (state_command X c).

(** The state [setSyncState] is given and the result returned right
    after it. *)
Definition commit_of (config : WebDAVConfig) (st : SyncState) (r : SyncResult) : Prop :=
  url st = cfg_url config
  /\ ((r = result_skipped /\ type st = "skip_identical")
      \/ (r = result_uploaded /\ type st = "upload")).

(** Programs that return a failure wherever they return without having
    called [setSyncState], and that, when a call of [setSyncState] has
    succeeded, return at once, with a success. *)
Inductive commits_last (config : WebDAVConfig) {A : Type}
  : Prog SyncResult A -> Prop :=
| cl_pure (a : A) : commits_last config (Pure a)
| cl_return (r : SyncResult) : success r = false -> commits_last config (Return r)
| cl_throw (e : Raised) : commits_last config (Throw e)
| cl_vis {X : Type} (c : Cmd X) (k : outcome X -> Prog SyncResult A) :
    state_command X c = false ->
    (forall x, commits_last config (k x)) ->
    commits_last config (Vis c k)
| cl_set (st : SyncState) (k : outcome unit -> Prog SyncResult A) (r : SyncResult) :
    commit_of config st r ->
    k (Ok tt) = Return r ->
    (forall e, commits_last config (k (Err e))) ->
    commits_last config (Vis (SetSyncState st) k).

(** *** Nothing is removed before the new file is stored *)

(** The commands that remove remote files or move the record of the
    last backup file: a DELETE request, [cleanOldBackups] and
    [saveLastBackupFileInfo]. *)
Definition destructive_command (X : Type) (c : Cmd X) : bool :=
  match c with
  | Fetch req =>
      match req_method req with
      | DELETE => true
      | _ => false
      end
  | CleanOldBackups _ | SaveLastBackupFileInfo _ => true
  | _ => false
  end.

Definition not_destructive_command (X : Type) (c : Cmd X) : bool :=
  negb (destructive_command X c).

Definition destructive (e : Event) : bool :=
  match e with
  | EvFetch req _ =>
      match req_method req with
      | DELETE => true
      | _ => false
      end
  | EvCleanOldBackups _ _ | EvSaveLastBackupFileInfo _ _ => true
  | _ => false
  end.

(** A PUT request the server has answered with success. *)
Definition accepted_put (e : Event) : bool :=
  match e with
  | EvFetch req (Ok response) =>
      match req_method req with
      | PUT => ok response
      | _ => false
      end
  | _ => false
  end.

(** Whether the answer [x] to the command [c] is such a success. *)
Definition accepts {X : Type} (c : Cmd X) : outcome X -> bool :=
  match c in Cmd X return outcome X -> bool with
  | Fetch req => fun x =>
      match x with
      | Ok response =>
          match req_method req with
          | PUT => ok response
          | _ => false
          end
      | Err _ => false
      end
  | _ => fun _ => false
  end.

(** Programs that, until a PUT has been accepted, issue no destructive
    command and do not return "uploaded". *)
Inductive put_first {A : Type} : Prog SyncResult A -> Prop :=
| pf_pure (a : A) : put_first (Pure a)
| pf_return (r : SyncResult) : action r <> action_uploaded -> put_first (Return r)
| pf_throw (e : Raised) : put_first (Throw e)
| pf_vis {X : Type} (c : Cmd X) (k : outcome X -> Prog SyncResult A) :
    destructive_command X c = false ->
    (forall x, accepts c x = false -> put_first (k x)) ->
    put_first (Vis c k).

(** From [w] to [w'] nothing destructive was done. *)
Definition harmless (w w' : World) : Prop :=
  lastBackupFileInfo w' = lastBackupFileInfo w
  /\ exists events,
       trace w' = (trace w ++ events)%list
       /\ Forall (fun e => destructive e = false) events.

(** From [w] to [w'] a PUT was accepted, and nothing destructive was
    done before it. *)
Definition stored_first (w w' : World) : Prop :=
  exists before e after,
    trace w' = (trace w ++ before ++ e :: after)%list
    /\ accepted_put e = true
    /\ Forall (fun e => destructive e = false) before.

(** *** Stages and surroundings of [smartPush], for the statements *)

(** The surroundings with no backup in the cloud:
    [getLatestBackupFile] answers [null]. *)
Definition without_cloud (env : Env) : Env :=
  {| onLine := onLine env;
     fetch := fetch env;
     JSON_parse := JSON_parse env;
     JSON_stringify := JSON_stringify env;
     getTree := getTree env;
     createSnapshot := createSnapshot env;
     getLatestBackupFile := Ok None;
     getFileWithDedup := getFileWithDedup env;
     getLastSyncTime := getLastSyncTime env;
     compareWithCloud := compareWithCloud env;
     getBrowserInfo := getBrowserInfo env;
     parseBackupFileName := parseBackupFileName env;
     isSameBrowser := isSameBrowser env;
     setSyncState := setSyncState env;
     createCloudBackup := createCloudBackup env;
     getBackupFileInterval := getBackupFileInterval env;
     getLastBackupFileInfo := getLastBackupFileInfo env;
     generateBackupFileName := generateBackupFileName env;
     compressText_answer := compressText_answer env;
     saveLastBackupFileInfo := saveLastBackupFileInfo env;
     cleanOldBackups := cleanOldBackups env;
     clearBackupListCache := clearBackupListCache env;
     parseMultistatus := parseMultistatus env |}.

(** The latest cloud backup cannot be read: the listing fails or finds
    nothing, the download fails or gives nothing, or the text is not
    JSON. *)
Definition cloud_unreadable (env : Env) : Prop :=
  match getLatestBackupFile env with
  | Err _ => True
  | Ok None => True
  | Ok (Some path) =>
      path = ""
      \/ match getFileWithDedup env path with
         | Err _ => True
         | Ok None => True
         | Ok (Some json) => json = "" \/ exists e, JSON_parse env json = Err e
         end
  end.

Definition latest_command (X : Type) (c : Cmd X) : bool :=
  match c with
  | GetLatestBackupFile => true
  | _ => false
  end.

Definition not_latest_command (X : Type) (c : Cmd X) : bool := negb (latest_command X c).

(** The run of [smartPush] from [w] gets to its upload stage (step 3)
    in the world [w3]: online, the lock held, the local tree read and
    not empty, the cloud check passed without a [return]. *)
Definition reaches_upload (env : Env) (config : WebDAVConfig) (lockHolder : string)
    (skipLock : bool) (w w3 : World) : Prop :=
  exists w1 tree,
    onLine env = true
    /\ lock_taken env lockHolder skipLock w w1
    /\ getTree env = Ok tree /\ countBookmarks tree <> 0
    /\ run env (checkCloudState config lockHolder tree)
         (after_snapshot env lockHolder tree w1) = (Normal tt, w3).

(** Whether the push falls in the window of the last backup file
    (line 219). *)
Definition in_window (lastInfo : option BackupFileInfo) (now minutes : Z) : bool :=
  match lastInfo with
  | Some info => now - createdAt info <? minutes * 60 * 1000
  | None => false
  end.

(** The record of the file a push outside the window creates: revision
    1, created now. *)
Definition new_name (env : Env) (backup : CloudBackup) : string :=
  generateBackupFileName env (getBrowserInfo env) (countBookmarks (data backup)) 1.

Definition new_info (env : Env) (backup : CloudBackup) (now : Z) : BackupFileInfo :=
  {| fileName := with_gz (new_name env backup);
     filePath := with_gz (DIR +:+ "/" +:+ new_name env backup);
     createdAt := now;
     revisionNumber := 1 |}.

(** The record of the file that replaces [info] inside the window: the
    next revision, with the creation time of [info] when it has one. *)
Definition replace_info (env : Env) (backup : CloudBackup) (info : BackupFileInfo)
    (now : Z) : BackupFileInfo :=
  {| fileName :=
       with_gz (generateBackupFileName env (getBrowserInfo env)
                  (countBookmarks (data backup)) (revisionNumber info + 1));
     filePath := replace_path env backup info;
     createdAt := if createdAt info =? 0 then now else createdAt info;
     revisionNumber := revisionNumber info + 1 |}.

(** The world after a call of [saveLastBackupFileInfo]. *)
Definition after_save (env : Env) (saved : BackupFileInfo) (w : World) : World :=
  match saveLastBackupFileInfo env saved with
  | Ok _ => log (EvSaveLastBackupFileInfo saved true) (set_lastBackupFileInfo saved w)
  | Err _ => log (EvSaveLastBackupFileInfo saved false) w
  end.

(** How the upload stage ends once its file is stored: the cache of the
    backup list is cleared, then the sync state written. *)
Definition after_stored (env : Env) (config : WebDAVConfig) (now : Z) (w : World)
  : Completion SyncResult SyncResult * World :=
  match clearBackupListCache env with
  | Err e => (Thrown e, log (EvClearBackupListCache false) w)
  | Ok _ =>
      let w1 := log (EvClearBackupListCache true) w in
      match setSyncState env (upload_state config now) with
      | Ok _ =>
          (Returned result_uploaded,
           log (EvSetSyncState (upload_state config now) true)
             (set_syncState (upload_state config now) w1))
      | Err e => (Thrown e, log (EvSetSyncState (upload_state config now) false) w1)
      end
  end.

(** ** More sample surroundings *)

Definition backup_demo : CloudBackup :=
  {| metadata := Some {| md_timestamp := 9000; md_clientVersion := "1.0.0" |};
     data := tree_demo |}.

(** As [env_demo], with the listing of the cloud backups, the record of
    the last backup file, the archive, the clean-up and the server's
    statuses as given. *)
Definition env_case (latest : outcome (option string))
    (lastInfo : option BackupFileInfo) (backup : option CloudBackup)
    (clean : outcome unit) (status_of : Method -> Z) : Env :=
  {| onLine := true;
     fetch := fun req => Ok (response_of (status_of (req_method req)));
     JSON_parse := fun _ => Ok backup_demo;
     JSON_stringify := fun _ => "{}";
     getTree := Ok tree_demo;
     createSnapshot := Ok tt;
     getLatestBackupFile := latest;
     getFileWithDedup := fun _ => Ok (Some "{}");
     getLastSyncTime := fun _ => Ok 4000;
     compareWithCloud := fun _ _ => Ok true;
     getBrowserInfo := "edge";
     parseBackupFileName := fun _ => Some "edge";
     isSameBrowser := String.eqb;
     setSyncState := fun _ => Ok tt;
     createCloudBackup := Ok backup;
     getBackupFileInterval := Ok 1;
     getLastBackupFileInfo := Ok lastInfo;
     generateBackupFileName := fun browser count revision =>
       "bookmarks_20260127_143100_" +:+ browser +:+ "_" +:+ pretty count
       +:+ "_v" +:+ pretty revision +:+ ".json";
     compressText_answer := fun text => Ok ("H4sI" +:+ text);
     saveLastBackupFileInfo := fun _ => Ok tt;
     cleanOldBackups := clean;
     clearBackupListCache := Ok tt;
     parseMultistatus := fun _ _ => Ok [] |}.

(** A first push: nothing in the cloud, no record of a backup file. *)
Definition env_first_push : Env :=
  env_case (Ok None) None (Some backup_demo) (Ok tt) status_ok.

(** The listing of the cloud backups fails. *)
Definition env_listing_fails : Env :=
  env_case (Err "listing failed") None (Some backup_demo) (Ok tt) status_ok.

(** The clean-up of old backups fails. *)
Definition env_cleanup_fails : Env :=
  env_case (Ok None) None (Some backup_demo) (Err "cleanup failed") status_ok.

(** No archive can be made. *)
Definition env_no_archive : Env :=
  env_case (Ok None) None None (Ok tt) status_ok.

(** The backup directory is missing and cannot be made. *)
Definition env_no_directory : Env :=
  env_case (Ok None) None (Some backup_demo) (Ok tt)
    (fun method =>
       match method with
       | PROPFIND => 404
       | MKCOL => 403
       | _ => status_ok method
       end).

Definition info_demo : BackupFileInfo :=
  {| fileName := "bookmarks_20260127_143052_edge_1_v1.json.gz";
     filePath := "BookmarkSyncer/bookmarks_20260127_143052_edge_1_v1.json.gz";
     createdAt := 8000; revisionNumber := 1 |}.

(** A world whose first storage call is rejected. *)
Definition world_storage_down : World :=
  {| lockSlot := Some lock_new; activeLockId := None; clock := 9000;
     script := [{| elapsed := 0; interfere := None; rejects := true |}];
     randoms := []; syncState := None; lastBackupFileInfo := None; trace := [] |}.

(** ** What a text becomes on the way through the codecs *)

(** The text with every unpaired surrogate replaced by U+FFFD, as
    [TextEncoder] reads it. *)
Fixpoint scrub (text : list Z) : list Z :=
  match text with
  | [] => []
  | u :: rest =>
      if is_high_surrogate u then
        match rest with
        | v :: rest' =>
            if is_low_surrogate v then u :: v :: scrub rest'
            else 0xFFFD :: scrub rest
        | [] => [0xFFFD]
        end
      else if is_low_surrogate u then 0xFFFD :: scrub rest
      else u :: scrub rest
  end.

(** The text without its leading byte order mark, if it has one. *)
Definition drop_bom (text : list Z) : list Z :=
  match text with
  | u :: rest => if u =? 0xFEFF then rest else text
  | [] => []
  end.

(** A character [atob] takes in no position: neither of the Base64
    alphabet, nor the padding sign, nor ASCII whitespace. *)
Definition foreign_char (c : ascii) : bool :=
  negb (is_base64_char c) && negb (Ascii.eqb c pad) && negb (is_ascii_whitespace c).

Definition base64_error : string := "Base64 解码失败，数据可能已损坏".

(** ** [listFiles]: the entry made of one response element

    What the loop over the response elements does with the decoded
    href of an element that is not a collection (lines 357-385, and
    again in the fallback, lines 410-434).  [baseUrlPath] is the path
    of the configured url without its trailing slashes. *)

(** [s.substring(n)]. *)
Fixpoint substring_from (n : nat) (s : string) : string :=
  match n, s with
  | O, _ => s
  | S n', String _ r => substring_from n' r
  | S _, EmptyString => EmptyString
  end.

(** [s.replace(/^\/+/, "")]. *)
Fixpoint strip_leading_slashes (s : string) : string :=
  match s with
  | String c r => if Ascii.eqb c "/" then strip_leading_slashes r else s
  | EmptyString => EmptyString
  end.

(** [s.split("/").filter(Boolean).pop() || ""]: the last segment that
    is not empty; [current] is the segment being read, [last] the last
    one completed that was not empty. *)
Fixpoint last_segment_from (last current s : string) : string :=
  match s with
  | EmptyString => if truthy current then current else last
  | String c r =>
      if Ascii.eqb c "/" then
        last_segment_from (if truthy current then current else last) "" r
      else last_segment_from last (current +:+ String c "") r
  end.

Definition last_segment (s : string) : string := last_segment_from "" "" s.

(** Lines 357-366: the href relative to the base path, without leading
    slashes. *)
Definition relative_href (baseUrlPath decodedHref : string) : string :=
  let prefix := baseUrlPath +:+ "/" in
  let relative :=
    if startsWith decodedHref prefix then
      substring_from (String.length prefix) decodedHref
    else if String.eqb decodedHref baseUrlPath then ""
    else decodedHref in
  strip_leading_slashes relative.

(** Lines 368-385: the entry pushed on [files], none when the element
    is skipped. *)
Definition listed_entry (baseUrlPath decodedHref : string) (modified bytes : Z)
  : option WebDAVFile :=
  let relative := relative_href baseUrlPath decodedHref in
  let segment := last_segment relative in
  if negb (truthy segment) || negb (truthy relative) then None
  else Some {| name := segment; path := relative;
               lastModified := modified; size := bytes |}.

Fixpoint has_slash (s : string) : bool :=
  match s with
  | String c r => Ascii.eqb c "/" || has_slash r
  | EmptyString => false
  end.

(** What the loop makes of one [response] element: an entry pushed on
    [files], a [continue], or a [URIError] of [decodeURIComponent], by
    which the loop is left for the [catch] of line 387. *)
Inductive ElementOutcome : Type :=
| Listed (file : WebDAVFile)
| Skipped
| Aborted.

(** One turn of the loop (lines 342-385).  [href] is the trimmed text
    of the element's [href], none when the element has no such child;
    [isCollection] tells whether its [resourcetype] holds a
    [collection]; [decode] is [decodeURIComponent] followed by the
    attempt to take the [pathname] of the result, and is undefined where
    [decodeURIComponent] throws. *)
Definition listed_element (decode : string -> option string) (baseUrlPath : string)
    (href : option string) (isCollection : bool) (modified bytes : Z)
  : ElementOutcome :=
  if negb (truthy_opt href) then Skipped
  else if isCollection then Skipped
  else
    match decode (default "" href) with
    | None => Aborted
    | Some decodedHref =>
        match listed_entry baseUrlPath decodedHref modified bytes with
        | Some file => Listed file
        | None => Skipped
        end
    end.



(** * C3, C4, C5 and C8 as the specification words them *)

(** ** Stages of the upload *)

(** The backup directory is there or can be made (lines 193-196):
    [exists(DIR)] answers true, or [createDirectory(DIR)] resolves. *)
Definition directory_ready (env : Env) (config : WebDAVConfig) (w : World) : Prop :=
  fst (exec env (exists_ config DIR) w) = Ok true
  \/ fst (exec env (createDirectory config DIR) w) = Ok tt.

(** The world when lines 193-196 have passed: after the probe of the
    directory, and after the MKCOL when the probe has not found it. *)
Definition after_directory (env : Env) (config : WebDAVConfig) (w : World) : World :=
  match exec env (exists_ config DIR) w with
  | (Ok true, w1) => w1
  | (_, w1) => snd (exec env (createDirectory config DIR) w1)
  end.

(** Events that leave the idealised store as it is: those that are no
    remote write, and MKCOL requests. *)
Definition inert (e : Event) : Prop := forall files, apply_event files e = files.

(** The events of lines 193-196: no remote write but the MKCOL of the
    backup directory. *)
Definition directory_event (env : Env) (config : WebDAVConfig) (e : Event) : Prop :=
  remote_write e = false
  \/ e = EvFetch (request config MKCOL DIR None None)
           (fetch env (request config MKCOL DIR None None)).

(** The run of [smartPush] from [w] takes the replace branch of line
    219, in the world [w3]: it has got to the upload stage, the archive
    [backup] is valid, the directory is ready, and the record [info] of
    the last backup file is inside its window.  The record names a file
    and the archive compresses to [content], so that both [putFile] and
    [deleteFile] are reached. *)
Definition replace_branch_taken (env : Env) (config : WebDAVConfig)
    (lockHolder : string) (skipLock : bool) (w w3 : World)
    (backup : CloudBackup) (info : BackupFileInfo) (content : string) : Prop :=
  reaches_upload env config lockHolder skipLock w w3
  /\ createCloudBackup env = Ok (Some backup)
  /\ is_Some (metadata backup) /\ data backup <> []
  /\ directory_ready env config w3
  /\ (exists minutes,
        getBackupFileInterval env = Ok minutes
        /\ clock w3 - createdAt info < minutes * 60 * 1000)
  /\ getLastBackupFileInfo env = Ok (Some info)
  /\ filePath info <> ""
  /\ compressText_answer env (JSON_stringify env backup) = Ok content.

(** [fileName] is what follows the last slash of [path], the whole of
    it when it has none. *)
Definition file_name_of (path fileName : string) : Prop :=
  has_slash fileName = false
  /\ (path = fileName \/ exists directory, path = directory +:+ "/" +:+ fileName).

(** ** C3, C4 and C5 as they are worded *)

(** C3, its last clause: whenever the replace branch is taken, on a
    server that holds the recorded file some backup file is there after
    each call of the run. *)
Definition replace_keeps_a_backup : Prop :=
  forall env config lockHolder skipLock w w3 backup info content
         (files : gset string) events,
    replace_branch_taken env config lockHolder skipLock w w3 backup info content ->
    normalizeUrl config (filePath info) ∈ files ->
    (trace w ++ events)%list
      `prefix_of` trace (snd (exec env (smartPush config lockHolder skipLock) w)) ->
    remote_after files events <> ∅.

(** C4: a cloud backup newer than the last sync blocks the push of a
    holder other than ["manual"], and nothing is written. *)
Definition newer_cloud_blocks_automatic_push : Prop :=
  forall env config lockHolder skipLock w w1 tree latestPath cloudJson cloudData
         lastSyncTime,
    onLine env = true ->
    lock_taken env lockHolder skipLock w w1 ->
    getTree env = Ok tree -> countBookmarks tree <> 0 ->
    getLatestBackupFile env = Ok (Some latestPath) -> latestPath <> "" ->
    getFileWithDedup env latestPath = Ok (Some cloudJson) -> cloudJson <> "" ->
    JSON_parse env cloudJson = Ok cloudData ->
    getLastSyncTime env (cfg_url config) = Ok lastSyncTime ->
    cloudTime_of cloudData > lastSyncTime ->
    lockHolder <> "manual" ->
    fst (exec env (smartPush config lockHolder skipLock) w) = Ok result_cloud_newer
    /\ no_remote_write w (snd (exec env (smartPush config lockHolder skipLock) w)).

(** C5, its first half: content identical to the latest cloud backup is
    not uploaded, unless the push is manual and from the same browser. *)
Definition identical_content_is_skipped : Prop :=
  forall env config lockHolder skipLock w w1 tree latestPath fileName cloudJson
         cloudData,
    onLine env = true ->
    lock_taken env lockHolder skipLock w w1 ->
    getTree env = Ok tree -> countBookmarks tree <> 0 ->
    getLatestBackupFile env = Ok (Some latestPath) -> latestPath <> "" ->
    file_name_of latestPath fileName ->
    getFileWithDedup env latestPath = Ok (Some cloudJson) -> cloudJson <> "" ->
    JSON_parse env cloudJson = Ok cloudData ->
    compareWithCloud env tree cloudData = Ok true ->
    String.eqb lockHolder "manual"
    && isSameBrowser env (getBrowserInfo env)
         (default "" (parseBackupFileName env fileName)) = false ->
    fst (exec env (smartPush config lockHolder skipLock) w) = Ok result_skipped
    /\ no_remote_write w (snd (exec env (smartPush config lockHolder skipLock) w)).

(** ** Surroundings and schedules that refute them *)

(** [base], with another parser of the cloud backup, another
    [setSyncState] and another record of the last backup file. *)
Definition env_with (base : Env) (parse : string -> result CloudBackup)
    (setState : SyncState -> outcome unit)
    (lastInfo : outcome (option BackupFileInfo)) : Env :=
  {| onLine := onLine base;
     fetch := fetch base;
     JSON_parse := parse;
     JSON_stringify := JSON_stringify base;
     getTree := getTree base;
     createSnapshot := createSnapshot base;
     getLatestBackupFile := getLatestBackupFile base;
     getFileWithDedup := getFileWithDedup base;
     getLastSyncTime := getLastSyncTime base;
     compareWithCloud := compareWithCloud base;
     getBrowserInfo := getBrowserInfo base;
     parseBackupFileName := parseBackupFileName base;
     isSameBrowser := isSameBrowser base;
     setSyncState := setState;
     createCloudBackup := createCloudBackup base;
     getBackupFileInterval := getBackupFileInterval base;
     getLastBackupFileInfo := lastInfo;
     generateBackupFileName := generateBackupFileName base;
     compressText_answer := compressText_answer base;
     saveLastBackupFileInfo := saveLastBackupFileInfo base;
     cleanOldBackups := cleanOldBackups base;
     clearBackupListCache := clearBackupListCache base;
     parseMultistatus := parseMultistatus base |}.

(** The cloud backup carries a timestamp one millisecond past the last
    time value, which [toISOString] does not print. *)
Definition backup_far_future : CloudBackup :=
  {| metadata := Some {| md_timestamp := 8640000000000001;
                         md_clientVersion := "1.0.0" |};
     data := tree_demo |}.

Definition env_far_future : Env :=
  env_with env_demo (fun _ => Ok backup_far_future) (setSyncState env_demo)
    (getLastBackupFileInfo env_demo).

(** The last sync time read is not a time value, the cloud backup is as
    in [env_demo]. *)
Definition env_last_sync_unprintable : Env :=
  env_sample tree_demo (-8640000000000001) status_ok.

(** The cloud has been pulled, and the sync state cannot be persisted. *)
Definition env_state_unwritable : Env :=
  env_with env_synced (JSON_parse env_synced)
    (fun _ => Err (WithMessage "QUOTA_BYTES quota exceeded"))
    (getLastBackupFileInfo env_synced).

(** The record of the last backup file names the very path the next
    revision is written to. *)
Definition info_same_path : BackupFileInfo :=
  {| fileName := "bookmarks_20260127_143100_edge_1_v2.json.gz";
     filePath := "BookmarkSyncer/bookmarks_20260127_143100_edge_1_v2.json.gz";
     createdAt := 8000; revisionNumber := 1 |}.

Definition env_same_path : Env :=
  env_with env_demo (JSON_parse env_demo) (setSyncState env_demo)
    (Ok (Some info_same_path)).

(** Both calls read the empty slot, then each generates its id and
    writes its lock, the first before the second. *)
Definition both_write : list bool :=
  [true; false; true; true; true; true; false; false; false; false].

(** Then each waits, reads the slot back and returns. *)
Definition both_reread : list bool := [true; true; true; false; false; false].

(** A world in which [Math.random] gives the same text twice. *)
Definition world_twins : World :=
  {| lockSlot := None; activeLockId := None; clock := 9000; script := [];
     randoms := ["k3x9"; "k3x9"]; syncState := None; lastBackupFileInfo := None;
     trace := [] |}.
(** * Properties *)

(** ** Sanity checks of the string helpers *)

Example endsWith_gz : endsWith "b_v1.json.gz" ".gz" = true.
Proof. reflexivity. Qed.

Example endsWith_json : endsWith "b_v1.json" ".gz" = false.
Proof. reflexivity. Qed.

Example split_pop_path :
  split_pop "BookmarkSyncer/bookmarks_20260127_143052_edge_157_v1.json.gz"
  = "bookmarks_20260127_143052_edge_157_v1.json.gz".
Proof. reflexivity. Qed.

Example msg_utf8 : String.length "云端" = 6%nat.
Proof. reflexivity. Qed.

(** ** The world across a suspension *)

Arguments resume : simpl never.
Arguments next_await : simpl never.

Lemma resume_activeLockId ms w : activeLockId (resume ms w) = activeLockId w.
Proof. reflexivity. Qed.

Lemma resume_trace ms w : trace (resume ms w) = trace w.
Proof. reflexivity. Qed.

Lemma resume_randoms ms w : randoms (resume ms w) = randoms w.
Proof. reflexivity. Qed.

Lemma resume_script ms w : script (resume ms w) = tail (script w).
Proof. reflexivity. Qed.

Lemma calm_next w : calm w -> interfere (next_await w) = None /\ rejects (next_await w) = false.
Proof.
  unfold calm, next_await. destruct (script w) as [|a rest]; intros H.
  - split; reflexivity.
  - inversion H; subst. assumption.
Qed.

Lemma calm_resume ms w : calm w -> calm (resume ms w).
Proof.
  unfold calm. rewrite resume_script. destruct (script w) as [|a rest]; intros H.
  - constructor.
  - inversion H; subst. assumption.
Qed.

Lemma calm_lockSlot ms w : calm w -> lockSlot (resume ms w) = lockSlot w.
Proof.
  intros H. destruct (calm_next w H) as [Hi _].
  unfold resume. cbn. rewrite Hi. reflexivity.
Qed.

Lemma undisturbed_next w : undisturbed w -> interfere (next_await w) = None.
Proof.
  unfold undisturbed, next_await. destruct (script w) as [|a rest]; intros H.
  - reflexivity.
  - inversion H; subst. assumption.
Qed.

Lemma undisturbed_resume ms w : undisturbed w -> undisturbed (resume ms w).
Proof.
  unfold undisturbed. rewrite resume_script. destruct (script w) as [|a rest]; intros H.
  - constructor.
  - inversion H; subst. assumption.
Qed.

Lemma undisturbed_lockSlot ms w : undisturbed w -> lockSlot (resume ms w) = lockSlot w.
Proof.
  intros H. unfold resume. cbn. rewrite (undisturbed_next w H). reflexivity.
Qed.

Lemma calm_script w w2 : script w2 = script w -> calm w -> calm w2.
Proof. unfold calm. intros ->. trivial. Qed.

Lemma undisturbed_script w w2 : script w2 = script w -> undisturbed w -> undisturbed w2.
Proof. unfold undisturbed. intros ->. trivial. Qed.

Ltac calm_tac :=
  first
    [ assumption
    | apply calm_resume; calm_tac
    | eapply calm_script; [reflexivity | calm_tac] ].

(** Answer the next storage call or timer of a calm world. *)
Ltac calm_step :=
  match goal with
  | |- context [rejects (next_await ?W)] =>
      let H := fresh "Hcalm" in
      assert (H : calm W) by calm_tac;
      rewrite (proj2 (calm_next W H)); clear H; cbn
  | |- context [lockSlot (resume ?ms ?W)] =>
      let H := fresh "Hcalm" in
      assert (H : calm W) by calm_tac;
      rewrite (calm_lockSlot ms W H); clear H; cbn
  end.

(** ** Running composed programs *)

Lemma run_bind env {R A B} (p : Prog R A) (f : A -> Prog R B) w :
  run env (bind p f) w =
  match run env p w with
  | (Normal a, w1) => run env (f a) w1
  | (Returned r, w1) => (Returned r, w1)
  | (Thrown e, w1) => (Thrown e, w1)
  end.
Proof.
  revert w. induction p as [a|r|e|X c k IH]; intros w; cbn; try reflexivity.
  destruct (handle env c w) as [x w1]. apply IH.
Qed.

Lemma run_try_catch env {R A} (p : Prog R A) (h : Raised -> Prog R A) w :
  run env (try_catch p h) w =
  match run env p w with
  | (Thrown e, w1) => run env (h e) w1
  | other => other
  end.
Proof.
  revert w. induction p as [a|r|e|X c k IH]; intros w; cbn; try reflexivity.
  destruct (handle env c w) as [x w1]. apply IH.
Qed.

Lemma run_try_finally env {R A} (p : Prog R A) (f : Prog R unit) w :
  run env (try_finally p f) w =
  match run env p w with
  | (Normal a, w1) => run env (bind f (fun _ => Pure a)) w1
  | (Returned r, w1) => run env (bind f (fun _ => Return r)) w1
  | (Thrown e, w1) => run env (bind f (fun _ => Throw e)) w1
  end.
Proof.
  revert w. induction p as [a|r|e|X c k IH]; intros w; cbn; try reflexivity.
  destruct (handle env c w) as [x w1]. apply IH.
Qed.

Lemma run_call env {R A} (p : Prog A A) w :
  run env (call (R := R) p) w =
  match exec env p w with
  | (Ok a, w1) => (Normal a, w1)
  | (Err e, w1) => (Thrown e, w1)
  end.
Proof.
  unfold exec. revert w. induction p as [a|r|e|X c k IH]; intros w; cbn; try reflexivity.
  destruct (handle env c w) as [x w1]. apply IH.
Qed.

Lemma run_perform env {R X} (c : Cmd X) w :
  run env (perform (R := R) c) w =
  match handle env c w with
  | (Ok x, w1) => (Normal x, w1)
  | (Err e, w1) => (Thrown e, w1)
  end.
Proof.
  cbn. destruct (handle env c w) as [[x|e] w1]; reflexivity.
Qed.

(** ** The sync lock *)

Lemma truthy_nonempty a : a <> "" -> truthy a = true.
Proof.
  intros H. unfold truthy. destruct (String.eqb_spec a ""); [contradiction | reflexivity].
Qed.

Lemma make_lockId_nonempty who now rnd : make_lockId who now rnd <> "".
Proof. unfold make_lockId. destruct who; discriminate. Qed.

Lemma lockId_mismatch_spec active l :
  lockId_mismatch active l = false ->
  truthy_opt active = false \/ active = Some (lockId l).
Proof.
  destruct active as [a|]; cbn; [|auto].
  destruct (truthy a); cbn; [|auto].
  destruct (String.eqb_spec (lockId l) a); [subst; auto | discriminate].
Qed.

Ltac no_write :=
  match goal with
  | H : trace _ <> trace _ |- _ => exfalso; apply H; reflexivity
  end.

Ltac settle := repeat split; intros; try assumption; try reflexivity; try congruence; try no_write.

(** C1.  [release(holder)] never removes a lock it has no claim on.  With
    [stored] the record in the lock slot when the read is answered: if
    the instance remembers a lock id that differs from the stored one,
    the record stays and no storage write is made; the same when the
    stored holder differs from the caller; nothing happens to an empty
    slot.  A storage write (the removal) is made only when the holder
    matches and the remembered id is absent or equal to the stored one. *)
Theorem release_leaves_foreign_lock (env : Env) (who : string) (w : World) :
  manager_wf w ->
  let stored := lockSlot (resume 0 w) in
  let w' := snd (exec env (release who) w) in
  (forall l a, stored = Some l -> activeLockId w = Some a -> a <> lockId l ->
     lockSlot w' = Some l /\ trace w' = trace w)
  /\ (forall l, stored = Some l -> holder l <> who ->
     lockSlot w' = Some l /\ trace w' = trace w)
  /\ (stored = None -> lockSlot w' = None /\ trace w' = trace w)
  /\ (trace w' <> trace w ->
     exists l, stored = Some l /\ holder l = who /\
       (activeLockId w = None \/ activeLockId w = Some (lockId l))).
Proof.
  intros Hwf stored w'. subst stored w'.
  unfold exec, release. cbn.
  destruct (rejects (next_await w)) eqn:Hr; cbn.
  { settle. }
  destruct (lockSlot (resume 0 w)) as [l|] eqn:Hl; cbn.
  2:{ settle. }
  destruct (String.eqb_spec (holder l) who) as [Hh|Hh]; cbn.
  2:{ settle. }
  rewrite resume_activeLockId.
  destruct (lockId_mismatch (activeLockId w) l) eqn:Hm; cbn.
  { settle. }
  apply lockId_mismatch_spec in Hm.
  assert (Hact : activeLockId w = None \/ activeLockId w = Some (lockId l)).
  { destruct Hm as [Hm|Hm]; [|auto]. left.
    destruct (activeLockId w) as [a|] eqn:Ha; [|reflexivity].
    cbn in Hm. unfold truthy in Hm.
    destruct (String.eqb_spec a ""); [subst; contradiction | discriminate]. }
  settle.
  - exfalso. destruct Hact; congruence.
  - exfalso. destruct Hact; congruence.
  - exists l. auto.
Qed.

(** C10.  When [release(holder)] refuses on a lock-id mismatch it still
    forgets the remembered id and leaves the stored record in place; the
    next [release(holder)] of the same instance, with nothing in
    between, then checks the holder only and removes that record, which
    is not the one the instance had acquired. *)
Theorem release_twice_drops_newer_lock (env : Env) (who : string) (w : World)
    (l : SyncLock) (a : string) :
  rejects (next_await w) = false ->
  lockSlot (resume 0 w) = Some l ->
  holder l = who ->
  activeLockId w = Some a -> a <> "" -> a <> lockId l ->
  let w1 := snd (exec env (release who) w) in
  let w2 := snd (exec env (release who) w1) in
  (activeLockId w1 = None /\ lockSlot w1 = Some l /\ trace w1 = trace w)
  /\ (calm w1 -> lockSlot w2 = None /\ trace w2 = (trace w ++ [EvStorageRemove])%list).
Proof.
  intros Hr Hl Hh Ha Hne Hid w1 w2.
  assert (E1 : w1 = set_activeLockId None (resume 0 w)).
  { subst w1. unfold exec, release. cbn. rewrite Hr. cbn. rewrite Hl. cbn.
    destruct (String.eqb_spec (holder l) who); [|contradiction]. cbn.
    rewrite resume_activeLockId, Ha. cbn. rewrite (truthy_nonempty a Hne).
    destruct (String.eqb_spec (lockId l) a); [congruence|]. reflexivity. }
  split.
  - rewrite E1. cbn. auto.
  - intros Hcalm. subst w2.
    destruct (calm_next w1 Hcalm) as [Hi Hj].
    pose proof (calm_lockSlot 0 w1 Hcalm) as Hs.
    assert (Hs1 : lockSlot w1 = Some l) by (rewrite E1; exact Hl).
    assert (Ht1 : trace w1 = trace w) by (rewrite E1; reflexivity).
    assert (Ha1 : activeLockId w1 = None) by (rewrite E1; reflexivity).
    unfold exec, release. cbn. rewrite Hj. cbn. rewrite Hs, Hs1. cbn.
    destruct (String.eqb_spec (holder l) who); [|contradiction]. cbn.
    rewrite resume_activeLockId, Ha1. cbn.
    destruct (calm_next _ (calm_resume 0 w1 Hcalm)) as [_ Hj2]. rewrite Hj2. cbn.
    rewrite !resume_trace, Ht1. auto.
Qed.

(** C2.  With [l] the lock record the read finds and its age measured
    as the code does (the clock when the read is answered minus the
    record's timestamp): below the timeout [acquire] returns false and
    the world is the one the read left, the record not overwritten; at
    or above it [acquire] goes on to write a lock of its own, and when
    no other context interferes it returns true and holds that lock,
    although the old one was never released. *)
Theorem acquire_timeout (env : Env) (who : string) (w : World) (l : SyncLock) :
  rejects (next_await w) = false ->
  lockSlot (resume 0 w) = Some l ->
  let w1 := resume 0 w in
  let age := clock w1 - timestamp l in
  let newLock := {| holder := who; timestamp := clock w1;
                    lockId := make_lockId who (clock w1) (next_random w) |} in
  let w' := snd (exec env (acquire who) w) in
  (age < LOCK_TIMEOUT_MS -> exec env (acquire who) w = (Ok false, w1))
  /\ (LOCK_TIMEOUT_MS <= age -> calm w1 ->
      fst (exec env (acquire who) w) = Ok true
      /\ lockSlot w' = Some newLock
      /\ activeLockId w' = Some (lockId newLock)
      /\ trace w' = (trace w ++ [EvStorageSet newLock])%list).
Proof.
  intros Hr Hl w1 age newLock w'. subst w' age w1. split.
  - intros Hage. unfold exec, acquire. cbn. rewrite Hr. cbn. rewrite Hl. cbn.
    destruct (Z.ltb_spec (clock (resume 0 w) - timestamp l) LOCK_TIMEOUT_MS); [|lia].
    reflexivity.
  - intros Hage Hcalm. unfold exec, acquire. cbn. rewrite Hr. cbn. rewrite Hl. cbn.
    destruct (Z.ltb_spec (clock (resume 0 w) - timestamp l) LOCK_TIMEOUT_MS); [lia|].
    cbn. calm_step. calm_step. calm_step. calm_step.
    rewrite String.eqb_refl. cbn.
    repeat split; try reflexivity.
    repeat calm_step. reflexivity.
Qed.
(** A call of [acquire] that finds the slot empty and whose write is
    accepted has, five commands on, written a lock with the id it has
    just made and is in its settle phase with that id. *)
Lemma acquire_reaches_settling env who q w :
  rejects (next_await w) = false ->
  lockSlot (resume 0 w) = None ->
  rejects (next_await (resume 0 w)) = false ->
  let lid := make_lockId who (clock (resume 0 w)) (next_random w) in
  let newLock := {| holder := who; timestamp := clock (resume 0 w); lockId := lid |} in
  exists w',
    interleave env [true; true; true; true; true] (acquire who) q w
    = (settling lid, q, w')
    /\ trace w' = (trace w ++ [EvStorageSet newLock])%list.
Proof.
  intros Hr Hs Hr' lid newLock. subst lid newLock. cbn.
  rewrite Hr. cbn. rewrite Hs. cbn.
  change (next_await (drop_random (resume 0 w))) with (next_await (resume 0 w)).
  rewrite Hr'. cbn.
  eexists. split; reflexivity.
Qed.

Lemma interleave_app env (s1 s2 : list bool) : forall p q w,
  interleave env (s1 ++ s2) p q w
  = let '(p1, q1, w1) := interleave env s1 p q w in interleave env s2 p1 q1 w1.
Proof.
  induction s1 as [|[|] s1 IH]; intros p q w; cbn; [reflexivity| |].
  - destruct (step env p w) as [p1 w1]. apply IH.
  - destruct (step env q w) as [q1 w1]. apply IH.
Qed.

Lemma settle_state_step env lid w p :
  undisturbed w -> settle_state lid (lockSlot w) p ->
  lockSlot (snd (step env p w)) = lockSlot w
  /\ undisturbed (snd (step env p w))
  /\ settle_state lid (lockSlot w) (fst (step env p w)).
Proof.
  intros Hu Hst. destruct Hst as [| |Hs|Hs|]; cbn.
  - split; [apply undisturbed_lockSlot; assumption|].
    split; [apply undisturbed_resume; assumption|]. apply st_rereading.
  - destruct (rejects (next_await w)); cbn.
    + split; [apply undisturbed_lockSlot; assumption|].
      split; [apply undisturbed_resume; assumption|]. apply st_false.
    + split; [apply undisturbed_lockSlot; assumption|].
      split; [apply undisturbed_resume; assumption|].
      rewrite (undisturbed_lockSlot 0 w Hu).
      destruct (same_lockId (lockSlot w) lid) eqn:E.
      * apply st_confirming. assumption.
      * apply st_false.
  - split; [reflexivity|]. split; [assumption|]. apply st_true. assumption.
  - split; [reflexivity|]. split; [assumption|]. apply st_true. assumption.
  - split; [reflexivity|]. split; [assumption|]. apply st_false.
Qed.

Lemma settle_states_interleave env schedule lidA lidB : forall p q w,
  undisturbed w ->
  settle_state lidA (lockSlot w) p -> settle_state lidB (lockSlot w) q ->
  let '(p', q', w') := interleave env schedule p q w in
  settle_state lidA (lockSlot w') p' /\ settle_state lidB (lockSlot w') q'.
Proof.
  induction schedule as [|[|] rest IH]; intros p q w Hu Hp Hq; cbn.
  - auto.
  - destruct (settle_state_step env lidA w p Hu Hp) as (Hs & Hu' & Hp').
    destruct (step env p w) as [p1 w1]. cbn in *.
    apply IH; [assumption | rewrite Hs; assumption | rewrite Hs; assumption].
  - destruct (settle_state_step env lidB w q Hu Hq) as (Hs & Hu' & Hq').
    destruct (step env q w) as [q1 w1]. cbn in *.
    apply IH; [assumption | rewrite Hs; assumption | rewrite Hs; assumption].
Qed.

Lemma settle_state_true lid slot :
  settle_state lid slot (Return true) -> same_lockId slot lid = true.
Proof.
  intros H. inversion H; try assumption; try discriminate.
Qed.

(** Two ids of one holder made in the same millisecond differ as soon
    as their random parts do. *)
Lemma make_lockId_random who now rnd1 rnd2 :
  make_lockId who now rnd1 = make_lockId who now rnd2 -> rnd1 = rnd2.
Proof.
  unfold make_lockId.
  assert (Hinj : forall a b c : string, a +:+ b = a +:+ c -> b = c).
  { induction a as [|x a IH]; intros b c H; [exact H|].
    injection H as H. apply IH. exact H. }
  intros H. do 4 apply Hinj in H. exact H.
Qed.

(** C8, as amended.  A call of [acquire] returns true only if the lock
    it reads back after the settle delay carries the lock id it has just
    generated and written, whatever other contexts did in between: a
    caller whose id has been overwritten by then returns false.  And
    when two calls of [acquire] in flight have both written their locks
    before either reads the slot back, and the two lock ids differ, they
    never both return true, however they take turns from then on. *)
Theorem acquire_true_only_if_reread_matches (env : Env) :
  (forall who w,
     fst (exec env (acquire who) w) = Ok true ->
     let w' := snd (exec env (acquire who) w) in
     exists newLock v,
       holder newLock = who
       /\ trace w' = (trace w ++ [EvStorageSet newLock])%list
       /\ lockSlot w' = Some v /\ lockId v = lockId newLock
       /\ activeLockId w' = Some (lockId newLock))
  /\ (forall written rest whoA whoB w lidA lidB p q w1,
       interleave env written (acquire whoA) (acquire whoB) w = (p, q, w1) ->
       written_not_reread lidA p -> written_not_reread lidB q ->
       lidA <> lidB -> undisturbed w1 ->
       let '(p', q', _) :=
         interleave env (written ++ rest) (acquire whoA) (acquire whoB) w in
       ~ (returned p' = Some true /\ returned q' = Some true)).
Proof.
  split.
  - intros who w. unfold exec, acquire. cbn.
    destruct (rejects (next_await w)); cbn; [discriminate|].
    destruct (lockSlot (resume 0 w)) as [l|] eqn:Hl; cbn;
      [destruct (clock (resume 0 w) - timestamp l <? LOCK_TIMEOUT_MS); cbn;
         [discriminate|] |];
      repeat (match goal with
              | |- context [rejects (next_await ?W)] =>
                  destruct (rejects (next_await W)) eqn:?; cbn
              end); try discriminate;
      (match goal with
       | |- context [same_lockId (lockSlot ?W) ?L] =>
           destruct (lockSlot W) as [v|] eqn:Hv; cbn; [|discriminate];
           destruct (String.eqb_spec (lockId v) L) as [He|He]; cbn; [|discriminate]
       end);
      intros _;
      eexists {| holder := who; timestamp := _; lockId := _ |}, v; cbn;
      rewrite Hv; repeat split; try reflexivity; try exact He.
  - intros written rest whoA whoB w lidA lidB p q w1 Hreach Hp Hq Hne Hu.
    rewrite interleave_app, Hreach.
    pose proof (settle_states_interleave env rest lidA lidB p q w1 Hu) as H.
    destruct (interleave env rest p q w1) as [[p' q'] w'].
    intros [Ha Hb].
    destruct p' as [| [|] | |]; try discriminate.
    destruct q' as [| [|] | |]; try discriminate.
    destruct H as [HA HB].
    + destruct Hp as [-> | ->]; constructor.
    + destruct Hq as [-> | ->]; constructor.
    + apply settle_state_true in HA, HB.
      destruct (lockSlot w') as [v|]; cbn in *; [|discriminate].
      apply String.eqb_eq in HA, HB. congruence.
Qed.

(** C8, as stated, fails: under [racing_schedule] both calls return
    true. *)
Lemma two_acquires_can_both_succeed : ~ at_most_one_acquires.
Proof.
  intros H.
  specialize (H env_demo racing_schedule "auto-sync" "manual" world_unlocked).
  vm_compute in H. apply H. split; reflexivity.
Qed.

(** The two ids have to differ: two calls for one holder that start in
    the same millisecond and draw the same random text make one id, and
    then both return true although both have written before either
    read the slot back. *)
Lemma racing_twins_both_succeed :
  let '(p, q, _) :=
    interleave env_demo (both_write ++ both_reread)
      (acquire "auto-sync") (acquire "auto-sync") world_twins in
  returned p = Some true /\ returned q = Some true.
Proof. vm_compute. split; reflexivity. Qed.

Lemma acquire_keeps_wf env who w :
  manager_wf w -> manager_wf (snd (exec env (acquire who) w)).
Proof.
  unfold manager_wf, exec, acquire. intros Hwf. cbn.
  destruct (rejects (next_await w)) eqn:?; cbn; [assumption|].
  destruct (lockSlot (resume 0 w)) as [l|] eqn:Hl; cbn;
    [destruct (clock (resume 0 w) - timestamp l <? LOCK_TIMEOUT_MS); cbn;
       [assumption|] |];
    repeat (match goal with
            | |- context [rejects (next_await ?W)] =>
                destruct (rejects (next_await W)) eqn:?; cbn
            end); try assumption;
    (match goal with
     | |- context [same_lockId ?S ?L] => destruct (same_lockId S L); cbn
     end); try assumption;
    intros [= E]; exact (make_lockId_nonempty _ _ _ E).
Qed.

Lemma release_keeps_wf env who w :
  manager_wf w -> manager_wf (snd (exec env (release who) w)).
Proof.
  unfold manager_wf, exec, release. intros Hwf. cbn.
  destruct (rejects (next_await w)) eqn:?; cbn; [discriminate|].
  destruct (lockSlot (resume 0 w)) as [l|] eqn:Hl; cbn; [|discriminate].
  destruct (String.eqb (holder l) who); cbn; [|assumption].
  destruct (lockId_mismatch (activeLockId (resume 0 w)) l); cbn; [discriminate|].
  destruct (rejects (next_await (resume 0 w))); cbn; discriminate.
Qed.
(** ** Directory listing *)

(** C6, on the code as it is.  [listFiles] never rejects: its [throw]
    for 401 and 403 sits inside the [try] whose [catch] returns the
    empty list, so an authentication failure is answered with [[]], the
    same as 404 and the other failing statuses. *)
Theorem listFiles_swallows_auth_error (env : Env) (config : WebDAVConfig)
    (dirPath : string) (w : World) (response : Response) :
  fetch env (request config PROPFIND dirPath (Some "1") None) = Ok response ->
  (status response = 401 \/ status response = 403 \/ status response = 404
   \/ (ok response = false /\ status response <> 207)) ->
  fst (exec env (listFiles config dirPath) w) = Ok [].
Proof.
  intros Hf Hs. unfold exec, listFiles. cbn. rewrite Hf. cbn.
  destruct Hs as [H | [H | [H | [Hok H]]]].
  - rewrite H. reflexivity.
  - rewrite H. reflexivity.
  - rewrite H. reflexivity.
  - destruct (status response =? 401) eqn:E1; cbn; [reflexivity|].
    destruct (status response =? 403) eqn:E2; cbn; [reflexivity|].
    destruct (status response =? 404) eqn:E3; cbn; [reflexivity|].
    rewrite Hok. cbn.
    destruct (Z.eqb_spec (status response) 207); [contradiction|]. reflexivity.
Qed.

Lemma listFiles_never_rejects env config dirPath w :
  exists files, fst (exec env (listFiles config dirPath) w) = Ok files.
Proof.
  unfold exec, listFiles. cbn.
  destruct (fetch env _) as [response|e]; cbn; [|eauto].
  destruct ((status response =? 401) || (status response =? 403)); cbn; [eauto|].
  destruct (status response =? 404); cbn; [eauto|].
  destruct (negb (ok response) && negb (status response =? 207)); cbn; [eauto|].
  destruct (parseMultistatus env _ _); cbn; eauto.
Qed.

(** ** The push strategy *)

Lemma release_total env who w : fst (exec env (release who) w) = Ok tt.
Proof.
  unfold exec, release. cbn.
  destruct (rejects (next_await w)); cbn; [reflexivity|].
  destruct (lockSlot (resume 0 w)) as [l|]; cbn; [|reflexivity].
  destruct (String.eqb (holder l) who); cbn; [|reflexivity].
  destruct (lockId_mismatch (activeLockId (resume 0 w)) l); cbn; [reflexivity|].
  destruct (rejects (next_await (resume 0 w))); cbn; reflexivity.
Qed.

Lemma releaseSyncLock_total env who w :
  fst (exec env (releaseSyncLock who) w) = Ok tt.
Proof. apply release_total. Qed.

Section PushSkeleton.
Local Opaque acquireSyncLock releaseSyncLock pushBody.

Lemma smartPush_runs_body env config lockHolder skipLock w w1 :
  onLine env = true ->
  lock_taken env lockHolder skipLock w w1 ->
  exec env (smartPush config lockHolder skipLock) w
  = finish env lockHolder skipLock (run env (pushBody config lockHolder) w1).
Proof.
  intros Hon Hlock. unfold smartPush, lock_taken, finish, after_finally in *.
  unfold exec at 1. cbn. rewrite Hon. cbn. destruct skipLock; cbn.
  - subst w1. rewrite run_try_finally.
    destruct (run env (pushBody config lockHolder) w) as [[r|r|e] wb]; reflexivity.
  - rewrite run_bind, run_bind, run_call, Hlock. cbn.
    rewrite run_try_finally.
    destruct (run env (pushBody config lockHolder) w1) as [[r|r|e] wb];
      rewrite run_bind, run_call;
      pose proof (releaseSyncLock_total env lockHolder wb) as Hrel;
      destruct (exec env (releaseSyncLock lockHolder) wb) as [[[]|e'] w']; cbn in *;
      try discriminate; reflexivity.
Qed.
End PushSkeleton.

Lemma no_remote_write_refl w : no_remote_write w w.
Proof. exists []. split; [symmetry; apply app_nil_r | constructor]. Qed.

Lemma no_remote_write_trans w1 w2 w3 :
  no_remote_write w1 w2 -> no_remote_write w2 w3 -> no_remote_write w1 w3.
Proof.
  intros (e1 & H1 & F1) (e2 & H2 & F2). exists (e1 ++ e2)%list. split.
  - rewrite H2, H1. symmetry. apply app_assoc.
  - apply Forall_app. split; assumption.
Qed.

Lemma no_remote_write_same w w' : trace w' = trace w -> no_remote_write w w'.
Proof. intros H. exists []. split; [rewrite H; symmetry; apply app_nil_r | constructor]. Qed.

Lemma no_remote_write_log e w w' :
  remote_write e = false -> trace w' = (trace w ++ [e])%list -> no_remote_write w w'.
Proof. intros He H. exists [e]. split; [assumption | repeat constructor; assumption]. Qed.

Lemma acquire_no_remote_write env who w :
  no_remote_write w (snd (exec env (acquire who) w)).
Proof.
  unfold exec, acquire. cbn.
  destruct (rejects (next_await w)) eqn:?; cbn; [apply no_remote_write_same; reflexivity|].
  destruct (lockSlot (resume 0 w)) as [l|] eqn:Hl; cbn;
    [destruct (clock (resume 0 w) - timestamp l <? LOCK_TIMEOUT_MS); cbn;
       [apply no_remote_write_same; reflexivity|] |];
    repeat (match goal with
            | |- context [rejects (next_await ?W)] =>
                destruct (rejects (next_await W)) eqn:?; cbn
            end);
    try (match goal with
     | |- context [same_lockId ?S ?L] => destruct (same_lockId S L); cbn
     end);
    first [ apply no_remote_write_same; reflexivity
          | eapply no_remote_write_log; [|reflexivity]; reflexivity ].
Qed.

Lemma release_no_remote_write env who w :
  no_remote_write w (snd (exec env (release who) w)).
Proof.
  unfold exec, release. cbn.
  destruct (rejects (next_await w)); cbn; [apply no_remote_write_same; reflexivity|].
  destruct (lockSlot (resume 0 w)) as [l|]; cbn; [|apply no_remote_write_same; reflexivity].
  destruct (String.eqb (holder l) who); cbn; [|apply no_remote_write_same; reflexivity].
  destruct (lockId_mismatch (activeLockId (resume 0 w)) l); cbn;
    [apply no_remote_write_same; reflexivity|].
  destruct (rejects (next_await (resume 0 w))); cbn;
    first [ apply no_remote_write_same; reflexivity
          | eapply no_remote_write_log; [|reflexivity]; reflexivity ].
Qed.

Lemma acquire_total env who w : exists b, fst (exec env (acquire who) w) = Ok b.
Proof.
  unfold exec, acquire. cbn.
  destruct (rejects (next_await w)) eqn:?; cbn; [eauto|].
  destruct (lockSlot (resume 0 w)) as [l|] eqn:Hl; cbn;
    [destruct (clock (resume 0 w) - timestamp l <? LOCK_TIMEOUT_MS); cbn; [eauto|] |];
    repeat (match goal with
            | |- context [rejects (next_await ?W)] =>
                destruct (rejects (next_await W)) eqn:?; cbn
            end);
    try (match goal with
     | |- context [same_lockId ?S ?L] => destruct (same_lockId S L); cbn
     end); eauto.
Qed.

(** In a calm world a successful [acquire] leaves the caller's own lock
    in the slot and remembers its id. *)
Lemma acquire_calm_holds env who w w1 :
  calm w -> exec env (acquire who) w = (Ok true, w1) ->
  calm w1 /\ exists l, lockSlot w1 = Some l /\ holder l = who
                     /\ activeLockId w1 = Some (lockId l).
Proof.
  intros Hcalm. unfold exec, acquire. cbn. calm_step. calm_step.
  destruct (lockSlot w) as [l|] eqn:Hl; cbn;
    [destruct (clock (resume 0 w) - timestamp l <? LOCK_TIMEOUT_MS); cbn;
       [discriminate|] |];
    repeat calm_step; rewrite String.eqb_refl; cbn;
    intros [= <-]; (split; [calm_tac|]); eexists; cbn; repeat calm_step;
    repeat split; reflexivity.
Qed.

Lemma release_calm_frees env who w l :
  calm w -> lockSlot w = Some l -> holder l = who ->
  activeLockId w = Some (lockId l) ->
  let w' := snd (exec env (release who) w) in
  lockSlot w' = None /\ activeLockId w' = None.
Proof.
  intros Hcalm Hl Hh Ha. unfold exec, release. cbn. calm_step. calm_step.
  rewrite Hl. cbn. destruct (String.eqb_spec (holder l) who); [|contradiction]. cbn.
  rewrite resume_activeLockId, Ha. cbn. rewrite String.eqb_refl, andb_false_r. cbn.
  calm_step. auto.
Qed.
Section PushEarlyExits.
Local Opaque acquireSyncLock releaseSyncLock pushBody.

Lemma smartPush_offline env config lockHolder skipLock w :
  onLine env = false ->
  exec env (smartPush config lockHolder skipLock) w = (Ok result_offline, w).
Proof.
  intros Hoff. unfold smartPush, exec. cbn. rewrite Hoff. reflexivity.
Qed.

Lemma smartPush_lock_refused env config lockHolder w w1 :
  onLine env = true ->
  exec env (acquireSyncLock lockHolder) w = (Ok false, w1) ->
  exec env (smartPush config lockHolder false) w = (Ok result_locked, w1).
Proof.
  intros Hon Hacq. unfold smartPush. unfold exec at 1. cbn. rewrite Hon. cbn.
  rewrite run_bind, run_bind, run_call, Hacq. reflexivity.
Qed.
End PushEarlyExits.

Lemma pushBody_empty_tree env config lockHolder w tree :
  getTree env = Ok tree -> countBookmarks tree = 0 ->
  run env (pushBody config lockHolder) w = (Returned result_empty, w).
Proof.
  intros Ht Hc. unfold pushBody. cbn. rewrite Ht. cbn. rewrite Hc. reflexivity.
Qed.

(** C9.  When the local tree holds no bookmark, [smartPush] returns a
    failure and makes no remote write; and when this call acquired the
    lock itself, the result is the empty-tree failure and the world it
    leaves is the one [releaseSyncLock] leaves, run by the [finally]:
    with no interference the lock slot ends up empty. *)
Theorem push_empty_tree (env : Env) (config : WebDAVConfig) (lockHolder : string)
    (skipLock : bool) (w : World) (tree : list BookmarkNode) :
  getTree env = Ok tree ->
  countBookmarks tree = 0 ->
  let res := fst (exec env (smartPush config lockHolder skipLock) w) in
  let w' := snd (exec env (smartPush config lockHolder skipLock) w) in
  (exists r, res = Ok r /\ success r = false)
  /\ no_remote_write w w'
  /\ (forall w1,
        skipLock = false -> onLine env = true ->
        exec env (acquireSyncLock lockHolder) w = (Ok true, w1) ->
        res = Ok result_empty
        /\ w' = snd (exec env (releaseSyncLock lockHolder) w1)
        /\ (calm w -> lockSlot w' = None /\ activeLockId w' = None)).
Proof.
  intros Ht Hc res w'. subst res w'.
  destruct (onLine env) eqn:Hon.
  2:{ rewrite smartPush_offline by assumption. cbn.
      split; [eexists; split; reflexivity|].
      split; [apply no_remote_write_refl|]. intros; discriminate. }
  destruct skipLock.
  { rewrite (smartPush_runs_body env config lockHolder true w w) by (assumption || reflexivity).
    rewrite (pushBody_empty_tree env config lockHolder w tree) by assumption. cbn.
    split; [eexists; split; reflexivity|].
    split; [apply no_remote_write_refl|]. intros; discriminate. }
  destruct (exec env (acquireSyncLock lockHolder) w) as [r w1] eqn:Hacq.
  destruct (acquire_total env lockHolder w) as [b Hb].
  unfold acquireSyncLock in Hacq. rewrite Hacq in Hb. cbn in Hb. subst r.
  pose proof (acquire_no_remote_write env lockHolder w) as Hn. rewrite Hacq in Hn. cbn in Hn.
  destruct b.
  - rewrite (smartPush_runs_body env config lockHolder false w w1) by assumption.
    rewrite (pushBody_empty_tree env config lockHolder w1 tree) by assumption. cbn.
    split; [eexists; split; reflexivity|].
    split; [eapply no_remote_write_trans; [exact Hn | apply release_no_remote_write]|].
    intros w2 _ _ [= <-]. split; [reflexivity|]. split; [reflexivity|].
    intros Hcalm.
    destruct (acquire_calm_holds env lockHolder w w1 Hcalm Hacq) as (Hc1 & l & Hl & Hh & Ha).
    apply (release_calm_frees env lockHolder w1 l); assumption.
  - rewrite (smartPush_lock_refused env config lockHolder w w1) by assumption. cbn.
    split; [eexists; split; reflexivity|].
    split; [assumption|]. intros w2 _ _ [=].
Qed.

(** Runs only ever add to the trace. *)
Lemma handle_trace_extends env {X} (c : Cmd X) w :
  exists events, trace (snd (handle env c w)) = (trace w ++ events)%list.
Proof.
  destruct c; cbn;
    repeat match goal with
           | |- context [if ?b then _ else _] => destruct b
           | |- context [match ?r with Ok _ => _ | Err _ => _ end] => destruct r
           end; cbn;
    first [ exists []; rewrite app_nil_r; reflexivity
          | eexists [_]; reflexivity ].
Qed.

Lemma run_trace_extends env {R A} (p : Prog R A) : forall w,
  exists events, trace (snd (run env p w)) = (trace w ++ events)%list.
Proof.
  induction p as [a|r|e|X c k IH]; intros w; cbn;
    try (exists []; rewrite app_nil_r; reflexivity).
  destruct (handle_trace_extends env c w) as [e1 H1].
  destruct (handle env c w) as [x w1]. cbn in H1.
  destruct (IH x w1) as [e2 H2].
  exists (e1 ++ e2)%list. rewrite H2, H1. symmetry. apply app_assoc.
Qed.

Lemma exec_trace_extends env {A} (p : Prog A A) w :
  exists events, trace (snd (exec env p w)) = (trace w ++ events)%list.
Proof.
  destruct (run_trace_extends env p w) as [ev H]. exists ev.
  unfold exec. destruct (run env p w) as [[a|a|e] w1]; exact H.
Qed.

Lemma lock_taken_no_remote_write env lockHolder skipLock w w1 :
  lock_taken env lockHolder skipLock w w1 -> no_remote_write w w1.
Proof.
  unfold lock_taken. destruct skipLock.
  - intros ->. apply no_remote_write_refl.
  - intros H. pose proof (acquire_no_remote_write env lockHolder w) as Hn.
    unfold acquireSyncLock in H. rewrite H in Hn. exact Hn.
Qed.

Lemma after_finally_no_remote_write env lockHolder skipLock wb :
  no_remote_write wb (after_finally env lockHolder skipLock wb).
Proof.
  unfold after_finally. destruct skipLock.
  - apply no_remote_write_refl.
  - apply release_no_remote_write.
Qed.

Lemma after_finally_trace_extends env lockHolder skipLock wb :
  exists events,
    trace (after_finally env lockHolder skipLock wb) = (trace wb ++ events)%list.
Proof.
  destruct (after_finally_no_remote_write env lockHolder skipLock wb) as (ev & H & _).
  eauto.
Qed.

Lemma lock_taken_trace_extends env lockHolder skipLock w w1 :
  lock_taken env lockHolder skipLock w w1 ->
  exists events, trace w1 = (trace w ++ events)%list.
Proof.
  intros H. destruct (lock_taken_no_remote_write _ _ _ _ _ H) as (ev & E & _). eauto.
Qed.

Lemma truthy_opt_nonempty s : s <> "" -> truthy_opt (Some s) = true.
Proof. apply truthy_nonempty. Qed.


Section PushBody.
Local Opaque checkCloudState upload.

Lemma pushBody_run env config lockHolder w tree :
  getTree env = Ok tree -> countBookmarks tree <> 0 ->
  run env (pushBody config lockHolder) w =
  match run env (checkCloudState config lockHolder tree)
          (after_snapshot env lockHolder tree w) with
  | (Normal _, w3) =>
      match run env (upload config) w3 with
      | (Thrown e, w4) => caught e w4
      | other => other
      end
  | (Returned r, w3) => (Returned r, w3)
  | (Thrown e, w3) => caught e w3
  end.
Proof.
  intros Ht Hc. unfold pushBody, after_snapshot.
  assert (Hcz : (countBookmarks tree =? 0) = false) by (apply Z.eqb_neq; assumption).
  rewrite run_try_catch. cbn. rewrite Ht. cbn. rewrite Hcz.
  cbn.
  destruct (createSnapshot env) as [[]|e]; cbn;
    rewrite run_bind;
    destruct (run env (checkCloudState config lockHolder tree) _) as [[[]|r|[m|]] w3];
    try reflexivity;
    destruct (run env (upload config) w3) as [[r|r|[m|]] w4]; reflexivity.
Qed.
End PushBody.
Lemma run_failed env (error : Raised) w :
  run env (failed (A := SyncResult) error) w = caught error w.
Proof. destruct error; reflexivity. Qed.

Lemma caught_world error w : snd (caught error w) = w.
Proof. destruct error; reflexivity. Qed.

Lemma finish_trace_extends env lockHolder skipLock end_of_body :
  exists events,
    trace (snd (finish env lockHolder skipLock end_of_body))
    = (trace (snd end_of_body) ++ events)%list.
Proof.
  destruct end_of_body as [[r|r|e] wb]; cbn; apply after_finally_trace_extends.
Qed.

(** Whatever follows the cloud check only adds to the trace. *)
Lemma after_check_trace_extends env config lockHolder skipLock
    (checked : Completion SyncResult unit * World) :
  exists events,
    trace (snd (finish env lockHolder skipLock
                  match checked with
                  | (Normal _, w3) =>
                      match run env (upload config) w3 with
                      | (Thrown e, w4) => caught e w4
                      | other => other
                      end
                  | (Returned r, w3) => (Returned r, w3)
                  | (Thrown e, w3) => caught e w3
                  end))
    = (trace (snd checked) ++ events)%list.
Proof.
  destruct checked as [[[]|r|e] w3]; cbn [snd].
  - destruct (run_trace_extends env (upload config) w3) as [e1 H1].
    destruct (run env (upload config) w3) as [[r|r|e] w4]; cbn [snd] in H1;
      match goal with
      | |- context [finish ?E ?H ?S ?B] =>
          destruct (finish_trace_extends E H S B) as [e2 H2]
      end; rewrite ?caught_world in H2; cbn [snd] in H2;
      exists (e1 ++ e2)%list; rewrite H2, H1; symmetry; apply app_assoc.
  - apply (finish_trace_extends env lockHolder skipLock (Returned r, w3)).
  - destruct (finish_trace_extends env lockHolder skipLock (caught e w3)) as [e2 H2].
    rewrite caught_world in H2. eauto.
Qed.




(** The log lines of the cloud check print the two times.  When the
    time of the backup cannot be printed, or the backup is newer and the
    time of the last sync cannot be printed, the check ends there, its
    [catch] swallows the [RangeError], and the push goes on to the
    upload, whoever holds the lock. *)
Lemma check_gives_way_on_unprintable_time env config lockHolder tree
    latestPath cloudJson cloudData lastSyncTime w :
  getLatestBackupFile env = Ok (Some latestPath) -> latestPath <> "" ->
  getFileWithDedup env latestPath = Ok (Some cloudJson) -> cloudJson <> "" ->
  JSON_parse env cloudJson = Ok cloudData ->
  getLastSyncTime env (cfg_url config) = Ok lastSyncTime ->
  time_value (cloudTime_of cloudData) = false
  \/ (cloudTime_of cloudData > lastSyncTime /\ time_value lastSyncTime = false) ->
  run env (checkCloudState config lockHolder tree) w = (Normal tt, w).
Proof.
  intros Hp Hpne Hj Hjne Hparse Hlast Htime.
  unfold checkCloudState. cbn. rewrite Hp. cbn.
  rewrite (truthy_nonempty _ Hpne). cbn. rewrite Hj. cbn.
  rewrite (truthy_nonempty _ Hjne). cbn. rewrite Hparse. cbn.
  unfold toISOString.
  destruct (time_value (cloudTime_of cloudData)) eqn:Hcloud; cbn; [|reflexivity].
  destruct Htime as [Htime | [Hnewer Hsync]]; [discriminate|].
  rewrite Hlast. cbn.
  assert (Hgt : (cloudTime_of cloudData >? lastSyncTime) = true) by (apply Z.gtb_lt; lia).
  rewrite Hgt. cbn. rewrite Hsync. reflexivity.
Qed.


(** The same when it is the time of the last sync that cannot be
    printed: the push uploads. *)
Lemma newer_cloud_not_blocked_on_unprintable_last_sync :
  cloudTime_of backup_demo > -8640000000000001
  /\ fst (exec env_last_sync_unprintable (smartPush config_demo "auto-sync" true)
            world_unlocked)
     = Ok result_uploaded.
Proof. split; [reflexivity | vm_compute; reflexivity]. Qed.

Arguments request : simpl never.
Arguments with_gz : simpl never.
Arguments DIR : simpl never.

Lemma handle_no_remote_write env {X} (c : Cmd X) w :
  remote_command c = false -> no_remote_write w (snd (handle env c w)).
Proof.
  destruct c; cbn; try discriminate; intros _;
    repeat match goal with
           | |- context [if ?b then _ else _] => destruct b
           | |- context [match ?r with Ok _ => _ | Err _ => _ end] => destruct r
           end; cbn;
    first [ apply no_remote_write_same; reflexivity
          | eapply no_remote_write_log; [|reflexivity]; reflexivity ].
Qed.

Lemma run_remote_free env {R A} (p : Prog R A) :
  remote_free p -> forall w, no_remote_write w (snd (run env p w)).
Proof.
  induction 1 as [a|r|e|X c k Hc Hk IH]; intros w; cbn;
    try apply no_remote_write_refl.
  pose proof (handle_no_remote_write env c w Hc) as H1.
  destruct (handle env c w) as [x w1]. cbn in H1.
  eapply no_remote_write_trans; [exact H1 | apply IH].
Qed.

Lemma rf_bind {R A B} (p : Prog R A) (f : A -> Prog R B) :
  remote_free p -> (forall a, remote_free (f a)) -> remote_free (bind p f).
Proof.
  intros Hp Hf. induction Hp as [a|r|e|X c k Hc Hk IH]; cbn;
    [apply Hf | constructor | constructor | constructor; assumption].
Qed.

Lemma rf_try_catch {R A} (p : Prog R A) (h : Raised -> Prog R A) :
  remote_free p -> (forall e, remote_free (h e)) -> remote_free (try_catch p h).
Proof.
  intros Hp Hh. induction Hp as [a|r|e|X c k Hc Hk IH]; cbn;
    [constructor | constructor | apply Hh | constructor; assumption].
Qed.

Lemma rf_perform {R X} (c : Cmd X) :
  remote_command c = false -> remote_free (perform (R := R) c).
Proof.
  intros Hc. apply rf_vis; [assumption|]. intros [x|e]; constructor.
Qed.

Ltac remote_free_tac :=
  repeat first
    [ apply rf_pure | apply rf_return | apply rf_throw
    | apply rf_perform; reflexivity
    | apply rf_bind; [|intros]
    | apply rf_try_catch; [|intros]
    | match goal with
      | |- remote_free (if ?b then _ else _) => destruct b
      | |- remote_free (match ?o with Some _ => _ | None => _ end) => destruct o
      end ].

Lemma checkCloudState_remote_free config lockHolder tree :
  remote_free (checkCloudState config lockHolder tree).
Proof.
  unfold checkCloudState, toISOString. remote_free_tac.
Qed.

(** ** The idealised remote store *)

Lemma apply_event_quiet files e : remote_write e = false -> apply_event files e = files.
Proof.
  destruct e as [| |req [r|]| | | | | |]; cbn; try reflexivity; try discriminate.
  destruct (req_method req); cbn; intros; try reflexivity; discriminate.
Qed.

Lemma remote_after_quiet events : forall files,
  Forall (fun e => remote_write e = false) events -> remote_after files events = files.
Proof.
  induction events as [|e rest IH]; intros files H; [reflexivity|].
  inversion H; subst. unfold remote_after in *. cbn.
  rewrite apply_event_quiet by assumption. apply IH. assumption.
Qed.

Lemma remote_after_app files e1 e2 :
  remote_after files (e1 ++ e2)%list = remote_after (remote_after files e1) e2.
Proof. unfold remote_after. apply fold_left_app. Qed.

Lemma prefix_app_split {A} (l1 l2 : list A) : forall e,
  e `prefix_of` (l1 ++ l2)%list ->
  e `prefix_of` l1 \/ exists e', e = (l1 ++ e')%list /\ e' `prefix_of` l2.
Proof.
  induction l1 as [|a l1 IH]; intros e H.
  - right. exists e. auto.
  - destruct e as [|b e].
    + left. apply prefix_nil.
    + cbn in H. destruct H as [k Hk]. injection Hk as <- Hk.
      destruct (IH e) as [Hl | (e' & -> & He')].
      * exists k. assumption.
      * left. apply prefix_cons. assumption.
      * right. exists e'. auto.
Qed.

Lemma prefix_quiet (events l : list Event) :
  events `prefix_of` l ->
  Forall (fun e => remote_write e = false) l ->
  Forall (fun e => remote_write e = false) events.
Proof.
  intros [k ->] H. apply Forall_app in H. tauto.
Qed.

Lemma quiet_inert e : remote_write e = false -> inert e.
Proof. intros H files. apply apply_event_quiet. assumption. Qed.

Lemma mkcol_inert req answer : req_method req = MKCOL -> inert (EvFetch req answer).
Proof. intros H files. cbn. destruct answer; [rewrite H|]; reflexivity. Qed.

Lemma remote_after_inert events : forall files,
  Forall inert events -> remote_after files events = files.
Proof.
  induction events as [|e rest IH]; intros files H; [reflexivity|].
  inversion H as [|? ? He Hrest]; subst. unfold remote_after in *. cbn.
  rewrite He. apply IH. assumption.
Qed.

Lemma prefix_inert (events l : list Event) :
  events `prefix_of` l -> Forall inert l -> Forall inert events.
Proof.
  intros [k ->] H. apply Forall_app in H. tauto.
Qed.

(** Replacing a file by PUT of the new one, then DELETE of the old one:
    after every prefix of the requests one of the two is on the server. *)
Lemma replace_keeps_a_file (before after : list Event) (putReq delReq : Request)
    (rput : Response) (del_answer : result Response) (files : gset string) :
  req_method putReq = PUT -> req_method delReq = DELETE ->
  ok rput = true ->
  Forall inert before ->
  Forall inert after ->
  req_url putReq <> req_url delReq ->
  req_url delReq ∈ files ->
  forall events,
    events `prefix_of` (before ++ [EvFetch putReq (Ok rput); EvFetch delReq del_answer]
                         ++ after)%list ->
    req_url delReq ∈ remote_after files events
    \/ req_url putReq ∈ remote_after files events.
Proof.
  intros Hput Hdel Hok Hb Ha Hne Hin events Hpre.
  apply prefix_app_split in Hpre. destruct Hpre as [Hpre | (e1 & -> & Hpre)].
  { left. rewrite remote_after_inert; [assumption|]. eapply prefix_inert; eassumption. }
  rewrite remote_after_app, (remote_after_inert before) by assumption.
  change ([EvFetch putReq (Ok rput); EvFetch delReq del_answer] ++ after)%list
    with ([EvFetch putReq (Ok rput)] ++ [EvFetch delReq del_answer] ++ after)%list in Hpre.
  apply prefix_app_split in Hpre. destruct Hpre as [Hpre | (e2 & -> & Hpre)].
  { left. destruct e1 as [|x e1]; [assumption|].
    destruct Hpre as [k Hk]. injection Hk as <- Hk.
    destruct e1; [|discriminate].
    unfold remote_after. cbn. rewrite Hput, Hok. set_solver. }
  right. rewrite remote_after_app.
  assert (Eput : remote_after files [EvFetch putReq (Ok rput)] = {[req_url putReq]} ∪ files).
  { unfold remote_after. cbn. rewrite Hput, Hok. reflexivity. }
  rewrite Eput. clear Eput.
  apply prefix_app_split in Hpre. destruct Hpre as [Hpre | (e3 & -> & Hpre)].
  - destruct e2 as [|x e2]; [unfold remote_after; cbn; set_solver|].
    destruct Hpre as [k Hk]. injection Hk as <- Hk.
    destruct e2; [|discriminate].
    unfold remote_after. cbn. destruct del_answer as [r|]; [|set_solver].
    rewrite Hdel. destruct (ok r); set_solver.
  - rewrite remote_after_app.
    rewrite (remote_after_inert e3) by (eapply prefix_inert; eassumption).
    unfold remote_after. cbn. destruct del_answer as [r|]; [|set_solver].
    rewrite Hdel. destruct (ok r); set_solver.
Qed.


Ltac list_norm :=
  repeat (rewrite <- !app_assoc || rewrite <- !app_comm_cons);
  cbn [app]; repeat (rewrite <- !app_assoc || rewrite <- !app_comm_cons).

(** The lock manager touches neither the sync state nor the backup file
    record. *)
Lemma acquire_frame env who w :
  syncState (snd (exec env (acquire who) w)) = syncState w
  /\ lastBackupFileInfo (snd (exec env (acquire who) w)) = lastBackupFileInfo w.
Proof.
  unfold exec, acquire. cbn.
  destruct (rejects (next_await w)) eqn:?; cbn; [auto|].
  destruct (lockSlot (resume 0 w)) as [l|] eqn:Hl; cbn;
    [destruct (clock (resume 0 w) - timestamp l <? LOCK_TIMEOUT_MS); cbn; [auto|] |];
    repeat (match goal with
            | |- context [rejects (next_await ?W)] =>
                destruct (rejects (next_await W)) eqn:?; cbn
            end);
    try (match goal with
     | |- context [same_lockId ?S ?L] => destruct (same_lockId S L); cbn
     end); auto.
Qed.

Lemma release_frame env who w :
  syncState (snd (exec env (release who) w)) = syncState w
  /\ lastBackupFileInfo (snd (exec env (release who) w)) = lastBackupFileInfo w.
Proof.
  unfold exec, release. cbn.
  destruct (rejects (next_await w)); cbn; [auto|].
  destruct (lockSlot (resume 0 w)) as [l|]; cbn; [|auto].
  destruct (String.eqb (holder l) who); cbn; [|auto].
  destruct (lockId_mismatch (activeLockId (resume 0 w)) l); cbn; [auto|].
  destruct (rejects (next_await (resume 0 w))); cbn; auto.
Qed.

Lemma lock_taken_frame env lockHolder skipLock w w1 :
  lock_taken env lockHolder skipLock w w1 ->
  syncState w1 = syncState w /\ lastBackupFileInfo w1 = lastBackupFileInfo w.
Proof.
  unfold lock_taken. destruct skipLock.
  - intros ->. auto.
  - intros H. pose proof (acquire_frame env lockHolder w) as F.
    unfold acquireSyncLock in H. rewrite H in F. exact F.
Qed.

Lemma after_finally_frame env lockHolder skipLock wb :
  syncState (after_finally env lockHolder skipLock wb) = syncState wb
  /\ lastBackupFileInfo (after_finally env lockHolder skipLock wb) = lastBackupFileInfo wb.
Proof.
  unfold after_finally. destruct skipLock; [auto | apply release_frame].
Qed.


(** ** The upload stage, inside the window *)

Lemma reaches_upload_exec env config lockHolder skipLock w w3 :
  reaches_upload env config lockHolder skipLock w w3 ->
  exec env (smartPush config lockHolder skipLock) w
  = finish env lockHolder skipLock
      match run env (upload config) w3 with
      | (Thrown e, w4) => caught e w4
      | other => other
      end.
Proof.
  intros (w1 & tree & Hon & Hlock & Ht & Hc & Hcheck).
  rewrite (smartPush_runs_body env config lockHolder skipLock w w1 Hon Hlock).
  rewrite (pushBody_run env config lockHolder w1 tree Ht Hc), Hcheck. reflexivity.
Qed.

Lemma reaches_upload_no_remote_write env config lockHolder skipLock w w3 :
  reaches_upload env config lockHolder skipLock w w3 -> no_remote_write w w3.
Proof.
  intros (w1 & tree & Hon & Hlock & Ht & Hc & Hcheck).
  eapply no_remote_write_trans; [exact (lock_taken_no_remote_write _ _ _ _ _ Hlock)|].
  pose proof (run_remote_free env _ (checkCloudState_remote_free config lockHolder tree)
                (after_snapshot env lockHolder tree w1)) as Hq.
  rewrite Hcheck in Hq. cbn in Hq.
  eapply no_remote_write_trans; [|exact Hq].
  eapply no_remote_write_log; [|reflexivity]. reflexivity.
Qed.

Lemma append_cancel_l (a b c : string) : a +:+ b = a +:+ c -> b = c.
Proof.
  induction a as [|x a IH]; intros H; [exact H|].
  injection H as H. apply IH. exact H.
Qed.

Lemma startsWith_slash_slice1 (s : string) :
  startsWith s "/" = true -> s = "/" +:+ slice1 s.
Proof.
  unfold startsWith. destruct s as [|c r]; cbn; [discriminate|].
  assert (E : String.substring 0 0 r = "") by (destruct r; reflexivity).
  rewrite E. intros H.
  destruct (Ascii.eqb_spec c "/") as [->|]; [reflexivity | discriminate].
Qed.

(** Two paths are sent to two urls, unless they are equal or differ by a
    leading slash only. *)
Lemma normalizeUrl_distinct config recorded new :
  startsWith new "/" = false ->
  recorded <> new -> recorded <> "/" +:+ new ->
  normalizeUrl config recorded <> normalizeUrl config new.
Proof.
  intros Hnew H1 H2 H. unfold normalizeUrl in H. apply append_cancel_l in H.
  rewrite Hnew in H. destruct (startsWith recorded "/") eqn:E; [|contradiction].
  apply H2. rewrite <- H. apply startsWith_slash_slice1. exact E.
Qed.

Lemma replace_path_no_slash env backup info :
  startsWith (replace_path env backup info) "/" = false.
Proof.
  unfold replace_path, with_gz, DIR.
  destruct (endsWith _ ".gz"); reflexivity.
Qed.

Lemma directory_event_inert env config e : directory_event env config e -> inert e.
Proof.
  intros [H | ->]; [apply quiet_inert; assumption | apply mkcol_inert; reflexivity].
Qed.

Ltac through_directory env config Hready rdir edir Hfound rmk emk Hacc :=
  unfold after_directory, directory_ready, exec, exists_, createDirectory in *;
  cbn in Hready |- *;
  destruct (fetch env (request config PROPFIND DIR (Some "0") None)) as [rdir|edir];
  cbn in Hready |- *;
  [destruct (ok rdir || (status rdir =? 207)) eqn:Hfound; cbn in Hready |- * |];
  [ |
    destruct (fetch env (request config MKCOL DIR None None)) as [rmk|emk];
    cbn in Hready |- *;
    [destruct (negb (ok rmk) && negb (status rmk =? 405)) eqn:Hacc; cbn in Hready |- * |];
    try (destruct Hready; discriminate) .. ].

(** Lines 193-196 send the probe of the directory and, when the probe
    does not find it, the MKCOL; the clock does not move. *)
Lemma after_directory_events env config w :
  clock (after_directory env config w) = clock w
  /\ exists events,
       trace (after_directory env config w) = (trace w ++ events)%list
       /\ Forall (directory_event env config) events.
Proof.
  unfold after_directory, exec, exists_, createDirectory. cbn.
  destruct (fetch env (request config PROPFIND DIR (Some "0") None)) as [rdir|edir] eqn:Ed;
    cbn;
    [destruct (ok rdir || (status rdir =? 207)) eqn:Hfound; cbn |].
  - split; [reflexivity|]. eexists [_]. split; [reflexivity|].
    repeat constructor.
  - destruct (fetch env (request config MKCOL DIR None None)) as [rmk|emk] eqn:Em; cbn;
      [destruct (negb (ok rmk) && negb (status rmk =? 405)); cbn |];
      (split; [reflexivity|]); eexists [_; _];
      (split; [rewrite <- app_assoc; reflexivity|]);
      (constructor; [left; reflexivity | constructor; [right; rewrite Em; reflexivity | constructor]]).
  - destruct (fetch env (request config MKCOL DIR None None)) as [rmk|emk] eqn:Em; cbn;
      [destruct (negb (ok rmk) && negb (status rmk =? 405)); cbn |];
      (split; [reflexivity|]); eexists [_; _];
      (split; [rewrite <- app_assoc; reflexivity|]);
      (constructor; [left; reflexivity | constructor; [right; rewrite Em; reflexivity | constructor]]).
Qed.

Section UploadReplace.
Variables (env : Env) (config : WebDAVConfig) (w3 : World).
Variables (backup : CloudBackup) (m : BackupMetadata).
Variables (minutes : Z) (info : BackupFileInfo) (content : string).

Hypothesis Hbackup : createCloudBackup env = Ok (Some backup).
Hypothesis Hmeta : metadata backup = Some m.
Hypothesis Hdata : data backup <> [].
Hypothesis Hready : directory_ready env config w3.
Hypothesis Hminutes : getBackupFileInterval env = Ok minutes.
Hypothesis Hinfo : getLastBackupFileInfo env = Ok (Some info).
Hypothesis Hwindow : clock w3 - createdAt info < minutes * 60 * 1000.
Hypothesis Hold : filePath info <> "".
Hypothesis Hcompress : compressText_answer env (JSON_stringify env backup) = Ok content.

Let putReq := request config PUT (replace_path env backup info) None (Some content).
Let delReq := request config DELETE (filePath info) None None.

Lemma data_length_nonzero : (length (data backup) =? 0)%nat = false.
Proof. destruct (data backup); [contradiction | reflexivity]. Qed.

Lemma upload_replace_put_fails :
  (forall rput, fetch env putReq = Ok rput -> ok rput = false) ->
  exists message,
    run env (upload config) w3
    = (Thrown (WithMessage message),
       log (EvFetch putReq (fetch env putReq)) (after_directory env config w3)).
Proof.
  intros Hput. unfold upload. cbn. rewrite Hbackup. cbn. rewrite Hmeta. cbn.
  rewrite data_length_nonzero. cbn.
  pose proof Hready as Hr.
  through_directory env config Hr rdir edir Hfound rmk emk Hacc;
    rewrite Hminutes; cbn; rewrite Hinfo; cbn;
    (destruct (Z.ltb_spec (clock w3 - createdAt info) (minutes * 60 * 1000)); [|lia]); cbn;
    rewrite Hcompress; cbn;
    fold (replace_path env backup info); fold putReq;
    (destruct (fetch env putReq) as [rput|e] eqn:E; cbn;
     [rewrite (Hput rput eq_refl); cbn|]; eexists; reflexivity).
Qed.

Lemma upload_replace_put_ok rput :
  fetch env putReq = Ok rput -> ok rput = true ->
  run env (upload config) w3 =
  after_stored env config (clock w3)
    (after_save env (replace_info env backup info (clock w3))
       (log (EvFetch delReq (fetch env delReq))
          (log (EvFetch putReq (Ok rput)) (after_directory env config w3)))).
Proof.
  intros Hput Hok. unfold upload. cbn. rewrite Hbackup. cbn. rewrite Hmeta. cbn.
  rewrite data_length_nonzero. cbn.
  pose proof Hready as Hr.
  subst putReq delReq.
  unfold replace_info, replace_path, after_save, after_stored, upload_state in *.
  through_directory env config Hr rdir edir Hfound rmk emk Hacc;
    rewrite Hminutes; cbn; rewrite Hinfo; cbn;
    (destruct (Z.ltb_spec (clock w3 - createdAt info) (minutes * 60 * 1000)); [|lia]); cbn;
    rewrite Hcompress; cbn; rewrite Hput; cbn; rewrite Hok; cbn;
    rewrite (truthy_nonempty _ Hold); cbn;
    (destruct (fetch env (request config DELETE (filePath info) None None)) as [rdel|e0];
     cbn; [destruct (negb (ok rdel) && negb (status rdel =? 404)); cbn|]);
    destruct (saveLastBackupFileInfo env _) as [[]|e1]; cbn;
    destruct (clearBackupListCache env) as [[]|e3]; cbn; try reflexivity;
    destruct (setSyncState env _) as [[]|e4]; cbn; reflexivity.
Qed.
End UploadReplace.

Lemma after_save_events env saved w :
  exists done, trace (after_save env saved w)
               = (trace w ++ [EvSaveLastBackupFileInfo saved done])%list.
Proof.
  unfold after_save. destruct (saveLastBackupFileInfo env saved); eexists; reflexivity.
Qed.

Lemma after_stored_events env config now w :
  exists events,
    trace (snd (after_stored env config now w)) = (trace w ++ events)%list
    /\ Forall (fun e => remote_write e = false) events.
Proof.
  unfold after_stored.
  destruct (clearBackupListCache env); cbn;
    [destruct (setSyncState env _); cbn|].
  - eexists [_; _]. split; [rewrite <- app_assoc; reflexivity | repeat constructor].
  - eexists [_; _]. split; [rewrite <- app_assoc; reflexivity | repeat constructor].
  - eexists [_]. split; [reflexivity | repeat constructor].
Qed.

Lemma finish_caught_world env lockHolder skipLock
    (end_of_upload : Completion SyncResult SyncResult * World) :
  snd (finish env lockHolder skipLock
         match end_of_upload with
         | (Normal a, w4) => (Normal a, w4)
         | (Returned r, w4) => (Returned r, w4)
         | (Thrown e, w4) => caught e w4
         end)
  = after_finally env lockHolder skipLock (snd end_of_upload).
Proof.
  destruct end_of_upload as [[r|r|[message|]] w4]; reflexivity.
Qed.


Lemma reaches_upload_same_path :
  reaches_upload env_same_path config_demo "manual" true world_unlocked
    (log (EvCompareWithCloud (Ok true))
       (after_snapshot env_same_path "manual" tree_demo world_unlocked)).
Proof.
  exists world_unlocked, tree_demo.
  split; [reflexivity|]. split; [reflexivity|]. split; [reflexivity|].
  split; [discriminate|]. vm_compute. reflexivity.
Qed.


(** ** The content comparison *)

Lemma append_assoc (a b c : string) : (a +:+ b) +:+ c = a +:+ (b +:+ c).
Proof.
  induction a as [|x a IH]; [reflexivity|].
  change (String x ((a +:+ b) +:+ c) = String x (a +:+ (b +:+ c))).
  f_equal. exact IH.
Qed.

Lemma string_app_empty (a : string) : a +:+ "" = a.
Proof.
  induction a as [|x a IH]; [reflexivity|].
  change (String x (a +:+ "") = String x a). f_equal. exact IH.
Qed.

Lemma split_pop_from_plain : forall s acc,
  has_slash s = false -> split_pop_from acc s = acc +:+ s.
Proof.
  induction s as [|c r IH]; intros acc H.
  - symmetry. apply string_app_empty.
  - cbn in H. apply orb_false_iff in H. destruct H as [Hc Hr].
    cbn [split_pop_from]. rewrite Hc, (IH _ Hr), append_assoc. reflexivity.
Qed.

Lemma split_pop_from_directory fileName : forall directory acc,
  has_slash fileName = false ->
  split_pop_from acc (directory +:+ "/" +:+ fileName) = fileName.
Proof.
  intros directory acc H. revert acc.
  induction directory as [|c r IH]; intros acc.
  - change (split_pop_from acc (String "/" fileName) = fileName).
    cbn [split_pop_from]. apply (split_pop_from_plain fileName "" H).
  - change (split_pop_from acc (String c (r +:+ "/" +:+ fileName)) = fileName).
    cbn [split_pop_from]. destruct (Ascii.eqb c "/"); apply IH.
Qed.

(** [split("/").pop()] gives the file name of a path. *)
Lemma split_pop_file_name path fileName :
  file_name_of path fileName -> split_pop path = fileName.
Proof.
  intros [H [-> | [directory ->]]]; unfold split_pop.
  - apply (split_pop_from_plain fileName "" H).
  - apply split_pop_from_directory. exact H.
Qed.

(** When the upload stage gets as far as the archive, it requests a PUT
    of it, after the requests for the backup directory. *)
Lemma upload_issues_put env config w backup m minutes lastInfo content :
  createCloudBackup env = Ok (Some backup) ->
  metadata backup = Some m -> data backup <> [] ->
  directory_ready env config w ->
  getBackupFileInterval env = Ok minutes ->
  getLastBackupFileInfo env = Ok lastInfo ->
  compressText_answer env (JSON_stringify env backup) = Ok content ->
  exists path events,
    trace (snd (run env (upload config) w))
    = (trace (after_directory env config w)
       ++ EvFetch (request config PUT path None (Some content))
            (fetch env (request config PUT path None (Some content)))
       :: events)%list.
Proof.
  intros Hbackup Hmeta Hdata Hready Hmin Hinfo Hcomp.
  assert (Hlen : (length (data backup) =? 0)%nat = false)
    by (destruct (data backup); [contradiction | reflexivity]).
  unfold upload. cbn. rewrite Hbackup. cbn. rewrite Hmeta. cbn. rewrite Hlen. cbn.
  through_directory env config Hready rdir edir Hfound rmk emk Hacc;
    rewrite Hmin; cbn; rewrite Hinfo; cbn;
    unfold chooseTarget;
    (destruct lastInfo as [info|]; cbn;
     [destruct (clock w - createdAt info <? minutes * 60 * 1000); cbn|]);
    rewrite Hcomp; cbn;
    match goal with
    | |- context [run env ?P (log (EvFetch (request config PUT ?p None _) ?a) ?W)] =>
        destruct (run_trace_extends env P
                    (log (EvFetch (request config PUT p None (Some content)) a) W))
          as [ev Hev];
        exists p, ev; rewrite Hev; cbn; list_norm; reflexivity
    end.
Qed.

Arguments split_pop : simpl never.



(** In that run the identical content is sent to the server. *)
Lemma identical_content_put_when_state_unwritable :
  exists before after,
    trace (snd (exec env_state_unwritable (smartPush config_demo "auto-sync" true)
                  world_unlocked))
    = (before
       ++ EvFetch (request config_demo PUT
                     "BookmarkSyncer/bookmarks_20260127_143100_edge_1_v2.json.gz"
                     None (Some "H4sI{}"))
            (Ok (response_of 201))
       :: after)%list.
Proof. eexists [_; _; _; _], _. vm_compute. reflexivity. Qed.

(** Nor is identical content skipped when the push is blocked before the
    comparison, as in C4. *)
Lemma identical_content_not_compared_when_blocked :
  compareWithCloud env_demo tree_demo backup_demo = Ok true
  /\ fst (exec env_demo (smartPush config_demo "auto-sync" true) world_unlocked)
     = Ok result_cloud_newer.
Proof. split; vm_compute; reflexivity. Qed.
(** ** Compression *)

Lemma code_range a : 0 <= code a < 256.
Proof.
  unfold code. pose proof (N_ascii_bounded a). lia.
Qed.

Lemma code_byte_of z : 0 <= z < 256 -> code (byte_of z) = z.
Proof.
  intros H. unfold code, byte_of. rewrite N_ascii_embedding by lia. lia.
Qed.

Lemma byte_of_code a : byte_of (code a) = a.
Proof.
  unfold code, byte_of. rewrite N2Z.id. apply ascii_N_embedding.
Qed.

Lemma string_of_list_ascii_app (l1 l2 : list ascii) :
  String.string_of_list_ascii (l1 ++ l2)
  = String.string_of_list_ascii l1 +:+ String.string_of_list_ascii l2.
Proof.
  induction l1 as [|a l1 IH]; cbn; [reflexivity|]. rewrite IH. reflexivity.
Qed.

Lemma append_empty_r (a : string) : a +:+ "" = a.
Proof.
  induction a as [|x a IH]; [reflexivity|].
  change (String x (a +:+ "") = String x a). rewrite IH. reflexivity.
Qed.

Section ChunkedConversion.
Variable max_arguments : nat.
Hypothesis chunk_fits : (chunkSize <= max_arguments)%nat.

Lemma chunkSize_pos : (0 < chunkSize)%nat.
Proof. unfold chunkSize. lia. Qed.

(** However long the array, the loop returns, and with the characters
    of the bytes from [i] on appended to [binary]. *)
Lemma fromCharCode_apply_fits chunk :
  (length chunk <= max_arguments)%nat ->
  fromCharCode_apply max_arguments chunk = Ok (String.string_of_list_ascii chunk).
Proof.
  intros H. unfold fromCharCode_apply. apply Nat.leb_le in H. rewrite H. reflexivity.
Qed.

Lemma subarray_chunk bytes i :
  (i < length bytes)%nat ->
  (subarray bytes i (Nat.min (i + chunkSize) (length bytes)) ++ drop (i + chunkSize) bytes
   = drop i bytes)%list
  /\ (length (subarray bytes i (Nat.min (i + chunkSize) (length bytes))) <= chunkSize)%nat.
Proof.
  intros Hlt. unfold subarray. split.
  - rewrite <- (take_drop (Nat.min (i + chunkSize) (length bytes) - i) (drop i bytes)) at 2.
    f_equal. rewrite drop_drop.
    destruct (Nat.le_ge_cases (i + chunkSize) (length bytes)) as [H|H].
    + f_equal. lia.
    + rewrite !drop_ge by lia. reflexivity.
  - rewrite length_take, length_drop. lia.
Qed.

Lemma toBinary_spec bytes : forall fuel i binary,
  (length bytes - i < fuel)%nat ->
  toBinary max_arguments fuel bytes i binary
  = Ok (binary +:+ String.string_of_list_ascii (drop i bytes)).
Proof.
  pose proof chunkSize_pos as Hpos.
  induction fuel as [|fuel IH]; intros i binary Hfuel; [lia|]. cbn [toBinary].
  destruct (Nat.ltb_spec i (length bytes)) as [Hlt|Hge].
  - destruct (subarray_chunk bytes i Hlt) as [Hsplit Hlen].
    rewrite fromCharCode_apply_fits by lia.
    rewrite IH by lia. rewrite append_assoc, <- string_of_list_ascii_app, Hsplit.
    reflexivity.
  - rewrite drop_ge by lia. cbn. rewrite append_empty_r. reflexivity.
Qed.

Lemma uint8ArrayToBase64_spec bytes :
  uint8ArrayToBase64 max_arguments bytes
  = Ok (btoa (String.string_of_list_ascii bytes)).
Proof.
  unfold uint8ArrayToBase64. rewrite toBinary_spec by lia. reflexivity.
Qed.
End ChunkedConversion.

Lemma merge_concat chunks : merge chunks = concat chunks.
Proof.
  unfold merge.
  assert (Htotal : forall (cs : list (list ascii)) n,
            fold_left (fun acc chunk => (acc + length chunk)%nat) cs n
            = (n + length (concat cs))%nat).
  { induction cs as [|c cs IH]; intros n; cbn; [lia|].
    rewrite IH, length_app. lia. }
  rewrite Htotal. cbn.
  assert (Hfill : forall (cs : list (list ascii)) (done : list ascii),
            fold_left
              (fun '(result, offset) chunk =>
                 (set_at result chunk offset, (offset + length chunk)%nat))
              cs ((done ++ repeat Ascii.zero (length (concat cs)))%list, length done)
            = ((done ++ concat cs)%list, (length done + length (concat cs))%nat)).
  { induction cs as [|c cs IH]; intros done; cbn.
    - rewrite Nat.add_0_r. reflexivity.
    - unfold set_at.
      rewrite take_app_length.
      rewrite drop_app_ge by lia.
      rewrite length_app, repeat_app.
      replace (length done + length c - length done)%nat with (length c) by lia.
      rewrite drop_app_length' by (rewrite repeat_length; reflexivity).
      replace (length done + length c)%nat with (length (done ++ c)) by (rewrite length_app; lia).
      rewrite (app_assoc done c). rewrite IH.
      rewrite <- app_assoc, length_app. f_equal. lia. }
  specialize (Hfill chunks []). cbn in Hfill. rewrite Hfill. reflexivity.
Qed.
(** *** Base64 *)

Ltac dlia := Z.div_mod_to_equations; lia.

(** Decide the comparisons of a goal about integers in known ranges. *)
Ltac zcases :=
  repeat match goal with
         | |- context [?a <=? ?b] => destruct (Z.leb_spec a b); try lia
         | |- context [?a <? ?b] => destruct (Z.ltb_spec a b); try lia
         | |- context [?a =? ?b] => destruct (Z.eqb_spec a b); try lia
         end.

Lemma sextet_char_code n :
  0 <= n < 64 ->
  (n < 26 /\ code (sextet_char n) = 65 + n)
  \/ (26 <= n < 52 /\ code (sextet_char n) = 71 + n)
  \/ (52 <= n < 62 /\ code (sextet_char n) = n - 4)
  \/ (n = 62 /\ code (sextet_char n) = 43)
  \/ (n = 63 /\ code (sextet_char n) = 47).
Proof.
  intros H. unfold sextet_char.
  destruct (Z.ltb_spec n 26); [left; rewrite code_byte_of by lia; lia|].
  destruct (Z.ltb_spec n 52); [right; left; rewrite code_byte_of by lia; lia|].
  destruct (Z.ltb_spec n 62); [right; right; left; rewrite code_byte_of by lia; lia|].
  destruct (Z.eqb_spec n 62); [right; right; right; left; auto|].
  right; right; right; right. split; [lia | reflexivity].
Qed.

Ltac sextet_cases n H :=
  destruct (sextet_char_code n H) as [[? E]|[[? E]|[[? E]|[[? E]|[? E]]]]];
  rewrite E.

Lemma char_sextet_char n : 0 <= n < 64 -> char_sextet (sextet_char n) = Some n.
Proof.
  intros H. unfold char_sextet, within.
  sextet_cases n H; zcases; cbn; f_equal; lia.
Qed.

Lemma sextet_char_not_pad n : 0 <= n < 64 -> Ascii.eqb (sextet_char n) pad = false.
Proof.
  intros H. apply Ascii.eqb_neq. intros E0.
  apply (f_equal code) in E0. change (code pad) with 61 in E0. revert E0.
  sextet_cases n H; lia.
Qed.

Lemma sextet_char_not_whitespace n :
  0 <= n < 64 -> is_ascii_whitespace (sextet_char n) = false.
Proof.
  intros H. unfold is_ascii_whitespace.
  sextet_cases n H; zcases; reflexivity.
Qed.

Lemma sextet_char_is_base64 n : 0 <= n < 64 -> is_base64_char (sextet_char n) = true.
Proof.
  intros H. unfold is_base64_char. rewrite char_sextet_char by assumption.
  reflexivity.
Qed.

Lemma list_ind3 {A} (P : list A -> Prop) :
  P [] -> (forall a, P [a]) -> (forall a b, P [a; b]) ->
  (forall a b c rest, P rest -> P (a :: b :: c :: rest)) ->
  forall l, P l.
Proof.
  intros H0 H1 H2 H3 l.
  assert (H : P l /\ (forall a, P (a :: l)) /\ (forall a b, P (a :: b :: l))).
  { induction l as [|x l (IH0 & IH1 & IH2)]; [auto|].
    split; [apply IH1|]. split; [intros a; apply IH2|].
    intros a b. apply H3. assumption. }
  apply H.
Qed.

(** The four sextets of three bytes, and the ranges they lie in. *)
Lemma sextets_range a b c :
  0 <= code a / 4 < 64
  /\ 0 <= code a mod 4 * 16 + code b / 16 < 64
  /\ 0 <= code b mod 16 * 4 + code c / 64 < 64
  /\ 0 <= code c mod 64 < 64
  /\ 0 <= code a mod 4 * 16 < 64
  /\ 0 <= code b mod 16 * 4 < 64.
Proof.
  pose proof (code_range a). pose proof (code_range b). pose proof (code_range c).
  repeat split; dlia.
Qed.

Lemma btoa_loop_atob_loop : forall bytes, atob_loop (btoa_loop bytes) = Some bytes.
Proof.
  apply list_ind3.
  - reflexivity.
  - intros a. destruct (sextets_range a a a) as (R1 & _ & _ & _ & R5 & _).
    pose proof (code_range a) as Ra.
    cbn. unfold decode2. rewrite !char_sextet_char by assumption. cbn.
    replace (code a / 4 * 4 + code a mod 4 * 16 / 16) with (code a) by dlia.
    rewrite byte_of_code. reflexivity.
  - intros a b. destruct (sextets_range a b b) as (R1 & R2 & _ & _ & _ & R6).
    pose proof (code_range a) as Ra. pose proof (code_range b) as Rb.
    cbn. rewrite (sextet_char_not_pad _ R6). unfold decode3.
    rewrite !char_sextet_char by assumption. cbn.
    replace (code a / 4 * 4 + (code a mod 4 * 16 + code b / 16) / 16) with (code a) by dlia.
    replace ((code a mod 4 * 16 + code b / 16) mod 16 * 16 + code b mod 16 * 4 / 4)
      with (code b) by dlia.
    rewrite !byte_of_code. reflexivity.
  - intros a b c rest IH.
    destruct (sextets_range a b c) as (R1 & R2 & R3 & R4 & _ & _).
    pose proof (code_range a) as Ra. pose proof (code_range b) as Rb.
    pose proof (code_range c) as Rc.
    cbn [btoa_loop app].
    assert (Hquad : forall tail,
              atob_loop (sextet_char (code a / 4)
                         :: sextet_char (code a mod 4 * 16 + code b / 16)
                         :: sextet_char (code b mod 16 * 4 + code c / 64)
                         :: sextet_char (code c mod 64) :: tail)
              = decode4 (sextet_char (code a / 4))
                  (sextet_char (code a mod 4 * 16 + code b / 16))
                  (sextet_char (code b mod 16 * 4 + code c / 64))
                  (sextet_char (code c mod 64)) (atob_loop tail)).
    { intros [|t tail]; cbn [atob_loop]; [|reflexivity].
      rewrite (sextet_char_not_pad _ R4). reflexivity. }
    rewrite Hquad, IH. unfold decode4. rewrite !char_sextet_char by assumption. cbn.
    replace (code a / 4 * 4 + (code a mod 4 * 16 + code b / 16) / 16) with (code a) by dlia.
    replace ((code a mod 4 * 16 + code b / 16) mod 16 * 16
             + (code b mod 16 * 4 + code c / 64) / 4) with (code b) by dlia.
    replace ((code b mod 16 * 4 + code c / 64) mod 4 * 64 + code c mod 64)
      with (code c) by dlia.
    rewrite !byte_of_code. reflexivity.
Qed.
Lemma btoa_loop_no_whitespace : forall bytes,
  Forall (fun c => is_ascii_whitespace c = false) (btoa_loop bytes).
Proof.
  apply list_ind3.
  - constructor.
  - intros a. destruct (sextets_range a a a) as (R1 & _ & _ & _ & R5 & _).
    cbn. repeat constructor; apply sextet_char_not_whitespace; assumption.
  - intros a b. destruct (sextets_range a b b) as (R1 & R2 & _ & _ & _ & R6).
    cbn. repeat constructor; apply sextet_char_not_whitespace; assumption.
  - intros a b c rest IH. destruct (sextets_range a b c) as (R1 & R2 & R3 & R4 & _ & _).
    cbn [btoa_loop app].
    repeat (constructor; [apply sextet_char_not_whitespace; assumption|]). exact IH.
Qed.

Lemma filter_all {A} (P : A -> Prop) `{forall x, Decision (P x)} (l : list A) :
  Forall P l -> filter P l = l.
Proof.
  induction 1 as [|x l Hx _ IH]; [reflexivity|].
  rewrite filter_cons_True by assumption. rewrite IH. reflexivity.
Qed.

Lemma btoa_loop_valid : forall bytes, valid_base64_chars (btoa_loop bytes) = true.
Proof.
  apply list_ind3.
  - reflexivity.
  - intros a. destruct (sextets_range a a a) as (R1 & _ & _ & _ & R5 & _).
    cbn. rewrite !sextet_char_is_base64 by assumption. reflexivity.
  - intros a b. destruct (sextets_range a b b) as (R1 & R2 & _ & _ & _ & R6).
    cbn. rewrite !sextet_char_is_base64 by assumption. reflexivity.
  - intros a b c rest IH. destruct (sextets_range a b c) as (R1 & R2 & R3 & R4 & _ & _).
    cbn [btoa_loop app].
    destruct (btoa_loop rest) as [|t tail] eqn:E; cbn [valid_base64_chars];
      rewrite !sextet_char_is_base64 by assumption; cbn; [reflexivity|exact IH].
Qed.

Lemma atob_btoa binary : atob (btoa binary) = Some binary.
Proof.
  unfold atob, btoa. rewrite String.list_ascii_of_string_of_list_ascii.
  rewrite filter_all by apply btoa_loop_no_whitespace.
  rewrite btoa_loop_atob_loop. cbn.
  rewrite String.string_of_list_ascii_of_string. reflexivity.
Qed.

Lemma btoa_valid binary : valid_base64 (btoa binary) = true.
Proof.
  unfold valid_base64, btoa. rewrite String.list_ascii_of_string_of_list_ascii.
  apply btoa_loop_valid.
Qed.

(** *** UTF-8 *)

(** Settle the comparisons the context decides. *)
Ltac zdecide :=
  repeat match goal with
         | |- context [Z.leb ?a ?b] =>
             first [ rewrite (proj2 (Z.leb_le a b)) by dlia
                   | rewrite (proj2 (Z.leb_gt a b)) by dlia ]
         | |- context [Z.ltb ?a ?b] =>
             first [ rewrite (proj2 (Z.ltb_lt a b)) by dlia
                   | rewrite (proj2 (Z.ltb_ge a b)) by dlia ]
         | |- context [Z.eqb ?a ?b] =>
             first [ rewrite (proj2 (Z.eqb_eq a b)) by dlia
                   | rewrite (proj2 (Z.eqb_neq a b)) by dlia ]
         end.

Ltac decoder_simpl :=
  cbn [decoder_run app bytes_needed bytes_seen code_point lower_boundary
       upper_boundary decoder_init andb negb fst snd].

Lemma decode_one_byte cp rest :
  0 <= cp < 0x80 ->
  decoder_run decoder_init (encode_code_point cp ++ rest)
  = (emit cp ++ decoder_run decoder_init rest)%list.
Proof.
  intros H. unfold encode_code_point, emit. zdecide. decoder_simpl.
  rewrite code_byte_of by lia.
  unfold decoder_step, decoder_start. decoder_simpl. zdecide. reflexivity.
Qed.

Lemma decode_two_bytes cp rest :
  0x80 <= cp < 0x800 ->
  decoder_run decoder_init (encode_code_point cp ++ rest)
  = (emit cp ++ decoder_run decoder_init rest)%list.
Proof.
  intros H. unfold encode_code_point, emit. zdecide. decoder_simpl.
  rewrite !code_byte_of by dlia.
  unfold decoder_step at 1. unfold decoder_start, within. decoder_simpl. zdecide.
  decoder_simpl.
  unfold decoder_step, within. decoder_simpl. zdecide. decoder_simpl.
  unfold emit. zdecide.
  replace ((0xC0 + cp / 64) mod 32 * 64 + (0x80 + cp mod 64) mod 64) with cp by dlia.
  reflexivity.
Qed.

Lemma decode_three_bytes cp rest :
  0x800 <= cp <= 0xFFFF -> ~ (0xD800 <= cp <= 0xDFFF) ->
  decoder_run decoder_init (encode_code_point cp ++ rest)
  = (emit cp ++ decoder_run decoder_init rest)%list.
Proof.
  intros H Hs. unfold encode_code_point, emit. zdecide. decoder_simpl.
  rewrite !code_byte_of by dlia.
  unfold decoder_step at 1. unfold decoder_start, within. decoder_simpl. zdecide.
  decoder_simpl.
  unfold decoder_step at 1. unfold within. decoder_simpl.
  destruct (Z.eqb_spec (0xE0 + cp / 4096) 0xE0);
    destruct (Z.eqb_spec (0xE0 + cp / 4096) 0xED); try lia;
    zdecide; decoder_simpl;
    unfold decoder_step, within; decoder_simpl; zdecide; decoder_simpl;
    unfold emit; zdecide;
    replace (((0xE0 + cp / 4096) mod 16 * 64 + (0x80 + cp / 64 mod 64) mod 64) * 64
             + (0x80 + cp mod 64) mod 64) with cp by dlia;
    reflexivity.
Qed.

Lemma decode_four_bytes cp rest :
  0x10000 <= cp <= 0x10FFFF ->
  decoder_run decoder_init (encode_code_point cp ++ rest)
  = (emit cp ++ decoder_run decoder_init rest)%list.
Proof.
  intros H. unfold encode_code_point. zdecide. decoder_simpl.
  rewrite !code_byte_of by dlia.
  unfold decoder_step at 1. unfold decoder_start, within. decoder_simpl. zdecide.
  decoder_simpl.
  unfold decoder_step at 1. unfold within. decoder_simpl.
  destruct (Z.eqb_spec (0xF0 + cp / 262144) 0xF0);
    destruct (Z.eqb_spec (0xF0 + cp / 262144) 0xF4); try lia;
    zdecide; decoder_simpl;
    unfold decoder_step at 1; unfold within; decoder_simpl; zdecide; decoder_simpl;
    unfold decoder_step, within; decoder_simpl; zdecide; decoder_simpl;
    replace ((((0xF0 + cp / 262144) mod 8 * 64 + (0x80 + cp / 4096 mod 64) mod 64) * 64
              + (0x80 + cp / 64 mod 64) mod 64) * 64
             + (0x80 + cp mod 64) mod 64) with cp by dlia;
    reflexivity.
Qed.

Lemma decode_code_point cp rest :
  scalar cp ->
  decoder_run decoder_init (encode_code_point cp ++ rest)
  = (emit cp ++ decoder_run decoder_init rest)%list.
Proof.
  intros [H Hs].
  destruct (Z.lt_ge_cases cp 0x80); [apply decode_one_byte; lia|].
  destruct (Z.lt_ge_cases cp 0x800); [apply decode_two_bytes; lia|].
  destruct (Z.lt_ge_cases cp 0x10000); [apply decode_three_bytes; [lia|assumption]|].
  apply decode_four_bytes; lia.
Qed.

Lemma surrogate_flags u :
  (is_high_surrogate u = true <-> 0xD800 <= u <= 0xDBFF)
  /\ (is_low_surrogate u = true <-> 0xDC00 <= u <= 0xDFFF).
Proof.
  unfold is_high_surrogate, is_low_surrogate.
  split; rewrite andb_true_iff, !Z.leb_le; tauto.
Qed.

(** Decoding undoes encoding on text whose surrogates are paired. *)
Lemma decoder_run_utf8_encode : forall n text,
  (length text <= n)%nat ->
  utf16 text -> paired_surrogates text = true ->
  decoder_run decoder_init (utf8_encode text) = text.
Proof.
  induction n as [|n IH]; intros text Hn Hu Hp.
  { destruct text; [reflexivity | cbn in Hn; lia]. }
  destruct text as [|u rest]; [reflexivity|].
  inversion Hu as [|? ? Hu0 Hrest]; subst.
  cbn [utf8_encode paired_surrogates] in *.
  destruct (is_high_surrogate u) eqn:Eh.
  - destruct rest as [|v rest']; [discriminate|].
    apply andb_true_iff in Hp. destruct Hp as [Hv Hp]. rewrite Hv.
    inversion Hrest as [|? ? Hv0 Hrest']; subst.
    apply (proj2 (surrogate_flags v)) in Hv. apply (proj1 (surrogate_flags u)) in Eh.
    rewrite decode_four_bytes by lia.
    rewrite IH; [| cbn in Hn; lia | assumption | assumption].
    unfold emit. zdecide. cbn [app]. f_equal; [dlia|]. f_equal. dlia.
  - apply andb_true_iff in Hp. destruct Hp as [Hnl Hp].
    apply negb_true_iff in Hnl. rewrite Hnl.
    assert (Hs : scalar u).
    { split; [lia|]. intros Hsur.
      destruct (Z.le_gt_cases u 0xDBFF).
      - assert (is_high_surrogate u = true) by (apply (surrogate_flags u); lia).
        congruence.
      - assert (is_low_surrogate u = true) by (apply (surrogate_flags u); lia).
        congruence. }
    rewrite decode_code_point by assumption.
    rewrite IH; [| cbn in Hn; lia | assumption | assumption].
    unfold emit. zdecide. reflexivity.
Qed.

Lemma strip_bom_first_byte b tail :
  code b <> 0xEF -> strip_bom (b :: tail) = b :: tail.
Proof.
  intros H. destruct tail as [|c [|d tail]]; cbn; try reflexivity.
  destruct (Z.eqb_spec (code b) 0xEF); [contradiction | reflexivity].
Qed.

Lemma strip_bom_encode_code_point cp tail :
  0 <= cp <= 0x10FFFF -> cp <> 0xFEFF ->
  strip_bom (encode_code_point cp ++ tail) = (encode_code_point cp ++ tail)%list.
Proof.
  intros H Hne. unfold encode_code_point.
  destruct (Z.ltb_spec cp 0x80).
  { cbn [app]. apply strip_bom_first_byte. rewrite code_byte_of by lia. lia. }
  destruct (Z.ltb_spec cp 0x800).
  { cbn [app]. apply strip_bom_first_byte. rewrite code_byte_of by dlia. dlia. }
  destruct (Z.ltb_spec cp 0x10000).
  - cbn [app strip_bom]. rewrite !code_byte_of by dlia.
    destruct (Z.eqb_spec (0xE0 + cp / 4096) 0xEF); [|reflexivity].
    destruct (Z.eqb_spec (0x80 + cp / 64 mod 64) 0xBB); [|reflexivity].
    destruct (Z.eqb_spec (0x80 + cp mod 64) 0xBF); [|reflexivity].
    exfalso. apply Hne. dlia.
  - cbn [app]. apply strip_bom_first_byte. rewrite code_byte_of by dlia. dlia.
Qed.

Lemma strip_bom_utf8_encode text :
  utf16 text -> starts_with_bom text = false ->
  strip_bom (utf8_encode text) = utf8_encode text.
Proof.
  intros Hu Hb. destruct text as [|u rest]; [reflexivity|].
  inversion Hu as [|? ? Hu0 Hrest]; subst. cbn in Hb. apply Z.eqb_neq in Hb.
  cbn [utf8_encode].
  destruct (is_high_surrogate u) eqn:Eh.
  - apply (proj1 (surrogate_flags u)) in Eh. destruct rest as [|v rest'].
    + rewrite <- (app_nil_r (encode_code_point 0xFFFD)).
      apply strip_bom_encode_code_point; lia.
    + inversion Hrest as [|? ? Hv0 Hrest']; subst.
      destruct (is_low_surrogate v) eqn:Ev.
      * apply (proj2 (surrogate_flags v)) in Ev.
        apply strip_bom_encode_code_point; lia.
      * apply strip_bom_encode_code_point; lia.
  - destruct (is_low_surrogate u); apply strip_bom_encode_code_point; lia.
Qed.

Lemma utf8_decode_encode text :
  utf16 text -> paired_surrogates text = true -> starts_with_bom text = false ->
  utf8_decode (utf8_encode text) = text.
Proof.
  intros Hu Hp Hb. unfold utf8_decode. rewrite strip_bom_utf8_encode by assumption.
  apply (decoder_run_utf8_encode (length text)); auto.
Qed.

(** *** [compressText] and [decompressText] *)

Lemma platform_ok_stored : platform_ok chunkSize gzip_stored gunzip_stored.
Proof.
  split; [apply le_n|]. intros data. exists [data]. split; [|apply app_nil_r].
  unfold gunzip_stored, gzip_stored. cbn. rewrite app_nil_r. reflexivity.
Qed.

(** C7, as stated, fails: the text "\uFEFFa" comes back as "a", the
    decoder having dropped the leading byte order mark. *)
Lemma bom_is_lost_in_roundtrip : ~ roundtrip_for_every_string.
Proof.
  intros H.
  destruct (H chunkSize gzip_stored gunzip_stored text_with_bom platform_ok_stored)
    as (base64 & Hc & Hd).
  - repeat constructor; lia.
  - vm_compute in Hc. injection Hc as <-. vm_compute in Hd. discriminate.
Qed.

(** C7, as amended.  On a platform whose gzip streams undo each other
    and whose [apply] takes 8192 arguments, for every text string with
    no unpaired surrogate and no leading byte order mark, whatever its
    length: [compressText] returns the Base64 text of the gzip output
    (its conversion in chunks of 8192 bytes never overflows),
    [decompressText] of it returns the text, and it is valid Base64.
    The conversion in one call fails on an array longer than the
    argument limit. *)
Theorem compress_roundtrip (max_arguments : nat)
    (gzip_stream : list ascii -> list (list ascii))
    (gunzip_stream : list ascii -> result (list (list ascii)))
    (text : list Z) :
  platform_ok max_arguments gzip_stream gunzip_stream ->
  utf16 text -> paired_surrogates text = true -> starts_with_bom text = false ->
  let compressed := concat (gzip_stream (utf8_encode text)) in
  let base64 := btoa (String.string_of_list_ascii compressed) in
  compressText max_arguments gzip_stream text = Ok base64
  /\ decompressText gunzip_stream base64 = Ok text
  /\ valid_base64 base64 = true
  /\ ((max_arguments < length compressed)%nat ->
      exists e, fromCharCode_apply max_arguments compressed = Err e).
Proof.
  intros [Hfits Hgzip] Hu Hp Hb compressed base64. subst compressed base64.
  split; [|split; [|split]].
  - unfold compressText. rewrite merge_concat.
    apply uint8ArrayToBase64_spec. assumption.
  - unfold decompressText. rewrite atob_btoa.
    rewrite String.list_ascii_of_string_of_list_ascii.
    destruct (Hgzip (utf8_encode text)) as (chunks & -> & Hchunks).
    rewrite merge_concat, Hchunks. f_equal. apply utf8_decode_encode; assumption.
  - apply btoa_valid.
  - intros Hlong. unfold fromCharCode_apply.
    apply Nat.leb_gt in Hlong. rewrite Hlong. eauto.
Qed.
(** ** The statements at sample worlds *)

Lemma release_leaves_foreign_lock_witness :
  manager_wf world_stale
  /\ lockSlot (snd (exec env_demo (release "auto-sync") world_stale)) = Some lock_new
  /\ trace (snd (exec env_demo (release "auto-sync") world_stale)) = trace world_stale.
Proof.
  assert (Hwf : manager_wf world_stale) by (unfold manager_wf; discriminate).
  split; [exact Hwf|].
  pose proof (release_leaves_foreign_lock env_demo "auto-sync" world_stale Hwf) as H.
  cbv zeta in H. destruct H as [H _].
  apply (H lock_new "auto-sync_1000_0ld0"); [reflexivity | reflexivity | discriminate].
Defined.

Lemma acquire_timeout_witness :
  rejects (next_await world_expired) = false
  /\ LOCK_TIMEOUT_MS <= clock (resume 0 world_expired) - 9000
  /\ fst (exec env_demo (acquire "manual") world_expired) = Ok true.
Proof.
  split; [reflexivity|]. split; [apply Z.leb_le; reflexivity|].
  pose proof (acquire_timeout env_demo "manual" world_expired
                {| holder := "auto-sync"; timestamp := 9000; lockId := "auto-sync_9000_0ld0" |}
                eq_refl eq_refl) as H.
  cbv zeta in H. destruct H as [_ H].
  apply H; [apply Z.leb_le; reflexivity | constructor].
Defined.

Lemma release_twice_drops_newer_lock_witness :
  lockSlot (snd (exec env_demo (release "auto-sync")
                   (snd (exec env_demo (release "auto-sync") world_stale)))) = None.
Proof.
  pose proof (release_twice_drops_newer_lock env_demo "auto-sync" world_stale lock_new
                "auto-sync_1000_0ld0" eq_refl eq_refl eq_refl eq_refl) as H.
  cbv zeta in H.
  destruct H as [_ H]; [discriminate | discriminate |].
  apply H. constructor.
Defined.

Lemma acquire_true_only_if_reread_matches_witness :
  let '(p, q, _) :=
    interleave env_demo (both_write ++ both_reread)
      (acquire "auto-sync") (acquire "auto-sync") world_unlocked in
  ~ (returned p = Some true /\ returned q = Some true).
Proof.
  assert (Hwritten :
            interleave env_demo both_write (acquire "auto-sync") (acquire "auto-sync")
              world_unlocked
            = (settling "auto-sync_9000_k3x9", settling "auto-sync_9000_p07q",
               snd (interleave env_demo both_write (acquire "auto-sync")
                      (acquire "auto-sync") world_unlocked)))
    by reflexivity.
  assert (Hcalm : undisturbed
                    (snd (interleave env_demo both_write (acquire "auto-sync")
                            (acquire "auto-sync") world_unlocked)))
    by constructor.
  assert (Hne : "auto-sync_9000_k3x9" <> "auto-sync_9000_p07q") by discriminate.
  exact (proj2 (acquire_true_only_if_reread_matches env_demo)
           both_write both_reread "auto-sync" "auto-sync" world_unlocked
           "auto-sync_9000_k3x9" "auto-sync_9000_p07q" _ _ _
           Hwritten (or_introl eq_refl) (or_introl eq_refl) Hne Hcalm).
Defined.

Lemma push_empty_tree_witness :
  countBookmarks [mkNode "Bar" None (Some [])] = 0
  /\ fst (exec env_empty_tree (smartPush config_demo "auto-sync" false) world_unlocked)
     = Ok result_empty
  /\ lockSlot (snd (exec env_empty_tree (smartPush config_demo "auto-sync" false)
                      world_unlocked)) = None.
Proof.
  split; [reflexivity|].
  pose proof (push_empty_tree env_empty_tree config_demo "auto-sync" false world_unlocked
                [mkNode "Bar" None (Some [])] eq_refl eq_refl) as H.
  cbv zeta in H. destruct H as (_ & _ & H).
  assert (Hacq : exec env_empty_tree (acquireSyncLock "auto-sync") world_unlocked
                 = (Ok true,
                    snd (exec env_empty_tree (acquireSyncLock "auto-sync") world_unlocked)))
    by (vm_compute; reflexivity).
  destruct (H _ eq_refl eq_refl Hacq) as (Hres & _ & Hfree).
  split; [exact Hres|]. apply Hfree. constructor.
Defined.

Lemma listFiles_swallows_auth_error_witness :
  fst (exec env_unauthorized (listFiles config_demo DIR) world_unlocked) = Ok [].
Proof.
  apply (listFiles_swallows_auth_error env_unauthorized config_demo DIR world_unlocked
           (response_of 401)); [reflexivity | left; reflexivity].
Defined.


Lemma reaches_upload_delete_fails :
  reaches_upload env_delete_fails config_demo "manual" true world_unlocked
    (log (EvCompareWithCloud (Ok true))
       (after_snapshot env_delete_fails "manual" tree_demo world_unlocked)).
Proof.
  exists world_unlocked, tree_demo.
  split; [reflexivity|]. split; [reflexivity|]. split; [reflexivity|].
  split; [discriminate|]. vm_compute. reflexivity.
Qed.


Lemma compress_roundtrip_witness :
  decompressText gunzip_stored
    (btoa (String.string_of_list_ascii
             (concat (gzip_stored (utf8_encode text_unicode)))))
  = Ok text_unicode.
Proof.
  pose proof (compress_roundtrip chunkSize gzip_stored gunzip_stored text_unicode
                platform_ok_stored) as H.
  cbv zeta in H.
  destruct H as (_ & H & _);
    lazymatch goal with
    | |- decompressText _ _ = _ => exact H
    | |- utf16 _ => repeat constructor; lia
    | |- _ => reflexivity
    end.
Defined.

(** * Further properties of the sources *)

(** ** [SyncLockManager]: failures and composition *)

Lemma Forall_tail_calm {A} (P : A -> Prop) (l : list A) :
  Forall P l -> Forall P (tail l).
Proof. intros H. destruct H; [constructor | assumption]. Qed.

(** Calmness is a property of the script alone. *)
Ltac calm_goal :=
  unfold calm in *;
  repeat first [ progress cbn [script log set_lockSlot set_activeLockId set_syncState
                               set_lastBackupFileInfo drop_random]
               | rewrite resume_script ];
  repeat apply Forall_tail_calm; assumption.

Ltac lock_paths :=
  repeat (match goal with
          | |- context [rejects (next_await ?W)] =>
              destruct (rejects (next_await W)) eqn:?; cbn
          end);
  try (match goal with
       | |- context [same_lockId ?S ?L] => destruct (same_lockId S L) eqn:?; cbn
       end).

Lemma calm_exec_acquire env who w :
  calm w -> calm (snd (exec env (acquire who) w)).
Proof.
  intros Hcalm. unfold exec, acquire. cbn.
  destruct (rejects (next_await w)) eqn:Hr; cbn; [calm_goal|].
  destruct (lockSlot (resume 0 w)) as [l|] eqn:Hl; cbn;
    [destruct (clock (resume 0 w) - timestamp l <? LOCK_TIMEOUT_MS); cbn; [calm_goal|] |];
    lock_paths; calm_goal.
Qed.

Lemma calm_exec_release env who w :
  calm w -> calm (snd (exec env (release who) w)).
Proof.
  intros Hcalm. unfold exec, release. cbn.
  destruct (rejects (next_await w)); cbn; [calm_goal|].
  destruct (lockSlot (resume 0 w)) as [l|]; cbn; [|calm_goal].
  destruct (String.eqb (holder l) who); cbn; [|calm_goal].
  destruct (lockId_mismatch (activeLockId (resume 0 w)) l); cbn; [calm_goal|].
  destruct (rejects (next_await (resume 0 w))); cbn; calm_goal.
Qed.

Lemma acquire_calm_free env who w :
  calm w -> lockSlot w = None -> fst (exec env (acquire who) w) = Ok true.
Proof.
  intros Hcalm Hfree. unfold exec, acquire. cbn. calm_step. calm_step.
  rewrite Hfree. cbn. repeat calm_step. rewrite String.eqb_refl. reflexivity.
Qed.

(** [acquire] never rejects: whatever the storage does, the promise
    resolves with a boolean.  A call that returns false has not changed
    the id the manager remembers, and a call whose first read of the
    slot is rejected returns false having written nothing.  No call
    ever removes the stored record; it writes at most one record, of its
    own holder. *)
Theorem acquire_never_rejects (env : Env) (who : string) (w : World) :
  let w' := snd (exec env (acquire who) w) in
  (exists b, fst (exec env (acquire who) w) = Ok b
             /\ (b = false -> activeLockId w' = activeLockId w))
  /\ (rejects (next_await w) = true ->
      exec env (acquire who) w = (Ok false, resume 0 w))
  /\ (trace w' = trace w
      \/ exists l, holder l = who /\ trace w' = (trace w ++ [EvStorageSet l])%list).
Proof.
  unfold exec, acquire. cbn.
  destruct (rejects (next_await w)) eqn:Hr; cbn.
  { repeat split; eauto using resume_activeLockId. }
  split; [|split; [discriminate|]].
  - destruct (lockSlot (resume 0 w)) as [l|] eqn:Hl; cbn;
      [destruct (clock (resume 0 w) - timestamp l <? LOCK_TIMEOUT_MS); cbn;
         [eauto using resume_activeLockId|] |];
      repeat (match goal with
              | |- context [rejects (next_await ?W)] =>
                  destruct (rejects (next_await W)) eqn:?; cbn
              end);
      try (match goal with
           | |- context [same_lockId ?S ?L] => destruct (same_lockId S L); cbn
           end);
      eexists; (split; [reflexivity|]); try discriminate; intros _;
      repeat (cbn; rewrite ?resume_activeLockId); reflexivity.
  - destruct (lockSlot (resume 0 w)) as [l|] eqn:Hl; cbn;
      [destruct (clock (resume 0 w) - timestamp l <? LOCK_TIMEOUT_MS); cbn;
         [left; apply resume_trace|] |];
      repeat (match goal with
              | |- context [rejects (next_await ?W)] =>
                  destruct (rejects (next_await W)) eqn:?; cbn
              end);
      try (match goal with
           | |- context [same_lockId ?S ?L] => destruct (same_lockId S L); cbn
           end);
      first [ left; repeat (cbn; rewrite ?resume_trace); reflexivity
            | right; eexists; split; [|repeat (cbn; rewrite ?resume_trace); reflexivity];
              reflexivity ].
Qed.

(** While a lock is held and fresh, the next [acquire] is refused.  In
    a calm world, after a call of [acquire] has returned true the slot
    holds a record of its holder; a following call, of any holder, that
    reads the slot less than the timeout after the record's timestamp
    returns false and leaves the record where it is. *)
Theorem acquire_refused_while_held (env : Env) (who other : string) (w w1 : World) :
  calm w ->
  exec env (acquire who) w = (Ok true, w1) ->
  exists l,
    lockSlot w1 = Some l /\ holder l = who
    /\ (clock (resume 0 w1) - timestamp l < LOCK_TIMEOUT_MS ->
        exec env (acquire other) w1 = (Ok false, resume 0 w1)
        /\ lockSlot (resume 0 w1) = Some l
        /\ trace (resume 0 w1) = trace w1).
Proof.
  intros Hcalm Hacq.
  destruct (acquire_calm_holds env who w w1 Hcalm Hacq) as (Hcalm1 & l & Hl & Hh & _).
  exists l. split; [assumption|]. split; [assumption|]. intros Hage.
  assert (Hslot : lockSlot (resume 0 w1) = Some l)
    by (rewrite (calm_lockSlot 0 w1 Hcalm1); assumption).
  split; [|split; [assumption | apply resume_trace]].
  unfold exec, acquire. cbn.
  rewrite (proj2 (calm_next w1 Hcalm1)). cbn. rewrite Hslot. cbn.
  apply Z.ltb_lt in Hage. rewrite Hage. reflexivity.
Qed.

(** Acquire, release, acquire.  In a calm world, when a call of
    [acquire] has returned true, the [release] of the same holder by
    the same manager empties the slot and forgets the id, and the next
    [acquire], of any holder, returns true. *)
Theorem acquire_release_acquire (env : Env) (who other : string) (w w1 : World) :
  calm w ->
  exec env (acquire who) w = (Ok true, w1) ->
  let w2 := snd (exec env (release who) w1) in
  lockSlot w2 = None /\ activeLockId w2 = None
  /\ trace w2 = (trace w1 ++ [EvStorageRemove])%list
  /\ fst (exec env (acquire other) w2) = Ok true.
Proof.
  intros Hcalm Hacq w2.
  destruct (acquire_calm_holds env who w w1 Hcalm Hacq) as (Hcalm1 & l & Hl & Hh & Ha).
  destruct (release_calm_frees env who w1 l Hcalm1 Hl Hh Ha) as [Hs Hid].
  fold w2 in Hs, Hid.
  assert (Hcalm2 : calm w2) by (apply calm_exec_release; assumption).
  split; [assumption|]. split; [assumption|]. split.
  - subst w2. unfold exec, release. cbn.
    rewrite (proj2 (calm_next w1 Hcalm1)). cbn.
    rewrite (calm_lockSlot 0 w1 Hcalm1), Hl. cbn.
    destruct (String.eqb_spec (holder l) who); [|contradiction]. cbn.
    rewrite resume_activeLockId, Ha. cbn. rewrite String.eqb_refl, andb_false_r. cbn.
    rewrite (proj2 (calm_next (resume 0 w1) (calm_resume 0 w1 Hcalm1))). cbn.
    rewrite !resume_trace. reflexivity.
  - apply acquire_calm_free; assumption.
Qed.

(** [release] never rejects either.  It ends with the remembered id
    reset to null in every case but one: when the stored record belongs
    to another holder, the id is left as it was.  When the read of the
    slot or the removal is rejected, the stored record stays (it then
    blocks every [acquire] until it times out). *)
Theorem release_never_rejects (env : Env) (who : string) (w : World) :
  let w' := snd (exec env (release who) w) in
  fst (exec env (release who) w) = Ok tt
  /\ (rejects (next_await w) = true ->
      w' = set_activeLockId None (resume 0 w))
  /\ (rejects (next_await w) = false ->
      match lockSlot (resume 0 w) with
      | Some l =>
          if String.eqb (holder l) who then activeLockId w' = None
          else w' = resume 0 w
      | None => activeLockId w' = None
      end)
  /\ (forall l,
        rejects (next_await w) = false -> lockSlot (resume 0 w) = Some l ->
        holder l = who -> lockId_mismatch (activeLockId w) l = false ->
        rejects (next_await (resume 0 w)) = true ->
        lockSlot w' = lockSlot (resume 0 (resume 0 w)) /\ trace w' = trace w).
Proof.
  split; [apply release_total|].
  unfold exec, release. cbn.
  destruct (rejects (next_await w)) eqn:Hr; cbn.
  { split; [reflexivity|]. split; discriminate. }
  split; [discriminate|]. split.
  - intros _. destruct (lockSlot (resume 0 w)) as [l|]; cbn; [|reflexivity].
    destruct (String.eqb (holder l) who); cbn; [|reflexivity].
    destruct (lockId_mismatch (activeLockId (resume 0 w)) l); cbn; [reflexivity|].
    destruct (rejects (next_await (resume 0 w))); reflexivity.
  - intros l _ Hl Hh Hm Hrej. rewrite Hl. cbn.
    destruct (String.eqb_spec (holder l) who); [|contradiction]. cbn.
    rewrite resume_activeLockId, Hm. cbn. rewrite Hrej. cbn.
    rewrite !resume_trace. auto.
Qed.

Lemma acquire_refused_while_held_witness :
  exec env_demo (acquire "auto-sync")
    (snd (exec env_demo (acquire "manual") world_unlocked))
  = (Ok false, resume 0 (snd (exec env_demo (acquire "manual") world_unlocked))).
Proof.
  assert (Hcalm : calm world_unlocked) by constructor.
  assert (Hacq : exec env_demo (acquire "manual") world_unlocked
                 = (Ok true, snd (exec env_demo (acquire "manual") world_unlocked)))
    by (vm_compute; reflexivity).
  destruct (acquire_refused_while_held env_demo "manual" "auto-sync" world_unlocked _
              Hcalm Hacq) as (l & Hl & _ & H).
  injection Hl as <-.
  apply H. apply Z.ltb_lt. reflexivity.
Defined.

Lemma acquire_release_acquire_witness :
  fst (exec env_demo (acquire "auto-sync")
         (snd (exec env_demo (release "manual")
                 (snd (exec env_demo (acquire "manual") world_unlocked)))))
  = Ok true.
Proof.
  assert (Hcalm : calm world_unlocked) by constructor.
  assert (Hacq : exec env_demo (acquire "manual") world_unlocked
                 = (Ok true, snd (exec env_demo (acquire "manual") world_unlocked)))
    by (vm_compute; reflexivity).
  apply (acquire_release_acquire env_demo "manual" "auto-sync" world_unlocked _
           Hcalm Hacq).
Defined.

Lemma release_never_rejects_witness :
  lockSlot (snd (exec env_demo (release "auto-sync") world_storage_down))
  = Some lock_new.
Proof.
  pose proof (release_never_rejects env_demo "auto-sync" world_storage_down) as H.
  cbv zeta in H. destruct H as (_ & H & _).
  rewrite (H eq_refl). reflexivity.
Defined.

(** ** [WebDAVClient]: urls, reads and writes *)

Lemma substring_whole (s : string) : String.substring 0 (String.length s) s = s.
Proof. induction s as [|c s IH]; cbn; [reflexivity | rewrite IH; reflexivity]. Qed.

Lemma substring_append_tail (s t : string) :
  String.substring (String.length s) (String.length t) (s +:+ t) = t.
Proof.
  induction s as [|c s IH]; [apply substring_whole | exact IH].
Qed.

Lemma length_append (s t : string) :
  String.length (s +:+ t) = (String.length s + String.length t)%nat.
Proof. induction s as [|c s IH]; cbn; [reflexivity | rewrite <- IH; reflexivity]. Qed.

Lemma endsWith_append (s t : string) : endsWith (s +:+ t) t = true.
Proof.
  unfold endsWith. rewrite length_append.
  replace (String.length s + String.length t - String.length t)%nat
    with (String.length s) by lia.
  rewrite substring_append_tail, String.eqb_refl, andb_true_r.
  apply Nat.leb_le. lia.
Qed.

Lemma startsWith_slash (s : string) : startsWith ("/" +:+ s) "/" = true.
Proof. destruct s; reflexivity. Qed.

(** The four spellings of a location give one url.  For a base url
    [u] that does not end in a slash and a path [p] that does not start
    with one, the client asks for [u/p] whether or not the configured
    url carries the trailing slash and whether or not the path carries
    the leading one. *)
Theorem normalizeUrl_slashes (config : WebDAVConfig) (u p : string) :
  endsWith u "/" = false -> startsWith p "/" = false ->
  cfg_url config = u \/ cfg_url config = u +:+ "/" ->
  normalizeUrl config p = u +:+ "/" +:+ p
  /\ normalizeUrl config ("/" +:+ p) = u +:+ "/" +:+ p.
Proof.
  intros Hu Hp Hcfg. unfold normalizeUrl.
  rewrite Hp, startsWith_slash.
  change (slice1 ("/" +:+ p)) with p.
  destruct Hcfg as [-> | ->].
  - rewrite Hu. rewrite append_assoc. auto.
  - rewrite endsWith_append. rewrite append_assoc. auto.
Qed.

(** [getFile] hands back content only from a successful answer.  It
    makes exactly one GET request; it resolves, with the body, exactly
    when the answer is ok; a missing file, refused credentials and a
    conflict are told apart in the error. *)
Theorem getFile_content_only_when_ok (env : Env) (config : WebDAVConfig)
    (path : string) (w : World) :
  let req := request config GET path None None in
  let res := exec env (getFile config path) w in
  snd res = log (EvFetch req (fetch env req)) w
  /\ (forall content,
        fst res = Ok content <->
        exists response,
          fetch env req = Ok response /\ ok response = true
          /\ body response = content)
  /\ (forall response,
        fetch env req = Ok response -> ok response = false ->
        (status response = 404 -> fst res = Err (not_found path))
        /\ (status response = 401 \/ status response = 403 ->
            fst res = Err (auth_failed path))
        /\ (status response = 409 -> fst res = Err conflict)).
Proof.
  intros req res. subst req res. unfold exec, getFile. cbn.
  destruct (fetch env _) as [response|e] eqn:Hf; cbn.
  - destruct (ok response) eqn:Hok; cbn.
    + split; [reflexivity|]. split.
      * intros content. split.
        -- intros [= <-]. eauto.
        -- intros (r & [= <-] & _ & <-). reflexivity.
      * intros r [= <-]. congruence.
    + assert (Hno : forall content,
                 ~ exists r, @Ok string _ response = Ok r /\ ok r = true /\ body r = content).
      { intros content (r & [= <-] & Hr & _). congruence. }
      destruct (Z.eqb_spec (status response) 404) as [E4|E4]; cbn;
        [|destruct (Z.eqb_spec (status response) 401) as [E1|E1]; cbn;
          [|destruct (Z.eqb_spec (status response) 403) as [E3|E3]; cbn;
            [|destruct (Z.eqb_spec (status response) 409) as [E9|E9]; cbn]]];
        (split; [reflexivity|]); (split;
          [intros content; split; [discriminate | intros H; destruct (Hno _ H)]
          |intros r [= <-] _; repeat split; intros; try lia; try reflexivity]).
  - split; [reflexivity|]. split.
    + intros content. split; [discriminate | intros (r & Hr & _); discriminate].
    + intros r Hr. discriminate.
Qed.

(** [exists] never rejects: a failed request counts as "not there".
    [testConnection] makes the same probe of the base url without the
    guard: it gives the same answer when the request is answered and
    rejects when the request fails. *)
Theorem exists_never_rejects (env : Env) (config : WebDAVConfig)
    (path : string) (w : World) :
  let probe := fun p => fetch env (request config PROPFIND p (Some "0") None) in
  (exists b,
     fst (exec env (exists_ config path) w) = Ok b
     /\ (b = true <->
         exists response,
           probe path = Ok response
           /\ (ok response = true \/ status response = 207)))
  /\ (forall e, probe path = Err e -> fst (exec env (exists_ config path) w) = Ok false)
  /\ (forall e, probe "" = Err e -> fst (exec env (testConnection config) w) = Err e)
  /\ (forall b, fst (exec env (testConnection config) w) = Ok b ->
                fst (exec env (exists_ config "") w) = Ok b).
Proof.
  intros probe. subst probe. unfold exec, exists_, testConnection. cbn.
  split; [|split; [|split]].
  - destruct (fetch env _) as [response|e]; cbn.
    + eexists. split; [reflexivity|]. split.
      * intros H. exists response. split; [reflexivity|].
        apply orb_true_iff in H. destruct H as [H|H]; [left; assumption|].
        right. apply Z.eqb_eq. assumption.
      * intros (r & [= <-] & [H|H]); apply orb_true_iff; [left; assumption|].
        right. apply Z.eqb_eq. assumption.
    + exists false. split; [reflexivity|]. split; [discriminate|].
      intros (r & Hr & _). discriminate.
  - intros e ->. reflexivity.
  - intros e ->. reflexivity.
  - intros b. destruct (fetch env _) as [response|e]; cbn; [auto | discriminate].
Qed.

(** What the three writing methods accept.  Each resolves exactly when
    its one request is answered and the answer is ok, or, for
    [createDirectory], 405 (the collection is there already) and, for
    [deleteFile], 404 (the file is gone already); [putFile] accepts
    nothing but ok. *)
Theorem write_methods_tolerance (env : Env) (config : WebDAVConfig)
    (path content : string) (w : World) :
  (fst (exec env (putFile config path content) w) = Ok tt <->
   exists r, fetch env (request config PUT path None (Some content)) = Ok r
             /\ ok r = true)
  /\ (fst (exec env (createDirectory config path) w) = Ok tt <->
      exists r, fetch env (request config MKCOL path None None) = Ok r
                /\ (ok r = true \/ status r = 405))
  /\ (fst (exec env (deleteFile config path) w) = Ok tt <->
      exists r, fetch env (request config DELETE path None None) = Ok r
                /\ (ok r = true \/ status r = 404)).
Proof.
  unfold exec, putFile, createDirectory, deleteFile. cbn.
  repeat split;
    try (destruct (fetch env _) as [r|e]; cbn; [|discriminate];
         destruct (ok r) eqn:Hok; cbn; [eauto|];
         try (match goal with
              | |- context [?a =? ?b] => destruct (Z.eqb_spec a b); cbn
              end); solve [eauto | discriminate]);
    intros (r & Hr & H); rewrite Hr; cbn;
    try (destruct H as [H|H]); try rewrite H; cbn; try reflexivity;
    destruct (ok r); cbn; try reflexivity;
    try (match goal with
         | |- context [?a =? ?b] => destruct (Z.eqb_spec a b); cbn
         end); try reflexivity; try contradiction; try lia.
Qed.

(** [listFiles] is read-only and never rejects.  Whatever the server
    and the parser do, the promise resolves with a list, after exactly
    one request, a PROPFIND of depth 1; when that request fails, or the
    answer is neither ok nor 207, or the body cannot be parsed, the list
    is empty, and otherwise it is the list the parser gives. *)
Theorem listFiles_resolves_read_only (env : Env) (config : WebDAVConfig)
    (dirPath : string) (w : World) :
  let req := request config PROPFIND dirPath (Some "1") None in
  let res := exec env (listFiles config dirPath) w in
  snd res = log (EvFetch req (fetch env req)) w
  /\ (exists files, fst res = Ok files)
  /\ (forall files, fst res = Ok files -> files <> [] ->
      exists response,
        fetch env req = Ok response
        /\ (ok response = true \/ status response = 207)
        /\ parseMultistatus env (cfg_url config) (body response) = Ok files).
Proof.
  intros req res. subst req res. unfold exec, listFiles. cbn.
  destruct (fetch env _) as [response|e]; cbn;
    [|split; [reflexivity|]; split; [eauto|]; intros files [= <-] H; contradiction].
  destruct ((status response =? 401) || (status response =? 403)); cbn;
    [split; [reflexivity|]; split; [eauto|]; intros files [= <-] H; contradiction|].
  destruct (status response =? 404); cbn;
    [split; [reflexivity|]; split; [eauto|]; intros files [= <-] H; contradiction|].
  destruct (negb (ok response) && negb (status response =? 207)) eqn:Hst; cbn;
    [split; [reflexivity|]; split; [eauto|]; intros files [= <-] H; contradiction|].
  destruct (parseMultistatus env _ _) as [files|e] eqn:Hp; cbn;
    [|split; [reflexivity|]; split; [eauto|]; intros files [= <-] H; contradiction].
  split; [reflexivity|]. split; [eauto|]. intros files' [= <-] _.
  exists response. split; [reflexivity|]. split; [|assumption].
  apply andb_false_iff in Hst. destruct Hst as [H|H]; apply negb_false_iff in H;
    [left; assumption | right; apply Z.eqb_eq; assumption].
Qed.

(** ** Reasoning on the shape of a program *)

Lemma shaped_bind' allowed {R A B} (mid : A -> Prop) (normals : B -> Prop)
    (returns : R -> Prop) (p : Prog R A) (f : A -> Prog R B) :
  shaped allowed mid returns p ->
  (forall a, mid a -> shaped allowed normals returns (f a)) ->
  shaped allowed normals returns (bind p f).
Proof.
  intros Hp Hf. induction Hp as [a Ha|r Hr|e|X c k Hc Hk IH]; cbn;
    [apply Hf; assumption | constructor; assumption | constructor
    | constructor; assumption].
Qed.

Lemma shaped_bind allowed {R A B} (normals : B -> Prop) (returns : R -> Prop)
    (p : Prog R A) (f : A -> Prog R B) :
  shaped allowed any returns p ->
  (forall a, shaped allowed normals returns (f a)) ->
  shaped allowed normals returns (bind p f).
Proof. intros Hp Hf. apply (shaped_bind' allowed any); auto. Qed.

Lemma shaped_try_catch allowed {R A} (normals : A -> Prop) (returns : R -> Prop)
    (p : Prog R A) (h : Raised -> Prog R A) :
  shaped allowed normals returns p ->
  (forall e, shaped allowed normals returns (h e)) ->
  shaped allowed normals returns (try_catch p h).
Proof.
  intros Hp Hh. induction Hp as [a Ha|r Hr|e|X c k Hc Hk IH]; cbn;
    [constructor; assumption | constructor; assumption | apply Hh
    | constructor; assumption].
Qed.

Lemma shaped_try_finally allowed {R A} (normals : A -> Prop) (returns : R -> Prop)
    (p : Prog R A) (f : Prog R unit) :
  shaped allowed normals returns p -> shaped allowed any returns f ->
  shaped allowed normals returns (try_finally p f).
Proof.
  intros Hp Hf. induction Hp as [a Ha|r Hr|e|X c k Hc Hk IH]; cbn;
    try (apply shaped_bind; [assumption | intros; constructor; assumption]).
  constructor; assumption.
Qed.

Lemma shaped_call' allowed {R A} (normals inner_normals inner_returns : A -> Prop)
    (returns : R -> Prop) (p : Prog A A) :
  (forall a, inner_normals a -> normals a) ->
  (forall a, inner_returns a -> normals a) ->
  shaped allowed inner_normals inner_returns p ->
  shaped allowed normals returns (call (R := R) p).
Proof.
  intros Hn Hr Hp. induction Hp as [a Ha|r Hr'|e|X c k Hc Hk IH]; cbn;
    constructor; auto.
Qed.

Lemma shaped_call allowed {R A} (returns : R -> Prop) (p : Prog A A) :
  shaped allowed any any p -> shaped allowed any returns (call (R := R) p).
Proof. apply shaped_call'; auto. Qed.

Lemma shaped_perform allowed {R X} (returns : R -> Prop) (c : Cmd X) :
  allowed X c = true -> shaped allowed any returns (perform (R := R) c).
Proof.
  intros Hc. apply shaped_vis; [assumption|]. intros [x|e]; constructor. exact I.
Qed.

Lemma shaped_anything {R A} (p : Prog R A) : shaped any_command any any p.
Proof. induction p; constructor; auto; exact I. Qed.

(** What every command among [allowed] keeps, a shaped program keeps. *)
Lemma run_shaped env allowed (keeps : World -> World -> Prop) :
  (forall w, keeps w w) ->
  (forall w1 w2 w3, keeps w1 w2 -> keeps w2 w3 -> keeps w1 w3) ->
  (forall X (c : Cmd X) w, allowed X c = true -> keeps w (snd (handle env c w))) ->
  forall {R A} (normals : A -> Prop) (returns : R -> Prop) (p : Prog R A),
    shaped allowed normals returns p -> forall w, keeps w (snd (run env p w)).
Proof.
  intros Hrefl Htrans Hcmd R A normals returns p Hp.
  induction Hp as [a Ha|r Hr|e|X c k Hc Hk IH]; intros w; cbn; try apply Hrefl.
  pose proof (Hcmd X c w Hc) as H1.
  destruct (handle env c w) as [x w1]. cbn in H1.
  eapply Htrans; [exact H1 | apply IH].
Qed.

(** How a shaped program completes. *)
Lemma run_shaped_completion env allowed {R A} (normals : A -> Prop)
    (returns : R -> Prop) (p : Prog R A) :
  shaped allowed normals returns p ->
  forall w,
    match fst (run env p w) with
    | Normal a => normals a
    | Returned r => returns r
    | Thrown _ => True
    end.
Proof.
  intros Hp. induction Hp as [a Ha|r Hr|e|X c k Hc Hk IH]; intros w; cbn; auto.
  destruct (handle env c w) as [x w1]. apply IH.
Qed.

Lemma same_lock_state_refl w : same_lock_state w w.
Proof. repeat split. Qed.

Lemma lock_untouched_refl w : lock_untouched w w.
Proof.
  split; [apply same_lock_state_refl|]. exists []. split; [|constructor].
  symmetry. apply app_nil_r.
Qed.

Lemma lock_untouched_trans w1 w2 w3 :
  lock_untouched w1 w2 -> lock_untouched w2 w3 -> lock_untouched w1 w3.
Proof.
  intros [(A1 & A2 & A3 & A4 & A5) (e1 & H1 & F1)]
         [(B1 & B2 & B3 & B4 & B5) (e2 & H2 & F2)].
  split; [repeat split; congruence|].
  exists (e1 ++ e2)%list. split; [rewrite H2, H1; symmetry; apply app_assoc|].
  apply Forall_app. split; assumption.
Qed.

Lemma handle_lock_untouched env {X} (c : Cmd X) w :
  not_lock_command X c = true -> lock_untouched w (snd (handle env c w)).
Proof.
  destruct c; cbn; try discriminate; intros _;
    repeat match goal with
           | |- context [match ?r with Ok _ => _ | Err _ => _ end] => destruct r
           end; cbn;
    (split; [repeat split|]);
    first [ exists []; split; [symmetry; apply app_nil_r | constructor]
          | eexists [_]; split; [reflexivity | repeat constructor] ].
Qed.

Lemma run_lock_untouched env {R A} (normals : A -> Prop) (returns : R -> Prop)
    (p : Prog R A) w :
  shaped not_lock_command normals returns p -> lock_untouched w (snd (run env p w)).
Proof.
  intros Hp. revert w.
  apply (run_shaped env not_lock_command lock_untouched lock_untouched_refl
           lock_untouched_trans (fun X c w => handle_lock_untouched env c w)
           normals returns p Hp).
Qed.

(** ** [smartPush], on every run *)

(** The body of [smartPush] works on nothing of the lock, always leaves
    by a [return], and returns results of the known forms. *)
Lemma pushBody_shape allowed config lockHolder :
  (forall X (c : Cmd X), lock_command X c = false -> allowed X c = true) ->
  shaped allowed none well_formed_result (pushBody config lockHolder).
Proof.
  intros Hall.
  assert (Hp : forall R X (c : Cmd X) (returns : R -> Prop),
             lock_command X c = false -> shaped allowed any returns (perform (R := R) c))
    by (intros; apply shaped_perform; apply Hall; assumption).
  assert (Hwf : forall e, well_formed_result (result_failed e))
    by (intros e; split; [discriminate | reflexivity]).
  unfold pushBody, checkCloudState, upload, chooseTarget, toISOString,
    exists_, createDirectory, putFile, deleteFile.
  repeat first
    [ apply shaped_throw
    | apply shaped_return;
      first [ apply Hwf | exact I | split; cbn; solve [auto | discriminate] ]
    | apply Hp; reflexivity
    | apply shaped_bind; [|intros]
    | apply shaped_try_catch; [|intros]
    | apply shaped_call
    | apply shaped_pure; exact I
    | match goal with
      | |- shaped _ _ _ (if ?b then _ else _) => destruct b
      | |- shaped _ _ _ (match ?o with Some _ => _ | None => _ end) => destruct o
      | |- shaped _ _ _ (failed ?e) => destruct e; cbn [failed]
      end ].
Qed.

Lemma pushBody_returns env config lockHolder w :
  (exists r, fst (run env (pushBody config lockHolder) w) = Returned r
             /\ well_formed_result r)
  \/ fst (run env (pushBody config lockHolder) w) = Thrown (WithMessage cannot_read_message).
Proof.
  pose proof (run_shaped_completion env any_command none well_formed_result
                (pushBody config lockHolder)
                (pushBody_shape any_command config lockHolder (fun _ _ _ => eq_refl)) w)
    as Hshape.
  assert (Hthrown : forall e, fst (run env (pushBody config lockHolder) w) = Thrown e ->
                              e = WithMessage cannot_read_message).
  { intros e. unfold pushBody. rewrite run_try_catch.
    match goal with
    | |- context [run env ?body w] => destruct (run env body w) as [[a|r|[m|]] w1]
    end; cbn; congruence. }
  destruct (fst (run env (pushBody config lockHolder) w)) as [a|r|e].
  - destruct Hshape.
  - eauto.
  - right. rewrite (Hthrown e eq_refl). reflexivity.
Qed.

(** *** What is thrown carries a message *)

Lemma tm_bind {R A B} (p : Prog R A) (f : A -> Prog R B) :
  throws_messages p -> (forall a, throws_messages (f a)) -> throws_messages (bind p f).
Proof.
  intros Hp Hf. induction Hp as [a|r|m|X c k Hk IH]; cbn;
    [apply Hf | constructor | constructor | constructor; assumption].
Qed.

Lemma tm_try_catch {R A} (p : Prog R A) (h : Raised -> Prog R A) :
  throws_messages p -> (forall e, throws_messages (h e)) ->
  throws_messages (try_catch p h).
Proof.
  intros Hp Hh. induction Hp as [a|r|m|X c k Hk IH]; cbn;
    [constructor | constructor | apply Hh | constructor; assumption].
Qed.

Lemma tm_call {R A} (p : Prog A A) : throws_messages p -> throws_messages (call (R := R) p).
Proof.
  intros Hp. induction Hp as [a|r|m|X c k Hk IH]; cbn; constructor; assumption.
Qed.

Lemma tm_perform {R X} (c : Cmd X) : throws_messages (perform (R := R) c).
Proof.
  constructor. intros [x|[m|]] H; [constructor | constructor | contradiction].
Qed.

Lemma run_throws_messages env {R A} (p : Prog R A) :
  rejections_have_messages env -> throws_messages p ->
  forall w, fst (run env p w) <> Thrown Nullish.
Proof.
  intros Henv Hp. induction Hp as [a|r|m|X c k Hk IH]; intros w; cbn; try discriminate.
  pose proof (Henv X c w) as Hc.
  destruct (handle env c w) as [x w1]. apply IH. exact Hc.
Qed.

(** The body of [smartPush] inside its outer [try]: every [throw]
    written there makes an [Error]. *)
Lemma pushBody_throws_messages env config lockHolder w :
  rejections_have_messages env ->
  exists r, fst (run env (pushBody config lockHolder) w) = Returned r.
Proof.
  intros Henv.
  destruct (pushBody_returns env config lockHolder w) as [(r & Hr & _) | Hthrown];
    [eauto|].
  exfalso. revert Hthrown. unfold pushBody. rewrite run_try_catch.
  match goal with
  | |- context [run env ?body w] =>
      assert (Hbody : throws_messages body);
      [|pose proof (run_throws_messages env body Henv Hbody w) as Hno;
        destruct (run env body w) as [[a|r|[m|]] w1]; cbn; try discriminate;
        destruct (Hno eq_refl)]
  end.
  unfold checkCloudState, upload, chooseTarget, toISOString,
    exists_, createDirectory, putFile, deleteFile.
  repeat first
    [ apply tm_throw
    | apply tm_return
    | apply tm_pure
    | apply tm_perform
    | apply tm_bind; [|intros]
    | apply tm_try_catch; [|intros]
    | apply tm_call
    | match goal with
      | |- throws_messages (if ?b then _ else _) => destruct b
      | |- throws_messages (match ?o with Some _ => _ | None => _ end) => destruct o
      end ].
Qed.

(** The three ways through [smartPush]. *)
Lemma smartPush_cases env config lockHolder skipLock w :
  exec env (smartPush config lockHolder skipLock) w =
  if negb (onLine env) then (Ok result_offline, w)
  else if skipLock then finish env lockHolder true (run env (pushBody config lockHolder) w)
  else match exec env (acquireSyncLock lockHolder) w with
       | (Ok true, w1) =>
           finish env lockHolder false (run env (pushBody config lockHolder) w1)
       | (Ok false, w1) => (Ok result_locked, w1)
       | (Err e, w1) => (Err e, w1)
       end.
Proof.
  destruct (onLine env) eqn:Hon; cbn [negb].
  - destruct skipLock.
    + apply smartPush_runs_body; [assumption | reflexivity].
    + destruct (acquire_total env lockHolder w) as [b Hb].
      unfold acquireSyncLock.
      destruct (exec env (acquire lockHolder) w) as [[b'|e] w1] eqn:Hacq;
        cbn in Hb; [|discriminate].
      destruct b'.
      * apply smartPush_runs_body; [assumption | exact Hacq].
      * apply smartPush_lock_refused; [assumption | exact Hacq].
  - apply smartPush_offline. assumption.
Qed.

Lemma finish_returned env lockHolder skipLock r wb :
  finish env lockHolder skipLock (Returned r, wb)
  = (Ok r, after_finally env lockHolder skipLock wb).
Proof. reflexivity. Qed.

(** [smartPush] rejects only on a rejection without a message.  The
    promise resolves with a result of a known form (a failure with
    action "error", or one of the two successes, "skipped" and
    "uploaded", with their messages) or rejects with the [TypeError] of
    reading [message] from [null] or [undefined] in the outer [catch];
    and it resolves whenever no call of the environment is rejected with
    [null] or [undefined]. *)
Theorem smartPush_rejects_only_on_nullish (env : Env) (config : WebDAVConfig)
    (lockHolder : string) (skipLock : bool) (w : World) :
  let res := fst (exec env (smartPush config lockHolder skipLock) w) in
  ((exists r, res = Ok r /\ well_formed_result r)
   \/ res = Err (WithMessage cannot_read_message))
  /\ (rejections_have_messages env -> exists r, res = Ok r /\ well_formed_result r).
Proof.
  intros res. subst res.
  assert (Hwf : forall r, r = result_offline \/ r = result_locked -> well_formed_result r)
    by (intros r [-> | ->]; split; [discriminate | reflexivity | discriminate | reflexivity]).
  assert (Hbody : forall w1,
            let res := fst (finish env lockHolder skipLock
                              (run env (pushBody config lockHolder) w1)) in
            ((exists r, res = Ok r /\ well_formed_result r)
             \/ res = Err (WithMessage cannot_read_message))
            /\ (rejections_have_messages env ->
                exists r, res = Ok r /\ well_formed_result r)).
  { intros w1. cbv zeta.
    pose proof (pushBody_throws_messages env config lockHolder w1) as Hmsg.
    destruct (pushBody_returns env config lockHolder w1) as [(r & Hr & Hok) | Hthrown];
      destruct (run env (pushBody config lockHolder) w1) as [c wb]; cbn in *; subst c.
    - split; [left|intros _]; exists r; split; [reflexivity | assumption
                                              | reflexivity | assumption].
    - split; [right; reflexivity|].
      intros Henv. destruct (Hmsg Henv) as [r Hr]. discriminate. }
  rewrite smartPush_cases.
  destruct (negb (onLine env));
    [split; [left|intros _]; eexists; (split; [reflexivity | auto])|].
  destruct skipLock; [apply Hbody|].
  destruct (acquire_total env lockHolder w) as [b Hb]. unfold acquireSyncLock.
  destruct (exec env (acquire lockHolder) w) as [[b'|e] w1]; cbn in Hb; [|discriminate].
  destruct b'; [apply Hbody|].
  split; [left|intros _]; eexists; (split; [reflexivity | auto]).
Qed.

Lemma pushBody_lock_untouched env config lockHolder w :
  lock_untouched w (snd (run env (pushBody config lockHolder) w)).
Proof.
  apply (run_lock_untouched env none well_formed_result).
  apply pushBody_shape. intros X c Hc. unfold not_lock_command. rewrite Hc. reflexivity.
Qed.

(** The lock does not leak.  In a calm world, when the call has
    acquired the lock itself, [smartPush] ends with the slot empty and
    the remembered id reset, however its body ended: with an upload, a
    skip, a refusal or any failure of a collaborator. *)
Theorem smartPush_releases_lock (env : Env) (config : WebDAVConfig)
    (lockHolder : string) (w : World) :
  calm w -> onLine env = true ->
  fst (exec env (acquireSyncLock lockHolder) w) = Ok true ->
  let w' := snd (exec env (smartPush config lockHolder false) w) in
  lockSlot w' = None /\ activeLockId w' = None.
Proof.
  intros Hcalm Hon Hacq w'. subst w'. rewrite smartPush_cases, Hon. cbn [negb].
  unfold acquireSyncLock in *.
  destruct (exec env (acquire lockHolder) w) as [[b|e] w1] eqn:Hexec; cbn in Hacq;
    [|discriminate].
  injection Hacq as ->.
  destruct (acquire_calm_holds env lockHolder w w1 Hcalm Hexec)
    as (Hcalm1 & l & Hl & Hh & Ha).
  destruct (pushBody_lock_untouched env config lockHolder w1)
    as [(B1 & B2 & B3 & _) _].
  destruct (run env (pushBody config lockHolder) w1) as [[a|r|e] wb]; cbn in *;
    unfold after_finally, releaseSyncLock;
    (apply (release_calm_frees env lockHolder wb l);
     [eapply calm_script; [exact B3 | assumption] | congruence | assumption | congruence]).
Qed.

(** An inherited lock is left alone.  With [skipLock] set, [smartPush]
    makes no call on the lock: at the end the slot and the id the
    manager remembers are as they were, and the run has neither set nor
    removed a record in the storage. *)
Theorem smartPush_inherited_lock_untouched (env : Env) (config : WebDAVConfig)
    (lockHolder : string) (w : World) :
  let w' := snd (exec env (smartPush config lockHolder true) w) in
  lockSlot w' = lockSlot w /\ activeLockId w' = activeLockId w
  /\ exists events,
       trace w' = (trace w ++ events)%list
       /\ Forall (fun e => storage_event e = false) events.
Proof.
  assert (H : lock_untouched w (snd (exec env (smartPush config lockHolder true) w))).
  { rewrite smartPush_cases.
    destruct (negb (onLine env)); [apply lock_untouched_refl|].
    pose proof (pushBody_lock_untouched env config lockHolder w) as H.
    destruct (run env (pushBody config lockHolder) w) as [[r|r|e] wb]; exact H. }
  destruct H as [(H1 & H2 & _) H3]. auto.
Qed.

(** *** The sync state *)

Lemma handle_syncState env {X} (c : Cmd X) w :
  state_command X c = false -> syncState (snd (handle env c w)) = syncState w.
Proof.
  destruct c; cbn; try discriminate; intros _;
    repeat match goal with
           | |- context [if ?b then _ else _] => destruct b
           | |- context [match ?r with Ok _ => _ | Err _ => _ end] => destruct r
           end; reflexivity.
Qed.

Lemma run_syncState env {R A} (normals : A -> Prop) (returns : R -> Prop)
    (p : Prog R A) w :
  shaped not_state_command normals returns p ->
  syncState (snd (run env p w)) = syncState w.
Proof.
  intros Hp. revert w.
  apply (run_shaped env not_state_command
           (fun w w' => syncState w' = syncState w)
           (fun w => eq_refl)
           (fun w1 w2 w3 H1 H2 => eq_trans H2 H1)
           (fun X c w Hc => handle_syncState env c w
                              (proj1 (negb_true_iff _) Hc))
           normals returns p Hp).
Qed.

Lemma cl_bind config {A B} (p : Prog SyncResult A) (f : A -> Prog SyncResult B) :
  commits_last config p -> (forall a, commits_last config (f a)) ->
  commits_last config (bind p f).
Proof.
  intros Hp Hf.
  induction Hp as [a|r Hr|e|X c k Hc Hk IH|st k r Hst Hk Hke IH]; cbn.
  - apply Hf.
  - constructor; assumption.
  - constructor.
  - constructor; assumption.
  - apply (cl_set config st _ r); [assumption | rewrite Hk; reflexivity | assumption].
Qed.

Lemma cl_try_catch config {A} (p : Prog SyncResult A)
    (h : Raised -> Prog SyncResult A) :
  commits_last config p -> (forall e, commits_last config (h e)) ->
  commits_last config (try_catch p h).
Proof.
  intros Hp Hh.
  induction Hp as [a|r Hr|e|X c k Hc Hk IH|st k r Hst Hk Hke IH]; cbn.
  - constructor.
  - constructor; assumption.
  - apply Hh.
  - constructor; assumption.
  - apply (cl_set config st _ r); [assumption | rewrite Hk; reflexivity | assumption].
Qed.

Lemma cl_shaped config {A} (normals : A -> Prop) (p : Prog SyncResult A) :
  shaped not_state_command normals (fun r => success r = false) p ->
  commits_last config p.
Proof.
  intros Hp. induction Hp as [a Ha|r Hr|e|X c k Hc Hk IH].
  - constructor.
  - constructor; assumption.
  - constructor.
  - constructor; [apply negb_true_iff; assumption | assumption].
Qed.

Lemma cl_commit config {A} (st : SyncState) (r : SyncResult) :
  commit_of config st r ->
  commits_last config (A := A) (bind (perform (SetSyncState st)) (fun _ => Return r)).
Proof.
  intros Hst. cbn. apply (cl_set config st _ r); [assumption | reflexivity|].
  intros e. constructor.
Qed.

(** A program that commits last leaves the sync state as it was, unless
    it returns a success right after having set it. *)
Lemma run_commits_last env config {A} (p : Prog SyncResult A) :
  commits_last config p ->
  forall w,
    match run env p w with
    | (Returned r, w') =>
        (success r = false /\ syncState w' = syncState w)
        \/ (exists st, commit_of config st r /\ syncState w' = Some st)
    | (_, w') => syncState w' = syncState w
    end.
Proof.
  intros Hp.
  induction Hp as [a|r Hr|e|X c k Hc Hk IH|st k r Hst Hk Hke IH]; intros w; cbn;
    auto.
  - pose proof (handle_syncState env c w Hc) as H1.
    destruct (handle env c w) as [x w1]. cbn in H1.
    specialize (IH x w1).
    destruct (run env (k x) w1) as [[a|r|e] w']; rewrite H1 in IH; exact IH.
  - destruct (setSyncState env st) as [[]|e]; cbn.
    + rewrite Hk. cbn. right. exists st. split; [assumption | reflexivity].
    + specialize (IH e (log (EvSetSyncState st false) w)).
      destruct (run env (k (Err e)) _) as [[a|r'|e'] w']; exact IH.
Qed.

Ltac not_state_tac :=
  repeat first
    [ apply shaped_throw
    | apply shaped_pure; exact I
    | apply shaped_return; first [exact I | reflexivity]
    | apply shaped_perform; reflexivity
    | apply shaped_bind; [|intros]
    | apply shaped_try_catch; [|intros]
    | apply shaped_call
    | match goal with
      | |- shaped _ _ _ (if ?b then _ else _) => destruct b
      | |- shaped _ _ _ (match ?o with Some _ => _ | None => _ end) => destruct o
      end ].

Lemma pushBody_commits_last config lockHolder :
  commits_last config (pushBody config lockHolder).
Proof.
  assert (Hcall : forall A (p : Prog A A),
             shaped not_state_command any any p ->
             commits_last config (A := A) (call p)).
  { intros A p Hp. apply (cl_shaped config any).
    apply (shaped_call' not_state_command any any any); auto. }
  assert (Hperform : forall X (c : Cmd X),
             state_command X c = false ->
             commits_last config (A := X) (perform c)).
  { intros X c Hc. apply cl_vis; [assumption|]. intros [x|e]; constructor. }
  unfold pushBody, checkCloudState, upload, chooseTarget, toISOString.
  repeat first
    [ apply cl_throw | apply cl_pure
    | apply cl_return; reflexivity
    | apply cl_commit; split; [reflexivity | auto]
    | apply Hperform; reflexivity
    | apply Hcall;
      unfold exists_, createDirectory, putFile, deleteFile; not_state_tac
    | apply cl_bind; [|intros]
    | apply cl_try_catch; [|intros]
    | match goal with
      | |- commits_last _ (if ?b then _ else _) => destruct b
      | |- commits_last _ (match ?o with Some _ => _ | None => _ end) => destruct o
      | |- commits_last _ (failed ?e) => destruct e; cbn [failed]
      end ].
Qed.

Lemma snd_exec env {A} (p : Prog A A) w : snd (exec env p w) = snd (run env p w).
Proof. unfold exec. destruct (run env p w) as [[a|a|e] w1]; reflexivity. Qed.

(** The sync state moves only with a success.  When [smartPush]
    resolves with a failure, the persisted sync state is the one it
    found; when it resolves with a success, the sync state is the one it
    has written, for the configured url, of type "skip_identical" with
    the result "skipped" and of type "upload" with "uploaded". *)
Theorem smartPush_sync_state (env : Env) (config : WebDAVConfig)
    (lockHolder : string) (skipLock : bool) (w : World) (r : SyncResult) :
  fst (exec env (smartPush config lockHolder skipLock) w) = Ok r ->
  let w' := snd (exec env (smartPush config lockHolder skipLock) w) in
  (success r = false -> syncState w' = syncState w)
  /\ (success r = true ->
      exists st, syncState w' = Some st /\ commit_of config st r).
Proof.
  assert (Hbody : forall w1 wb c,
             syncState w1 = syncState w ->
             run env (pushBody config lockHolder) w1 = (c, wb) ->
             fst (finish env lockHolder skipLock (c, wb)) = Ok r ->
             let w' := snd (finish env lockHolder skipLock (c, wb)) in
             (success r = false -> syncState w' = syncState w)
             /\ (success r = true ->
                 exists st, syncState w' = Some st /\ commit_of config st r)).
  { intros w1 wb c Hw1 Hrun Hres.
    pose proof (run_commits_last env config _ (pushBody_commits_last config lockHolder) w1)
      as Hcl.
    destruct (pushBody_returns env config lockHolder w1) as [(r' & Hr' & _) | Hthrown];
      [|rewrite Hrun in Hthrown; cbn in Hthrown; subst c; discriminate].
    rewrite Hrun in Hcl, Hr'. cbn in Hr'. subst c. cbn in Hres. injection Hres as ->.
    cbn. rewrite (proj1 (after_finally_frame env lockHolder skipLock wb)).
    destruct Hcl as [[Hf Hs] | (st & Hst & Hs)].
    - split; [intros _; congruence | intros Ht; congruence].
    - split; [|intros _; eauto].
      intros Hf. destruct Hst as [_ [[-> _] | [-> _]]]; discriminate. }
  rewrite smartPush_cases.
  destruct (negb (onLine env)).
  { cbn. intros [= <-]. split; [reflexivity | discriminate]. }
  destruct skipLock.
  - destruct (run env (pushBody config lockHolder) w) as [c wb] eqn:Hrun.
    apply (Hbody w wb c eq_refl Hrun).
  - pose proof (acquire_frame env lockHolder w) as [Hframe _].
    unfold acquireSyncLock.
    destruct (exec env (acquire lockHolder) w) as [[[|]|e] w1] eqn:Hacq; cbn in Hframe.
    + destruct (run env (pushBody config lockHolder) w1) as [c wb] eqn:Hrun.
      apply (Hbody w1 wb c Hframe Hrun).
    + cbn. intros [= <-]. split; [intros _; assumption | discriminate].
    + discriminate.
Qed.

(** *** Upload first *)

Lemma harmless_refl w : harmless w w.
Proof.
  split; [reflexivity|]. exists []. split; [symmetry; apply app_nil_r | constructor].
Qed.

Lemma harmless_trans w1 w2 w3 : harmless w1 w2 -> harmless w2 w3 -> harmless w1 w3.
Proof.
  intros [A1 (e1 & H1 & F1)] [A2 (e2 & H2 & F2)].
  split; [congruence|].
  exists (e1 ++ e2)%list. split; [rewrite H2, H1; symmetry; apply app_assoc|].
  apply Forall_app. split; assumption.
Qed.

Lemma handle_harmless env {X} (c : Cmd X) w :
  destructive_command X c = false -> harmless w (snd (handle env c w)).
Proof.
  destruct c; cbn; try discriminate; intros Hc;
    repeat match goal with
           | |- context [if ?b then _ else _] => destruct b
           | |- context [match ?r with Ok _ => _ | Err _ => _ end] => destruct r
           end; cbn;
    (split; [reflexivity|]);
    first [ exists []; split; [symmetry; apply app_nil_r | constructor]
          | eexists [_]; split; [reflexivity | repeat constructor; cbn; try assumption] ].
Qed.

Lemma run_harmless env {R A} (normals : A -> Prop) (returns : R -> Prop)
    (p : Prog R A) w :
  shaped not_destructive_command normals returns p -> harmless w (snd (run env p w)).
Proof.
  intros Hp. revert w.
  apply (run_shaped env not_destructive_command harmless harmless_refl harmless_trans
           (fun X c w Hc => handle_harmless env c w (proj1 (negb_true_iff _) Hc))
           normals returns p Hp).
Qed.

Lemma harmless_stored_first w1 w2 w3 :
  harmless w1 w2 -> stored_first w2 w3 -> stored_first w1 w3.
Proof.
  intros [_ (e1 & H1 & F1)] (before & e & after & H2 & He & F2).
  exists (e1 ++ before)%list, e, after. split; [|split; [assumption|]].
  - rewrite H2, H1. rewrite <- !app_assoc. reflexivity.
  - apply Forall_app. split; assumption.
Qed.

Lemma stored_first_extends w1 w2 w3 :
  stored_first w1 w2 -> (exists events, trace w3 = (trace w2 ++ events)%list) ->
  stored_first w1 w3.
Proof.
  intros (before & e & after & H2 & He & F2) [ev H3].
  exists before, e, (after ++ ev)%list. split; [|split; assumption].
  rewrite H3, H2. rewrite <- !app_assoc. reflexivity.
Qed.

Lemma accepts_event env {X} (c : Cmd X) w :
  accepts c (fst (handle env c w)) = true ->
  exists e, trace (snd (handle env c w)) = (trace w ++ [e])%list
            /\ accepted_put e = true.
Proof.
  destruct c; cbn; try discriminate.
  destruct (fetch env req) as [response|e] eqn:Hf; [|discriminate].
  intros H. eexists. split; [reflexivity|]. cbn. exact H.
Qed.

Lemma pf_bind {A B} (p : Prog SyncResult A) (f : A -> Prog SyncResult B) :
  put_first p -> (forall a, put_first (f a)) -> put_first (bind p f).
Proof.
  intros Hp Hf. induction Hp as [a|r Hr|e|X c k Hc Hk IH]; cbn;
    [apply Hf | constructor; assumption | constructor | constructor; assumption].
Qed.

Lemma pf_try_catch {A} (p : Prog SyncResult A) (h : Raised -> Prog SyncResult A) :
  put_first p -> (forall e, put_first (h e)) -> put_first (try_catch p h).
Proof.
  intros Hp Hh. induction Hp as [a|r Hr|e|X c k Hc Hk IH]; cbn;
    [constructor | constructor; assumption | apply Hh | constructor; assumption].
Qed.

Lemma pf_shaped {A} (normals : A -> Prop) (p : Prog SyncResult A) :
  shaped not_destructive_command normals (fun r => action r <> action_uploaded) p ->
  put_first p.
Proof.
  intros Hp. induction Hp as [a Ha|r Hr|e|X c k Hc Hk IH].
  - constructor.
  - constructor; assumption.
  - constructor.
  - constructor; [apply negb_true_iff; assumption | auto].
Qed.

(** What follows [putFile] runs only when the PUT was accepted. *)
Lemma pf_after_put {B} config path content (rest : unit -> Prog SyncResult B) :
  put_first (bind (call (putFile config path content)) rest).
Proof.
  unfold putFile. cbn. apply pf_vis; [reflexivity|].
  intros [response|e]; cbn; [|constructor].
  intros Hok. change (ok response = false) in Hok. rewrite Hok. constructor.
Qed.

(** A program that puts first has, when it ends, either had a PUT
    accepted with nothing destructive before it, or done nothing
    destructive at all and not returned "uploaded". *)
Lemma run_put_first env {A} (p : Prog SyncResult A) :
  put_first p ->
  forall w,
    stored_first w (snd (run env p w))
    \/ (harmless w (snd (run env p w))
        /\ forall r, fst (run env p w) = Returned r -> action r <> action_uploaded).
Proof.
  intros Hp. induction Hp as [a|r Hr|e|X c k Hc Hk IH]; intros w; cbn.
  - right. split; [apply harmless_refl | discriminate].
  - right. split; [apply harmless_refl | intros r' [= <-]; assumption].
  - right. split; [apply harmless_refl | discriminate].
  - pose proof (handle_harmless env c w Hc) as H1.
    pose proof (accepts_event env c w) as Hacc.
    destruct (handle env c w) as [x w1]. cbn in H1, Hacc.
    destruct (accepts c x) eqn:Hx.
    + left. destruct (Hacc eq_refl) as (e & He & Hput).
      apply (stored_first_extends w w1); [|apply run_trace_extends].
      exists [], e, []. split; [exact He | split; [assumption | constructor]].
    + destruct (IH x Hx w1) as [Hs | [Hh Hr]].
      * left. eapply harmless_stored_first; eassumption.
      * right. split; [eapply harmless_trans; eassumption | assumption].
Qed.

Ltac not_destructive_tac :=
  repeat first
    [ apply shaped_throw
    | apply shaped_pure; exact I
    | apply shaped_return; first [exact I | discriminate]
    | apply shaped_perform; reflexivity
    | apply shaped_bind; [|intros]
    | apply shaped_try_catch; [|intros]
    | apply shaped_call
    | match goal with
      | |- shaped _ _ _ (if ?b then _ else _) => destruct b
      | |- shaped _ _ _ (match ?o with Some _ => _ | None => _ end) => destruct o
      end ].

Lemma pushBody_put_first config lockHolder : put_first (pushBody config lockHolder).
Proof.
  assert (Hperform : forall X (c : Cmd X),
             destructive_command X c = false -> put_first (A := X) (perform c)).
  { intros X c Hc. apply pf_vis; [assumption|]. intros [x|e] _; constructor. }
  assert (Hquiet : forall A (p : Prog A A),
             shaped not_destructive_command any any p -> put_first (A := A) (call p)).
  { intros A p Hp. apply (pf_shaped any).
    apply (shaped_call' not_destructive_command any any any); auto. }
  unfold pushBody, checkCloudState, upload, chooseTarget, toISOString.
  repeat first
    [ apply pf_throw | apply pf_pure
    | apply pf_return; discriminate
    | apply pf_after_put
    | apply Hperform; reflexivity
    | apply Hquiet; unfold exists_, createDirectory; not_destructive_tac
    | apply pf_bind; [|intros]
    | apply pf_try_catch; [|intros]
    | match goal with
      | |- put_first (if ?b then _ else _) => destruct b
      | |- put_first (match ?o with Some _ => _ | None => _ end) => destruct o
      | |- put_first (failed ?e) => destruct e; cbn [failed]
      end ].
Qed.

Lemma acquire_harmless env who w : harmless w (snd (exec env (acquire who) w)).
Proof.
  rewrite snd_exec. apply (run_harmless env any any).
  unfold acquire. not_destructive_tac.
Qed.

Lemma release_harmless env who w : harmless w (snd (exec env (release who) w)).
Proof.
  rewrite snd_exec. apply (run_harmless env any any).
  unfold release. not_destructive_tac.
Qed.

Lemma after_finally_harmless env lockHolder skipLock wb :
  harmless wb (after_finally env lockHolder skipLock wb).
Proof.
  unfold after_finally. destruct skipLock; [apply harmless_refl | apply release_harmless].
Qed.

(** Upload first, on every run.  Whatever happens, [smartPush] sends no
    DELETE request, does not call [cleanOldBackups] and does not move
    the record of the last backup file before a PUT of its own has been
    answered with success, and it resolves with "uploaded" only after
    such a PUT. *)
Theorem smartPush_stores_before_it_removes (env : Env) (config : WebDAVConfig)
    (lockHolder : string) (skipLock : bool) (w : World) :
  let res := fst (exec env (smartPush config lockHolder skipLock) w) in
  let w' := snd (exec env (smartPush config lockHolder skipLock) w) in
  stored_first w w'
  \/ (harmless w w' /\ res <> Ok result_uploaded).
Proof.
  assert (Hbody : forall w1,
             harmless w w1 ->
             let end_of_body := run env (pushBody config lockHolder) w1 in
             stored_first w (snd (finish env lockHolder skipLock end_of_body))
             \/ (harmless w (snd (finish env lockHolder skipLock end_of_body))
                 /\ fst (finish env lockHolder skipLock end_of_body)
                    <> Ok result_uploaded)).
  { intros w1 Hw1 end_of_body. subst end_of_body.
    pose proof (run_put_first env _ (pushBody_put_first config lockHolder) w1) as Hpf.
    destruct (pushBody_returns env config lockHolder w1) as [(r & Hr & _) | Hr];
      destruct (run env (pushBody config lockHolder) w1) as [c wb]; cbn in Hr; subst c;
      cbn in *;
      pose proof (after_finally_harmless env lockHolder skipLock wb) as Hfin;
      (destruct Hpf as [Hs | [Hh Hnot]];
       [left; eapply harmless_stored_first; [exact Hw1|];
        eapply stored_first_extends; [exact Hs|];
        destruct Hfin as [_ (ev & Hev & _)]; eauto
       |right; split;
        [eapply harmless_trans; [exact Hw1|]; eapply harmless_trans; eassumption|]]).
    - intros [= ->]. apply (Hnot result_uploaded eq_refl). reflexivity.
    - discriminate. }
  cbv zeta. rewrite smartPush_cases.
  destruct (negb (onLine env)).
  { right. split; [apply harmless_refl | discriminate]. }
  destruct skipLock.
  - apply Hbody. apply harmless_refl.
  - pose proof (acquire_harmless env lockHolder w) as Hacq. unfold acquireSyncLock.
    destruct (exec env (acquire lockHolder) w) as [[[|]|e] w1]; cbn in Hacq.
    + apply Hbody. assumption.
    + right. split; [assumption | discriminate].
    + right. split; [assumption | discriminate].
Qed.

(** *** A skip writes nothing *)

Section PushBodyCases.
Local Opaque checkCloudState upload.

Lemma pushBody_no_tree env config lockHolder w e :
  getTree env = Err e ->
  run env (pushBody config lockHolder) w = caught e w.
Proof.
  intros Ht. unfold pushBody. rewrite run_try_catch. cbn. rewrite Ht. cbn.
  apply run_failed.
Qed.

Lemma pushBody_no_bookmark env config lockHolder w tree :
  getTree env = Ok tree -> countBookmarks tree = 0 ->
  run env (pushBody config lockHolder) w = (Returned result_empty, w).
Proof.
  intros Ht Hc. unfold pushBody. rewrite run_try_catch. cbn. rewrite Ht. cbn.
  rewrite Hc. reflexivity.
Qed.
End PushBodyCases.

Lemma upload_never_skips config :
  shaped any_command any (fun r => action r <> action_skipped) (upload config).
Proof.
  unfold upload, chooseTarget.
  repeat first
    [ apply shaped_throw
    | apply shaped_pure; exact I
    | apply shaped_return; discriminate
    | apply shaped_perform; reflexivity
    | apply shaped_call; apply shaped_anything
    | apply shaped_bind; [|intros]
    | apply shaped_try_catch; [|intros]
    | match goal with
      | |- shaped _ _ _ (if ?b then _ else _) => destruct b
      | |- shaped _ _ _ (match ?o with Some _ => _ | None => _ end) => destruct o
      end ].
Qed.

Lemma pushBody_skip_no_remote_write env config lockHolder w r wb :
  run env (pushBody config lockHolder) w = (Returned r, wb) ->
  action r = action_skipped ->
  no_remote_write w wb.
Proof.
  intros Hrun Hskip.
  destruct (getTree env) as [tree|e] eqn:Ht.
  2:{ rewrite (pushBody_no_tree env config lockHolder w e Ht) in Hrun.
      destruct e as [m|]; cbn in Hrun; [|discriminate].
      injection Hrun as <- <-. discriminate. }
  destruct (Z.eq_dec (countBookmarks tree) 0) as [Hc|Hc].
  { rewrite (pushBody_no_bookmark env config lockHolder w tree Ht Hc) in Hrun.
    injection Hrun as <- <-. discriminate. }
  rewrite (pushBody_run env config lockHolder w tree Ht Hc) in Hrun.
  pose proof (run_remote_free env _ (checkCloudState_remote_free config lockHolder tree)
                (after_snapshot env lockHolder tree w)) as Hcheck.
  destruct (run env (checkCloudState config lockHolder tree) _) as [[[]|r'|e] w3].
  - pose proof (run_shaped_completion env any_command any _ _
                  (upload_never_skips config) w3) as Hup.
    destruct (run env (upload config) w3) as [[a|r'|[m|]] w4]; cbn in Hup, Hrun;
      try discriminate; injection Hrun as <- <-; try contradiction.
    discriminate.
  - injection Hrun as <- <-. cbn in Hcheck.
    eapply no_remote_write_trans; [|exact Hcheck].
    eapply no_remote_write_log; [|reflexivity]. reflexivity.
  - destruct e as [m|]; cbn in Hrun; [|discriminate].
    injection Hrun as <- <-. discriminate.
Qed.

(** A skip writes nothing to the server.  Whenever [smartPush] resolves
    with the action "skipped", the run has made no PUT, DELETE or MKCOL
    request and has not called [cleanOldBackups]. *)
Theorem smartPush_skip_leaves_remote_alone (env : Env) (config : WebDAVConfig)
    (lockHolder : string) (skipLock : bool) (w : World) (r : SyncResult) :
  fst (exec env (smartPush config lockHolder skipLock) w) = Ok r ->
  action r = action_skipped ->
  no_remote_write w (snd (exec env (smartPush config lockHolder skipLock) w)).
Proof.
  assert (Hbody : forall w1,
             no_remote_write w w1 ->
             let end_of_body := run env (pushBody config lockHolder) w1 in
             fst (finish env lockHolder skipLock end_of_body) = Ok r ->
             action r = action_skipped ->
             no_remote_write w (snd (finish env lockHolder skipLock end_of_body))).
  { intros w1 Hw1 end_of_body Hres Hskip. subst end_of_body.
    destruct (pushBody_returns env config lockHolder w1) as [(r' & Hr' & _) | Hr'];
      destruct (run env (pushBody config lockHolder) w1) as [c wb] eqn:Hrun;
      cbn in Hr'; subst c; cbn in Hres; [|discriminate].
    injection Hres as ->. cbn.
    eapply no_remote_write_trans; [exact Hw1|].
    eapply no_remote_write_trans;
      [exact (pushBody_skip_no_remote_write env config lockHolder w1 r wb Hrun Hskip)|].
    apply after_finally_no_remote_write. }
  rewrite smartPush_cases.
  destruct (negb (onLine env)).
  { cbn. intros [= <-]. discriminate. }
  destruct skipLock.
  - apply Hbody. apply no_remote_write_refl.
  - pose proof (acquire_no_remote_write env lockHolder w) as Hacq. unfold acquireSyncLock.
    destruct (exec env (acquire lockHolder) w) as [[[|]|e] w1]; cbn in Hacq.
    + apply Hbody. assumption.
    + cbn. intros [= <-]. discriminate.
    + discriminate.
Qed.

(** *** The early exits *)

(** The exits before the body.  Offline, [smartPush] resolves with
    "网络断开" and nothing has happened: no look at the lock, no request.
    Online and with a fresh lock in the slot, of whatever holder, it
    resolves with "同步正在进行中" after the one read of the slot: the
    [finally] is not entered, so [release] is not called and the lock of
    the operation in progress stays. *)
Theorem smartPush_early_exits (env : Env) (config : WebDAVConfig)
    (lockHolder : string) (skipLock : bool) (w : World) :
  (onLine env = false ->
   exec env (smartPush config lockHolder skipLock) w = (Ok result_offline, w))
  /\ (forall l,
        onLine env = true -> skipLock = false ->
        rejects (next_await w) = false ->
        lockSlot (resume 0 w) = Some l ->
        clock (resume 0 w) - timestamp l < LOCK_TIMEOUT_MS ->
        exec env (smartPush config lockHolder skipLock) w
        = (Ok result_locked, resume 0 w)).
Proof.
  split.
  - apply smartPush_offline.
  - intros l Hon -> Hr Hl Hage. apply smartPush_lock_refused; [assumption|].
    unfold acquireSyncLock, exec, acquire. cbn. rewrite Hr. cbn. rewrite Hl. cbn.
    apply Z.ltb_lt in Hage. rewrite Hage. reflexivity.
Qed.

Lemma smartPush_early_exits_witness :
  exec env_demo (smartPush config_demo "manual" false) world_stale
  = (Ok result_locked, resume 0 world_stale).
Proof.
  apply (proj2 (smartPush_early_exits env_demo config_demo "manual" false world_stale)
           lock_new); reflexivity.
Defined.

(** *** A cloud check that fails *)

Lemma handle_without_cloud env {X} (c : Cmd X) w :
  latest_command X c = false -> handle (without_cloud env) c w = handle env c w.
Proof. destruct c; cbn; try discriminate; reflexivity. Qed.

Lemma run_without_cloud env {R A} (normals : A -> Prop) (returns : R -> Prop)
    (p : Prog R A) :
  shaped not_latest_command normals returns p ->
  forall w, run (without_cloud env) p w = run env p w.
Proof.
  intros Hp. induction Hp as [a Ha|r Hr|e|X c k Hc Hk IH]; intros w; cbn;
    try reflexivity.
  rewrite (handle_without_cloud env c w (proj1 (negb_true_iff _) Hc)).
  destruct (handle env c w) as [x w1]. apply IH.
Qed.

Lemma exec_without_cloud env {A} (p : Prog A A) w :
  shaped not_latest_command any any p ->
  exec (without_cloud env) p w = exec env p w.
Proof. intros Hp. unfold exec. rewrite (run_without_cloud env any any p Hp). reflexivity. Qed.

Ltac not_latest_tac :=
  repeat first
    [ apply shaped_throw
    | apply shaped_pure; exact I
    | apply shaped_return; exact I
    | apply shaped_perform; reflexivity
    | apply shaped_bind; [|intros]
    | apply shaped_try_catch; [|intros]
    | apply shaped_call
    | match goal with
      | |- shaped _ _ _ (if ?b then _ else _) => destruct b
      | |- shaped _ _ _ (match ?o with Some _ => _ | None => _ end) => destruct o
      end ].

Lemma acquire_without_cloud env who w :
  exec (without_cloud env) (acquire who) w = exec env (acquire who) w.
Proof. apply exec_without_cloud. unfold acquire. not_latest_tac. Qed.

Lemma release_without_cloud env who w :
  exec (without_cloud env) (release who) w = exec env (release who) w.
Proof. apply exec_without_cloud. unfold release. not_latest_tac. Qed.

Lemma upload_without_cloud env config w :
  run (without_cloud env) (upload config) w = run env (upload config) w.
Proof.
  apply (run_without_cloud env any any).
  unfold upload, chooseTarget, exists_, createDirectory, putFile, deleteFile.
  not_latest_tac.
Qed.

Lemma checkCloudState_no_cloud env config lockHolder tree w :
  run (without_cloud env) (checkCloudState config lockHolder tree) w = (Normal tt, w).
Proof. reflexivity. Qed.

Lemma checkCloudState_unreadable env config lockHolder tree w :
  cloud_unreadable env ->
  run env (checkCloudState config lockHolder tree) w = (Normal tt, w).
Proof.
  unfold cloud_unreadable, checkCloudState. cbn.
  destruct (getLatestBackupFile env) as [[path|]|e]; cbn; try reflexivity.
  intros [-> | H]; [reflexivity|].
  destruct (truthy path); cbn; [|reflexivity].
  destruct (getFileWithDedup env path) as [[json|]|e]; cbn; try reflexivity.
  destruct H as [-> | [e He]]; [reflexivity|].
  destruct (truthy json); cbn; [|reflexivity].
  rewrite He. reflexivity.
Qed.

Lemma pushBody_without_cloud env config lockHolder w :
  cloud_unreadable env ->
  run (without_cloud env) (pushBody config lockHolder) w
  = run env (pushBody config lockHolder) w.
Proof.
  intros Hcloud.
  destruct (getTree env) as [tree|e] eqn:Ht.
  2:{ rewrite (pushBody_no_tree env config lockHolder w e Ht).
      apply (pushBody_no_tree (without_cloud env) config lockHolder w e Ht). }
  destruct (Z.eq_dec (countBookmarks tree) 0) as [Hc|Hc].
  { rewrite (pushBody_no_bookmark env config lockHolder w tree Ht Hc).
    apply (pushBody_no_bookmark (without_cloud env) config lockHolder w tree Ht Hc). }
  rewrite (pushBody_run env config lockHolder w tree Ht Hc).
  rewrite (pushBody_run (without_cloud env) config lockHolder w tree Ht Hc).
  rewrite checkCloudState_no_cloud.
  rewrite (checkCloudState_unreadable env config lockHolder tree _ Hcloud).
  change (after_snapshot (without_cloud env) lockHolder tree w)
    with (after_snapshot env lockHolder tree w).
  rewrite upload_without_cloud. reflexivity.
Qed.

Lemma smartPush_without_cloud (env : Env) (config : WebDAVConfig)
    (lockHolder : string) (skipLock : bool) (w : World) :
  cloud_unreadable env ->
  exec env (smartPush config lockHolder skipLock) w
  = exec (without_cloud env) (smartPush config lockHolder skipLock) w.
Proof.
  intros Hcloud. rewrite !smartPush_cases.
  change (onLine (without_cloud env)) with (onLine env).
  destruct (negb (onLine env)); [reflexivity|].
  assert (Hfin : forall skip end_of_body,
             finish (without_cloud env) lockHolder skip end_of_body
             = finish env lockHolder skip end_of_body).
  { intros skip [[r|r|e] wb]; cbn; unfold after_finally, releaseSyncLock;
      destruct skip; try reflexivity; rewrite release_without_cloud; reflexivity. }
  destruct skipLock.
  - rewrite Hfin, (pushBody_without_cloud env config lockHolder w Hcloud). reflexivity.
  - unfold acquireSyncLock. rewrite acquire_without_cloud.
    destruct (exec env (acquire lockHolder) w) as [[[|]|e] w1]; try reflexivity.
    rewrite Hfin, (pushBody_without_cloud env config lockHolder w1 Hcloud). reflexivity.
Qed.

(** A cloud check that cannot be made counts as "no backup in the
    cloud".  When the listing of the backups fails or finds nothing,
    when the download fails or is empty, or when the text is not JSON,
    [smartPush] ends as it does when the cloud holds no backup at all:
    with the same result, the same sync state and record of the last
    backup file, the same state of the lock, and the same writes to the
    server in the same order.  In particular it goes on to the upload,
    for automatic holders too.  (The requests by which the listing and
    the download read the cloud are made by the collaborators and are
    not compared.) *)
Theorem smartPush_unreadable_cloud (env : Env) (config : WebDAVConfig)
    (lockHolder : string) (skipLock : bool) (w : World) :
  cloud_unreadable env ->
  let res := fst (exec env (smartPush config lockHolder skipLock) w) in
  let w' := snd (exec env (smartPush config lockHolder skipLock) w) in
  let res0 := fst (exec (without_cloud env) (smartPush config lockHolder skipLock) w) in
  let w0 := snd (exec (without_cloud env) (smartPush config lockHolder skipLock) w) in
  res = res0
  /\ syncState w' = syncState w0
  /\ lastBackupFileInfo w' = lastBackupFileInfo w0
  /\ lockSlot w' = lockSlot w0 /\ activeLockId w' = activeLockId w0
  /\ filter (fun e => remote_write e = true) (trace w')
     = filter (fun e => remote_write e = true) (trace w0).
Proof.
  intros Hcloud. cbv zeta.
  rewrite (smartPush_without_cloud env config lockHolder skipLock w Hcloud).
  repeat split; reflexivity.
Qed.

(** *** The upload stage *)

Section UploadStage.
Variables (env : Env) (config : WebDAVConfig) (w3 : World).
Variables (backup : CloudBackup) (m : BackupMetadata) (rdir : Response).
Variables (minutes : Z) (lastInfo : option BackupFileInfo) (content : string).

Hypothesis Hbackup : createCloudBackup env = Ok (Some backup).
Hypothesis Hmeta : metadata backup = Some m.
Hypothesis Hdata : data backup <> [].
Hypothesis Hdir : fetch env (request config PROPFIND DIR (Some "0") None) = Ok rdir.
Hypothesis Hdir_ok : ok rdir || (status rdir =? 207) = true.
Hypothesis Hminutes : getBackupFileInterval env = Ok minutes.
Hypothesis Hinfo : getLastBackupFileInfo env = Ok lastInfo.
Hypothesis Hcompress : compressText_answer env (JSON_stringify env backup) = Ok content.

Let dirReq := request config PROPFIND DIR (Some "0") None.

Lemma upload_data_nonempty : (length (data backup) =? 0)%nat = false.
Proof. destruct (data backup); [contradiction | reflexivity]. Qed.

(** Outside the window: PUT, record, clean-up, then the common end. *)
Lemma upload_new_file_run rput :
  in_window lastInfo (clock w3) minutes = false ->
  let saved := new_info env backup (clock w3) in
  let putReq := request config PUT (filePath saved) None (Some content) in
  fetch env putReq = Ok rput -> ok rput = true ->
  run env (upload config) w3 =
  let w5 := after_save env saved
              (log (EvFetch putReq (Ok rput)) (log (EvFetch dirReq (Ok rdir)) w3)) in
  match cleanOldBackups env with
  | Err e => (Thrown e, log (EvCleanOldBackups 3 false) w5)
  | Ok _ => after_stored env config (clock w3) (log (EvCleanOldBackups 3 true) w5)
  end.
Proof.
  intros Hwin saved putReq Hput Hok. subst saved putReq.
  unfold upload. cbn. rewrite Hbackup. cbn. rewrite Hmeta. cbn.
  rewrite upload_data_nonempty. cbn.
  rewrite Hdir. cbn. rewrite Hdir_ok. cbn.
  rewrite Hminutes. cbn. rewrite Hinfo. cbn.
  unfold chooseTarget, in_window in *.
  unfold new_info, new_name, after_save, after_stored, upload_state in *.
  cbn [filePath] in Hput.
  destruct lastInfo as [info|]; cbn;
    [rewrite Hwin; cbn|];
    rewrite Hcompress; cbn; rewrite Hput; cbn; rewrite Hok; cbn;
    destruct (saveLastBackupFileInfo env _) as [[]|e1]; cbn;
    destruct (cleanOldBackups env) as [[]|e2]; cbn; try reflexivity;
    destruct (clearBackupListCache env) as [[]|e3]; cbn; try reflexivity;
    destruct (setSyncState env _) as [[]|e4]; cbn; reflexivity.
Qed.

(** Inside the window: PUT, DELETE of the previous file, record, then
    the common end; no clean-up. *)
Lemma upload_replace_run info rput :
  lastInfo = Some info ->
  in_window lastInfo (clock w3) minutes = true ->
  filePath info <> "" ->
  let saved := replace_info env backup info (clock w3) in
  let putReq := request config PUT (filePath saved) None (Some content) in
  let delReq := request config DELETE (filePath info) None None in
  fetch env putReq = Ok rput -> ok rput = true ->
  run env (upload config) w3 =
  after_stored env config (clock w3)
    (after_save env saved
       (log (EvFetch delReq (fetch env delReq))
          (log (EvFetch putReq (Ok rput)) (log (EvFetch dirReq (Ok rdir)) w3)))).
Proof.
  intros Hlast Hwin Hold saved putReq delReq Hput Hok. subst saved putReq delReq.
  unfold upload. cbn. rewrite Hbackup. cbn. rewrite Hmeta. cbn.
  rewrite upload_data_nonempty. cbn.
  rewrite Hdir. cbn. rewrite Hdir_ok. cbn.
  rewrite Hminutes. cbn. rewrite Hinfo. cbn.
  unfold chooseTarget, in_window in *. rewrite Hlast in *. cbn. rewrite Hwin. cbn.
  unfold replace_info, replace_path, after_save, after_stored, upload_state in *.
  cbn [filePath] in Hput.
  rewrite Hcompress. cbn. rewrite Hput. cbn. rewrite Hok. cbn.
  rewrite (truthy_nonempty _ Hold). cbn.
  destruct (fetch env (request config DELETE (filePath info) None None)) as [rdel|e0];
    cbn; [destruct (negb (ok rdel) && negb (status rdel =? 404)); cbn|];
    destruct (saveLastBackupFileInfo env _) as [[]|e1]; cbn;
    destruct (clearBackupListCache env) as [[]|e3]; cbn; try reflexivity;
    destruct (setSyncState env _) as [[]|e4]; cbn; reflexivity.
Qed.
End UploadStage.

Ltac after_finally_events W ev E F :=
  match goal with
  | |- context [after_finally ?env ?h ?s W] =>
      destruct (after_finally_no_remote_write env h s W) as (ev & E & F);
      pose proof (after_finally_frame env h s W) as [? ?]
  end.

(** A first file or a file outside the window.  When the push gets to
    its upload stage with no record of a last backup file, or with one
    whose window has passed, and every call it makes succeeds, it stores
    the new file with a PUT, records it as revision 1 created now, calls
    [cleanOldBackups(3)] after the PUT, and sends no DELETE request of
    its own; it resolves with "uploaded". *)
Theorem push_new_file_bookkeeping (env : Env) (config : WebDAVConfig)
    (lockHolder : string) (skipLock : bool) (w w3 : World)
    (backup : CloudBackup) (m : BackupMetadata) (rdir rput : Response)
    (minutes : Z) (lastInfo : option BackupFileInfo) (content : string) :
  reaches_upload env config lockHolder skipLock w w3 ->
  createCloudBackup env = Ok (Some backup) ->
  metadata backup = Some m -> data backup <> [] ->
  fetch env (request config PROPFIND DIR (Some "0") None) = Ok rdir ->
  ok rdir || (status rdir =? 207) = true ->
  getBackupFileInterval env = Ok minutes ->
  getLastBackupFileInfo env = Ok lastInfo ->
  in_window lastInfo (clock w3) minutes = false ->
  compressText_answer env (JSON_stringify env backup) = Ok content ->
  let saved := new_info env backup (clock w3) in
  let dirReq := request config PROPFIND DIR (Some "0") None in
  let putReq := request config PUT (filePath saved) None (Some content) in
  fetch env putReq = Ok rput -> ok rput = true ->
  saveLastBackupFileInfo env saved = Ok tt ->
  cleanOldBackups env = Ok tt ->
  clearBackupListCache env = Ok tt ->
  setSyncState env (upload_state config (clock w3)) = Ok tt ->
  let res := fst (exec env (smartPush config lockHolder skipLock) w) in
  let w' := snd (exec env (smartPush config lockHolder skipLock) w) in
  res = Ok result_uploaded
  /\ lastBackupFileInfo w' = Some saved
  /\ exists after,
       trace w' = (trace w3 ++
                   [EvFetch dirReq (Ok rdir); EvFetch putReq (Ok rput);
                    EvSaveLastBackupFileInfo saved true;
                    EvCleanOldBackups 3 true;
                    EvClearBackupListCache true;
                    EvSetSyncState (upload_state config (clock w3)) true]
                   ++ after)%list
       /\ Forall (fun e => remote_write e = false) after.
Proof.
  intros Hreach Hbackup Hmeta Hdata Hdir Hdir_ok Hmin Hinfo Hwin Hcomp
         saved dirReq putReq Hput Hok Hsave Hclean Hclear Hsync res w'.
  subst res w'. rewrite (reaches_upload_exec _ _ _ _ _ _ Hreach).
  rewrite (upload_new_file_run env config w3 backup m rdir minutes lastInfo content
             Hbackup Hmeta Hdata Hdir Hdir_ok Hmin Hinfo Hcomp rput Hwin Hput Hok).
  fold saved putReq dirReq.
  unfold after_save, after_stored. rewrite Hclean, Hsave, Hclear, Hsync. cbn.
  match goal with
  | |- context [after_finally env lockHolder skipLock ?W] =>
      after_finally_events W ev E F
  end.
  split; [reflexivity|]. split; [assumption|].
  exists ev. split; [|assumption].
  rewrite E. cbn. rewrite <- !app_assoc. reflexivity.
Qed.

(** A file inside the window.  When the push gets to its upload stage
    inside the window of the last backup file and every call it makes
    succeeds, the record it saves carries the next revision number and
    keeps the creation time of the file it replaces (so the window does
    not move), and [cleanOldBackups] is not called. *)
Theorem push_replace_bookkeeping (env : Env) (config : WebDAVConfig)
    (lockHolder : string) (skipLock : bool) (w w3 : World)
    (backup : CloudBackup) (m : BackupMetadata) (rdir rput : Response)
    (minutes : Z) (info : BackupFileInfo) (content : string) :
  reaches_upload env config lockHolder skipLock w w3 ->
  createCloudBackup env = Ok (Some backup) ->
  metadata backup = Some m -> data backup <> [] ->
  fetch env (request config PROPFIND DIR (Some "0") None) = Ok rdir ->
  ok rdir || (status rdir =? 207) = true ->
  getBackupFileInterval env = Ok minutes ->
  getLastBackupFileInfo env = Ok (Some info) ->
  in_window (Some info) (clock w3) minutes = true ->
  filePath info <> "" ->
  compressText_answer env (JSON_stringify env backup) = Ok content ->
  let saved := replace_info env backup info (clock w3) in
  let dirReq := request config PROPFIND DIR (Some "0") None in
  let putReq := request config PUT (filePath saved) None (Some content) in
  let delReq := request config DELETE (filePath info) None None in
  fetch env putReq = Ok rput -> ok rput = true ->
  saveLastBackupFileInfo env saved = Ok tt ->
  clearBackupListCache env = Ok tt ->
  setSyncState env (upload_state config (clock w3)) = Ok tt ->
  let res := fst (exec env (smartPush config lockHolder skipLock) w) in
  let w' := snd (exec env (smartPush config lockHolder skipLock) w) in
  res = Ok result_uploaded
  /\ lastBackupFileInfo w' = Some saved
  /\ revisionNumber saved = revisionNumber info + 1
  /\ (createdAt info <> 0 -> createdAt saved = createdAt info)
  /\ exists after,
       trace w' = (trace w3 ++
                   [EvFetch dirReq (Ok rdir); EvFetch putReq (Ok rput);
                    EvFetch delReq (fetch env delReq);
                    EvSaveLastBackupFileInfo saved true;
                    EvClearBackupListCache true;
                    EvSetSyncState (upload_state config (clock w3)) true]
                   ++ after)%list
       /\ Forall (fun e => remote_write e = false) after.
Proof.
  intros Hreach Hbackup Hmeta Hdata Hdir Hdir_ok Hmin Hinfo Hwin Hold Hcomp
         saved dirReq putReq delReq Hput Hok Hsave Hclear Hsync res w'.
  subst res w'. rewrite (reaches_upload_exec _ _ _ _ _ _ Hreach).
  rewrite (upload_replace_run env config w3 backup m rdir minutes (Some info) content
             Hbackup Hmeta Hdata Hdir Hdir_ok Hmin Hinfo Hcomp info rput
             eq_refl Hwin Hold Hput Hok).
  fold saved putReq dirReq delReq.
  unfold after_save, after_stored. rewrite Hsave, Hclear, Hsync. cbn.
  match goal with
  | |- context [after_finally env lockHolder skipLock ?W] =>
      after_finally_events W ev E F
  end.
  split; [reflexivity|]. split; [assumption|]. split; [reflexivity|]. split.
  - intros Hne. cbn. destruct (Z.eqb_spec (createdAt info) 0); [contradiction | reflexivity].
  - exists ev. split; [|assumption].
    rewrite E. cbn. rewrite <- !app_assoc. reflexivity.
Qed.


Lemma upload_no_backup env config w :
  (createCloudBackup env = Ok None
   \/ exists backup, createCloudBackup env = Ok (Some backup) /\ metadata backup = None) ->
  run env (upload config) w = (Returned result_invalid_backup, w).
Proof.
  intros [H | (backup & H & Hm)]; unfold upload; cbn; rewrite H; cbn;
    [reflexivity | rewrite Hm; reflexivity].
Qed.

Lemma upload_no_data env config w backup m :
  createCloudBackup env = Ok (Some backup) -> metadata backup = Some m ->
  data backup = [] ->
  run env (upload config) w = (Returned result_empty_backup, w).
Proof.
  intros H Hm Hd. unfold upload. cbn. rewrite H. cbn. rewrite Hm, Hd. reflexivity.
Qed.

(** An archive that cannot be uploaded.  When the push gets to its
    upload stage and [createCloudBackup] gives nothing, or an archive
    without metadata, it resolves with "生成的备份数据无效"; when the
    archive holds an empty tree, with "书签数据为空，无法上传".  In both
    cases the run makes no request that writes. *)
Theorem push_invalid_backup (env : Env) (config : WebDAVConfig)
    (lockHolder : string) (skipLock : bool) (w w3 : World) :
  reaches_upload env config lockHolder skipLock w w3 ->
  let res := fst (exec env (smartPush config lockHolder skipLock) w) in
  let w' := snd (exec env (smartPush config lockHolder skipLock) w) in
  ((createCloudBackup env = Ok None
    \/ exists backup, createCloudBackup env = Ok (Some backup) /\ metadata backup = None) ->
   res = Ok result_invalid_backup /\ no_remote_write w w')
  /\ (forall backup m,
        createCloudBackup env = Ok (Some backup) -> metadata backup = Some m ->
        data backup = [] ->
        res = Ok result_empty_backup /\ no_remote_write w w').
Proof.
  intros Hreach res w'. subst res w'.
  rewrite (reaches_upload_exec _ _ _ _ _ _ Hreach).
  pose proof (reaches_upload_no_remote_write _ _ _ _ _ _ Hreach) as Hquiet.
  split.
  - intros H. rewrite (upload_no_backup env config w3 H). cbn.
    split; [reflexivity|].
    eapply no_remote_write_trans; [exact Hquiet | apply after_finally_no_remote_write].
  - intros backup m H Hm Hd. rewrite (upload_no_data env config w3 backup m H Hm Hd). cbn.
    split; [reflexivity|].
    eapply no_remote_write_trans; [exact Hquiet | apply after_finally_no_remote_write].
Qed.

Lemma upload_makes_directory env config w3 backup m :
  createCloudBackup env = Ok (Some backup) ->
  metadata backup = Some m -> data backup <> [] ->
  let dirReq := request config PROPFIND DIR (Some "0") None in
  let mkReq := request config MKCOL DIR None None in
  (forall r, fetch env dirReq = Ok r -> ok r || (status r =? 207) = false) ->
  let w5 := log (EvFetch mkReq (fetch env mkReq))
              (log (EvFetch dirReq (fetch env dirReq)) w3) in
  (exists events, trace (snd (run env (upload config) w3)) = (trace w5 ++ events)%list)
  /\ ((forall r, fetch env mkReq = Ok r -> ok r = false /\ status r <> 405) ->
      exists message, run env (upload config) w3 = (Thrown (WithMessage message), w5)).
Proof.
  intros Hbackup Hmeta Hdata dirReq mkReq Hmissing w5. subst w5.
  assert (Hlen : (length (data backup) =? 0)%nat = false)
    by (destruct (data backup); [contradiction | reflexivity]).
  unfold upload. cbn. rewrite Hbackup. cbn. rewrite Hmeta. cbn.
  rewrite Hlen. cbn. fold dirReq.
  assert (Hexists : (match fetch env dirReq with
                     | Ok r => ok r || (status r =? 207)
                     | Err _ => false
                     end) = false).
  { destruct (fetch env dirReq) as [r|e]; [apply Hmissing|]; reflexivity. }
  destruct (fetch env dirReq) as [r|e0]; cbn; [rewrite Hexists; cbn|]; fold mkReq;
    (split; [|intros Hrefused]);
    (destruct (fetch env mkReq) as [rm|e1] eqn:Hm; cbn;
     [|solve [eexists; rewrite ?app_nil_r; reflexivity
             | exists []; rewrite app_nil_r; reflexivity]]);
    try (destruct (Hrefused rm eq_refl) as [Hno H405];
         rewrite Hno; cbn;
         destruct (Z.eqb_spec (status rm) 405) as [|_]; [contradiction|]; cbn;
         eexists; reflexivity);
    (destruct (negb (ok rm) && negb (status rm =? 405)); cbn;
     [exists []; rewrite app_nil_r; reflexivity|]);
    match goal with
    | |- context [run env ?P ?W] => apply (run_trace_extends env P W)
    end.
Qed.

(** The backup directory is made before anything is put in it.  When
    the probe of the directory fails or is answered neither ok nor 207,
    the push sends a MKCOL for it right after the probe; when that
    request fails, or is refused with a status other than 405, the push
    resolves with a failure and has sent no PUT: the MKCOL is the only
    writing request of the run. *)
Theorem push_creates_directory (env : Env) (config : WebDAVConfig)
    (lockHolder : string) (skipLock : bool) (w w3 : World)
    (backup : CloudBackup) (m : BackupMetadata) :
  reaches_upload env config lockHolder skipLock w w3 ->
  createCloudBackup env = Ok (Some backup) ->
  metadata backup = Some m -> data backup <> [] ->
  let dirReq := request config PROPFIND DIR (Some "0") None in
  let mkReq := request config MKCOL DIR None None in
  (forall r, fetch env dirReq = Ok r -> ok r || (status r =? 207) = false) ->
  let res := fst (exec env (smartPush config lockHolder skipLock) w) in
  let w' := snd (exec env (smartPush config lockHolder skipLock) w) in
  (exists after,
     trace w' = (trace w3 ++ EvFetch dirReq (fetch env dirReq)
                 :: EvFetch mkReq (fetch env mkReq) :: after)%list)
  /\ ((forall r, fetch env mkReq = Ok r -> ok r = false /\ status r <> 405) ->
      (exists e, res = Ok (result_failed e))
      /\ exists after,
           trace w' = (trace w3 ++ EvFetch dirReq (fetch env dirReq)
                       :: EvFetch mkReq (fetch env mkReq) :: after)%list
           /\ Forall (fun e => remote_write e = false) after).
Proof.
  intros Hreach Hbackup Hmeta Hdata dirReq mkReq Hmissing res w'. subst res w'.
  rewrite (reaches_upload_exec _ _ _ _ _ _ Hreach).
  destruct (upload_makes_directory env config w3 backup m Hbackup Hmeta Hdata Hmissing)
    as [[ev1 Hev1] Hrefused].
  fold dirReq mkReq in Hev1, Hrefused.
  split.
  - match goal with
    | |- context [finish env lockHolder skipLock ?B] =>
        destruct (finish_trace_extends env lockHolder skipLock B) as [ev Hev]
    end.
    destruct (run env (upload config) w3) as [[a|a|e] w4];
      rewrite ?caught_world in Hev; cbn [snd] in Hev, Hev1 |- *;
      exists (ev1 ++ ev)%list; rewrite Hev, Hev1; cbn; rewrite <- !app_assoc;
      reflexivity.
  - intros Hno. destruct (Hrefused Hno) as [e Hrun]. rewrite Hrun. cbn.
    split; [eexists; reflexivity|].
    match goal with
    | |- context [after_finally env lockHolder skipLock ?W] =>
        after_finally_events W ev E F
    end.
    exists ev. split; [|assumption].
    rewrite E. cbn. rewrite <- !app_assoc. reflexivity.
Qed.

(** *** The statements on [smartPush] at sample worlds *)

Lemma reaches_upload_first_push env lockHolder :
  onLine env = true -> getTree env = Ok tree_demo ->
  getLatestBackupFile env = Ok None ->
  reaches_upload env config_demo lockHolder true world_unlocked
    (after_snapshot env lockHolder tree_demo world_unlocked).
Proof.
  intros Hon Ht Hl. exists world_unlocked, tree_demo.
  split; [assumption|]. split; [reflexivity|]. split; [assumption|].
  split; [discriminate|].
  unfold checkCloudState. cbn. rewrite Hl. reflexivity.
Qed.

Lemma reaches_upload_demo :
  reaches_upload env_demo config_demo "manual" true world_unlocked
    (log (EvCompareWithCloud (Ok true))
       (after_snapshot env_demo "manual" tree_demo world_unlocked)).
Proof.
  exists world_unlocked, tree_demo.
  split; [reflexivity|]. split; [reflexivity|]. split; [reflexivity|].
  split; [discriminate | reflexivity].
Qed.

Lemma smartPush_releases_lock_witness :
  lockSlot (snd (exec env_demo (smartPush config_demo "auto-sync" false) world_unlocked))
  = None.
Proof.
  assert (Hcalm : calm world_unlocked) by constructor.
  assert (Hacq : fst (exec env_demo (acquireSyncLock "auto-sync") world_unlocked)
                 = Ok true) by (vm_compute; reflexivity).
  exact (proj1 (smartPush_releases_lock env_demo config_demo "auto-sync" world_unlocked
                  Hcalm eq_refl Hacq)).
Defined.

Lemma smartPush_sync_state_witness :
  syncState (snd (exec env_demo (smartPush config_demo "auto-sync" true) world_unlocked))
  = syncState world_unlocked.
Proof.
  assert (Hres : fst (exec env_demo (smartPush config_demo "auto-sync" true)
                        world_unlocked) = Ok result_cloud_newer)
    by (vm_compute; reflexivity).
  exact (proj1 (smartPush_sync_state env_demo config_demo "auto-sync" true
                  world_unlocked result_cloud_newer Hres) eq_refl).
Defined.

Lemma smartPush_skip_leaves_remote_alone_witness :
  no_remote_write world_unlocked
    (snd (exec env_synced (smartPush config_demo "auto-sync" true) world_unlocked)).
Proof.
  assert (Hres : fst (exec env_synced (smartPush config_demo "auto-sync" true)
                        world_unlocked) = Ok result_skipped)
    by (vm_compute; reflexivity).
  exact (smartPush_skip_leaves_remote_alone env_synced config_demo "auto-sync" true
           world_unlocked result_skipped Hres eq_refl).
Defined.

Lemma smartPush_unreadable_cloud_witness :
  fst (exec env_listing_fails (smartPush config_demo "auto-sync" true) world_unlocked)
  = fst (exec (without_cloud env_listing_fails) (smartPush config_demo "auto-sync" true)
           world_unlocked).
Proof.
  apply (smartPush_unreadable_cloud env_listing_fails config_demo "auto-sync" true
           world_unlocked).
  exact I.
Defined.

Lemma rejections_have_messages_demo : rejections_have_messages env_demo.
Proof.
  intros X c w. destruct c; cbn; try discriminate;
    destruct (rejects (next_await w)); discriminate.
Qed.

Lemma smartPush_rejects_only_on_nullish_witness :
  exists r,
    fst (exec env_demo (smartPush config_demo "auto-sync" false) world_unlocked) = Ok r
    /\ well_formed_result r.
Proof.
  exact (proj2 (smartPush_rejects_only_on_nullish env_demo config_demo "auto-sync" false
                  world_unlocked) rejections_have_messages_demo).
Defined.

Lemma push_new_file_bookkeeping_witness :
  lastBackupFileInfo
    (snd (exec env_first_push (smartPush config_demo "auto-sync" true) world_unlocked))
  = Some (new_info env_first_push backup_demo 9000).
Proof.
  pose proof (push_new_file_bookkeeping env_first_push config_demo "auto-sync" true
                world_unlocked _ backup_demo
                {| md_timestamp := 9000; md_clientVersion := "1.0.0" |}
                (response_of 207) (response_of 201) 1 None "H4sI{}"
                (reaches_upload_first_push env_first_push "auto-sync"
                   eq_refl eq_refl eq_refl)) as H.
  cbv zeta in H.
  destruct H as (_ & H & _);
    lazymatch goal with
    | |- lastBackupFileInfo _ = _ => exact H
    | |- _ => first [reflexivity | discriminate]
    end.
Defined.

Lemma push_replace_bookkeeping_witness :
  lastBackupFileInfo
    (snd (exec env_demo (smartPush config_demo "manual" true) world_unlocked))
  = Some (replace_info env_demo backup_demo info_demo 9000).
Proof.
  pose proof (push_replace_bookkeeping env_demo config_demo "manual" true
                world_unlocked _ backup_demo
                {| md_timestamp := 9000; md_clientVersion := "1.0.0" |}
                (response_of 207) (response_of 201) 1 info_demo "H4sI{}"
                reaches_upload_demo) as H.
  cbv zeta in H.
  destruct H as (_ & H & _);
    lazymatch goal with
    | |- lastBackupFileInfo _ = _ => exact H
    | |- _ => first [reflexivity | discriminate]
    end.
Defined.


Lemma push_invalid_backup_witness :
  fst (exec env_no_archive (smartPush config_demo "auto-sync" true) world_unlocked)
  = Ok result_invalid_backup.
Proof.
  pose proof (push_invalid_backup env_no_archive config_demo "auto-sync" true
                world_unlocked _
                (reaches_upload_first_push env_no_archive "auto-sync"
                   eq_refl eq_refl eq_refl)) as H.
  cbv zeta in H. destruct H as [H _].
  apply H. left. reflexivity.
Defined.

Lemma push_creates_directory_witness :
  exists e,
    fst (exec env_no_directory (smartPush config_demo "auto-sync" true) world_unlocked)
    = Ok (result_failed e).
Proof.
  pose proof (push_creates_directory env_no_directory config_demo "auto-sync" true
                world_unlocked _ backup_demo
                {| md_timestamp := 9000; md_clientVersion := "1.0.0" |}
                (reaches_upload_first_push env_no_directory "auto-sync"
                   eq_refl eq_refl eq_refl) eq_refl eq_refl) as H.
  cbv zeta in H.
  destruct H as [_ H].
  - discriminate.
  - intros r [= <-]. reflexivity.
  - apply H. intros r [= <-]. split; [reflexivity | discriminate].
Defined.

(** *** The statements on the client at sample worlds *)

Lemma normalizeUrl_slashes_witness :
  normalizeUrl config_demo "/BookmarkSyncer/a.json.gz"
  = "https://dav.example.com/dav/BookmarkSyncer/a.json.gz".
Proof.
  apply (proj2 (normalizeUrl_slashes config_demo "https://dav.example.com/dav"
                  "BookmarkSyncer/a.json.gz" eq_refl eq_refl (or_introl eq_refl))).
Defined.

Lemma getFile_content_only_when_ok_witness :
  fst (exec env_unauthorized (getFile config_demo "BookmarkSyncer/a.json.gz")
         world_unlocked)
  = Err (auth_failed "BookmarkSyncer/a.json.gz").
Proof.
  pose proof (getFile_content_only_when_ok env_unauthorized config_demo
                "BookmarkSyncer/a.json.gz" world_unlocked) as H.
  cbv zeta in H. destruct H as (_ & _ & H).
  destruct (H (response_of 401) eq_refl eq_refl) as (_ & H401 & _).
  apply H401. left. reflexivity.
Defined.

Lemma exists_never_rejects_witness :
  fst (exec env_demo (exists_ config_demo "") world_unlocked) = Ok true.
Proof.
  pose proof (exists_never_rejects env_demo config_demo "" world_unlocked) as H.
  cbv zeta in H. destruct H as (_ & _ & _ & H).
  apply H. reflexivity.
Defined.

Lemma write_methods_tolerance_witness :
  fst (exec env_unauthorized (deleteFile config_demo "BookmarkSyncer/a.json.gz")
         world_unlocked) <> Ok tt.
Proof.
  intros H.
  apply (proj2 (proj2 (write_methods_tolerance env_unauthorized config_demo
                         "BookmarkSyncer/a.json.gz" "" world_unlocked))) in H.
  destruct H as (r & [= <-] & [H | H]); discriminate.
Defined.

Lemma listFiles_resolves_read_only_witness :
  snd (exec env_unauthorized (listFiles config_demo DIR) world_unlocked)
  = log (EvFetch (request config_demo PROPFIND DIR (Some "1") None)
           (Ok (response_of 401))) world_unlocked.
Proof.
  exact (proj1 (listFiles_resolves_read_only env_unauthorized config_demo DIR
                  world_unlocked)).
Defined.

Lemma acquire_never_rejects_witness :
  exec env_demo (acquire "manual") world_storage_down
  = (Ok false, resume 0 world_storage_down).
Proof.
  pose proof (acquire_never_rejects env_demo "manual" world_storage_down) as H.
  cbv zeta in H. destruct H as (_ & H & _).
  apply H. reflexivity.
Defined.

(** ** Compression: what comes back, and what is refused *)

Lemma utf8_encode_scrub : forall n text,
  (length text <= n)%nat -> utf8_encode (scrub text) = utf8_encode text.
Proof.
  assert (Hrep : is_high_surrogate 0xFFFD = false /\ is_low_surrogate 0xFFFD = false)
    by (split; reflexivity).
  induction n as [|n IH]; intros text Hn.
  { destruct text; [reflexivity | cbn in Hn; lia]. }
  destruct text as [|u rest]; [reflexivity|].
  cbn [scrub utf8_encode]. cbn in Hn.
  destruct (is_high_surrogate u) eqn:Eh.
  - destruct rest as [|v rest']; [reflexivity|]. cbn in Hn.
    destruct (is_low_surrogate v) eqn:Ev.
    + cbn [utf8_encode]. rewrite Eh, Ev. rewrite IH by lia. reflexivity.
    + cbn [utf8_encode]. rewrite (proj1 Hrep), (proj2 Hrep).
      rewrite IH by (cbn; lia). reflexivity.
  - destruct (is_low_surrogate u) eqn:El.
    + cbn [utf8_encode]. rewrite (proj1 Hrep), (proj2 Hrep).
      rewrite IH by lia. reflexivity.
    + cbn [utf8_encode]. rewrite Eh, El. rewrite IH by lia. reflexivity.
Qed.

Lemma scrub_paired : forall n text,
  (length text <= n)%nat -> paired_surrogates (scrub text) = true.
Proof.
  induction n as [|n IH]; intros text Hn.
  { destruct text; [reflexivity | cbn in Hn; lia]. }
  destruct text as [|u rest]; [reflexivity|].
  cbn [scrub]. cbn in Hn.
  destruct (is_high_surrogate u) eqn:Eh.
  - destruct rest as [|v rest']; [reflexivity|]. cbn in Hn.
    destruct (is_low_surrogate v) eqn:Ev.
    + cbn [paired_surrogates]. rewrite Eh, Ev. cbn [andb]. apply IH. lia.
    + change (paired_surrogates (0xFFFD :: scrub (v :: rest')))
        with (paired_surrogates (scrub (v :: rest'))).
      apply IH. cbn. lia.
  - destruct (is_low_surrogate u) eqn:El.
    + change (paired_surrogates (0xFFFD :: scrub rest))
        with (paired_surrogates (scrub rest)).
      apply IH. lia.
    + cbn [paired_surrogates]. rewrite Eh, El. cbn [andb negb]. apply IH. lia.
Qed.

Lemma scrub_utf16 : forall n text,
  (length text <= n)%nat -> utf16 text -> utf16 (scrub text).
Proof.
  induction n as [|n IH]; intros text Hn Hu.
  { destruct text; [constructor | cbn in Hn; lia]. }
  destruct text as [|u rest]; [constructor|].
  inversion Hu as [|? ? Hu0 Hrest]; subst. cbn [scrub]. cbn in Hn.
  destruct (is_high_surrogate u).
  - destruct rest as [|v rest']; [repeat constructor; lia|].
    inversion Hrest as [|? ? Hv0 Hrest']; subst. cbn in Hn.
    destruct (is_low_surrogate v).
    + constructor; [assumption|]. constructor; [assumption|]. apply IH; [lia | assumption].
    + constructor; [lia|]. apply IH; [cbn; lia | assumption].
  - destruct (is_low_surrogate u).
    + constructor; [lia|]. apply IH; [lia | assumption].
    + constructor; [assumption|]. apply IH; [lia | assumption].
Qed.

Lemma scrub_paired_id : forall n text,
  (length text <= n)%nat -> paired_surrogates text = true -> scrub text = text.
Proof.
  induction n as [|n IH]; intros text Hn Hp.
  { destruct text; [reflexivity | cbn in Hn; lia]. }
  destruct text as [|u rest]; [reflexivity|].
  cbn [scrub paired_surrogates] in *. cbn in Hn.
  destruct (is_high_surrogate u).
  - destruct rest as [|v rest']; [discriminate|]. cbn in Hn.
    apply andb_true_iff in Hp. destruct Hp as [Hv Hp]. rewrite Hv.
    rewrite IH; [reflexivity | lia | assumption].
  - apply andb_true_iff in Hp. destruct Hp as [Hl Hp].
    apply negb_true_iff in Hl. rewrite Hl.
    rewrite IH; [reflexivity | lia | assumption].
Qed.

Lemma scrub_head_bom text :
  starts_with_bom (scrub text) = starts_with_bom text.
Proof.
  destruct text as [|u rest]; [reflexivity|]. cbn [scrub starts_with_bom].
  destruct (is_high_surrogate u) eqn:Eh.
  - apply (proj1 (surrogate_flags u)) in Eh.
    destruct rest as [|v rest']; cbn.
    + symmetry. apply Z.eqb_neq. lia.
    + destruct (is_low_surrogate v); cbn; [reflexivity|].
      symmetry. apply Z.eqb_neq. lia.
  - destruct (is_low_surrogate u) eqn:El; cbn; [|reflexivity].
    apply (proj2 (surrogate_flags u)) in El.
    symmetry. apply Z.eqb_neq. lia.
Qed.

(** Decoding what the encoder makes of a text gives the scrubbed text,
    less a leading byte order mark. *)
Lemma utf8_decode_encode_any text :
  utf16 text -> utf8_decode (utf8_encode text) = drop_bom (scrub text).
Proof.
  intros Hu.
  destruct (starts_with_bom text) eqn:Hb.
  - destruct text as [|u rest]; [discriminate|]. cbn in Hb.
    apply Z.eqb_eq in Hb. subst u.
    inversion Hu as [|? ? _ Hrest]; subst.
    change (scrub (0xFEFF :: rest)) with (0xFEFF :: scrub rest).
    change (drop_bom (0xFEFF :: scrub rest)) with (scrub rest).
    change (utf8_encode (0xFEFF :: rest))
      with (encode_code_point 0xFEFF ++ utf8_encode rest)%list.
    unfold utf8_decode.
    change (strip_bom (encode_code_point 0xFEFF ++ utf8_encode rest))
      with (utf8_encode rest).
    rewrite <- (utf8_encode_scrub (length rest) rest (le_n _)).
    apply (decoder_run_utf8_encode (length (scrub rest))); [apply le_n | |].
    + apply (scrub_utf16 (length rest)); [apply le_n | assumption].
    + apply (scrub_paired (length rest)). apply le_n.
  - rewrite <- (utf8_encode_scrub (length text) text (le_n _)).
    assert (Hb' : starts_with_bom (scrub text) = false)
      by (rewrite scrub_head_bom; assumption).
    rewrite utf8_decode_encode.
    + unfold drop_bom. destruct (scrub text) as [|u rest]; [reflexivity|].
      cbn in Hb'. rewrite Hb'. reflexivity.
    + apply (scrub_utf16 (length text)); [apply le_n | assumption].
    + apply (scrub_paired (length text)). apply le_n.
    + assumption.
Qed.

(** What the round trip gives back, for every text.  On a platform as
    for C7, [compressText] succeeds on every text string and
    [decompressText] of its result is the text with each unpaired
    surrogate replaced by U+FFFD and without its leading byte order
    mark, if it had one; on a text with neither, that is the text
    itself. *)
Theorem roundtrip_scrubs (max_arguments : nat)
    (gzip_stream : list ascii -> list (list ascii))
    (gunzip_stream : list ascii -> result (list (list ascii)))
    (text : list Z) :
  platform_ok max_arguments gzip_stream gunzip_stream ->
  utf16 text ->
  exists base64,
    compressText max_arguments gzip_stream text = Ok base64
    /\ decompressText gunzip_stream base64 = Ok (drop_bom (scrub text))
    /\ (paired_surrogates text = true -> starts_with_bom text = false ->
        drop_bom (scrub text) = text).
Proof.
  intros [Hfits Hgzip] Hu.
  exists (btoa (String.string_of_list_ascii (concat (gzip_stream (utf8_encode text))))).
  split; [|split].
  - unfold compressText. rewrite merge_concat.
    apply uint8ArrayToBase64_spec. assumption.
  - unfold decompressText. rewrite atob_btoa.
    rewrite String.list_ascii_of_string_of_list_ascii.
    destruct (Hgzip (utf8_encode text)) as (chunks & -> & Hchunks).
    rewrite merge_concat, Hchunks. f_equal. apply utf8_decode_encode_any. assumption.
  - intros Hp Hb. rewrite (scrub_paired_id (length text) text (le_n _) Hp).
    unfold drop_bom. destruct text as [|u rest]; [reflexivity|].
    cbn in Hb. rewrite Hb. reflexivity.
Qed.

Lemma roundtrip_scrubs_witness :
  exists base64,
    compressText chunkSize gzip_stored [0xFEFF; 0xD83D; 0x61] = Ok base64
    /\ decompressText gunzip_stored base64 = Ok [0xFFFD; 0x61].
Proof.
  destruct (roundtrip_scrubs chunkSize gzip_stored gunzip_stored [0xFEFF; 0xD83D; 0x61]
              platform_ok_stored) as (base64 & Hc & Hd & _).
  - repeat constructor; lia.
  - exists base64. split; [exact Hc | exact Hd].
Defined.

Lemma not_base64_char c : is_base64_char c = false -> char_sextet c = None.
Proof.
  unfold is_base64_char. intros H. apply bool_decide_eq_false in H.
  destruct (char_sextet c) as [n|]; [|reflexivity].
  exfalso. apply H. eauto.
Qed.

(** A character that is neither of the alphabet nor the padding sign
    makes the decoding fail, wherever it stands. *)
Lemma atob_loop_foreign : forall n cs c,
  (length cs <= n)%nat ->
  In c cs -> is_base64_char c = false -> c <> pad ->
  atob_loop cs = None.
Proof.
  induction n as [|n IH]; intros cs c Hn Hin Hc Hpad.
  { destruct cs; [destruct Hin | cbn in Hn; lia]. }
  pose proof (not_base64_char c Hc) as Hnone.
  assert (Hneq : forall c', c' = c -> Ascii.eqb c' pad = false).
  { intros c' ->. apply Ascii.eqb_neq. assumption. }
  destruct cs as [|c1 [|c2 [|c3 [|c4 rest]]]]; cbn [atob_loop];
    [destruct Hin | reflexivity | | |].
  - unfold decode2. destruct Hin as [->|[->|[]]]; rewrite ?Hnone;
      try reflexivity.
    destruct (char_sextet c1); reflexivity.
  - unfold decode3. destruct Hin as [->|[->|[->|[]]]]; rewrite ?Hnone;
      try reflexivity;
      repeat match goal with
             | |- context [char_sextet ?x] => destruct (char_sextet x)
             end; reflexivity.
  - assert (Hfour : forall tail,
              In c [c1; c2; c3; c4] -> decode4 c1 c2 c3 c4 tail = None).
    { intros tail Hin4. unfold decode4.
      destruct Hin4 as [->|[->|[->|[->|[]]]]]; rewrite ?Hnone; try reflexivity;
        repeat match goal with
               | |- context [mbind _ (char_sextet ?x)] =>
                   destruct (char_sextet x); cbn; try reflexivity
               end. }
    destruct rest as [|c5 rest].
    + destruct (Ascii.eqb c4 pad) eqn:E4.
      * destruct (Ascii.eqb c3 pad) eqn:E3.
        -- unfold decode2.
           destruct Hin as [->|[->|[H|[H|[]]]]]; rewrite ?Hnone; try reflexivity;
             try (rewrite (Hneq _ H) in *; discriminate).
           destruct (char_sextet c1); reflexivity.
        -- unfold decode3.
           destruct Hin as [->|[->|[->|[H|[]]]]]; rewrite ?Hnone; try reflexivity;
             try (rewrite (Hneq _ H) in *; discriminate);
             repeat match goal with
                    | |- context [char_sextet ?x] => destruct (char_sextet x)
                    end; reflexivity.
      * apply Hfour. assumption.
    + destruct Hin as [H|[H|[H|[H|Hin]]]];
        try (apply Hfour; subst; cbn; tauto).
      rewrite (IH (c5 :: rest) c); [|cbn in Hn |- *; lia | assumption..].
      unfold decode4.
      repeat match goal with
             | |- context [mbind _ (char_sextet ?x)] =>
                 destruct (char_sextet x); cbn; try reflexivity
             end.
Qed.

(** What [decompressText] refuses.  A text holding a character that is
    not of the Base64 alphabet, not the padding sign and not whitespace
    is refused with "Base64 解码失败，数据可能已损坏", before any
    decompression; and an error of the gzip stream is passed on as it
    is. *)
Theorem decompressText_refuses (gunzip_stream : list ascii -> result (list (list ascii)))
    (base64Data : string) :
  (forall c,
     In c (String.list_ascii_of_string base64Data) -> foreign_char c = true ->
     decompressText gunzip_stream base64Data = Err base64_error)
  /\ (forall binary e,
        atob base64Data = Some binary ->
        gunzip_stream (String.list_ascii_of_string binary) = Err e ->
        decompressText gunzip_stream base64Data = Err e).
Proof.
  split.
  - intros c Hin Hc. unfold foreign_char in Hc.
    apply andb_true_iff in Hc. destruct Hc as [Hc Hw].
    apply andb_true_iff in Hc. destruct Hc as [Hb Hp].
    apply negb_true_iff in Hb, Hp, Hw. apply Ascii.eqb_neq in Hp.
    unfold decompressText, atob.
    rewrite (atob_loop_foreign _ _ c (le_n _)); [reflexivity| |assumption..].
    apply list_elem_of_In. apply list_elem_of_filter. split; [assumption|].
    apply list_elem_of_In. assumption.
  - intros binary e Ha Hg. unfold decompressText. rewrite Ha, Hg. reflexivity.
Qed.

Lemma decompressText_refuses_witness :
  decompressText gunzip_stored "not-valid-gzip-data" = Err base64_error.
Proof.
  apply (proj1 (decompressText_refuses gunzip_stored "not-valid-gzip-data") "-"%char).
  - cbn. tauto.
  - reflexivity.
Defined.

(** *** The chunked conversion *)

Lemma subarray_length bytes i :
  (length (subarray bytes i (Nat.min (i + chunkSize) (length bytes)))
   = Nat.min chunkSize (length bytes - i))%nat.
Proof. unfold subarray. rewrite length_take, length_drop. lia. Qed.

Lemma subarray_then_rest bytes i :
  (subarray bytes i (Nat.min (i + chunkSize) (length bytes)) ++ drop (i + chunkSize) bytes
   = drop i bytes)%list.
Proof.
  unfold subarray.
  rewrite <- (take_drop (Nat.min (i + chunkSize) (length bytes) - i) (drop i bytes)) at 2.
  f_equal. rewrite drop_drop.
  destruct (Nat.le_ge_cases (i + chunkSize) (length bytes)) as [H|H].
  - f_equal. lia.
  - rewrite !drop_ge by lia. reflexivity.
Qed.

Lemma toBinary_within max_arguments bytes : forall fuel i binary,
  (length bytes - i < fuel)%nat ->
  (Nat.min (length bytes) chunkSize <= max_arguments)%nat ->
  toBinary max_arguments fuel bytes i binary
  = Ok (binary +:+ String.string_of_list_ascii (drop i bytes)).
Proof.
  assert (Hpos : (0 < chunkSize)%nat) by (unfold chunkSize; lia).
  induction fuel as [|fuel IH]; intros i binary Hfuel Hmax; [lia|]. cbn [toBinary].
  destruct (Nat.ltb_spec i (length bytes)) as [Hlt|Hge].
  - pose proof (subarray_length bytes i) as Hlen.
    unfold fromCharCode_apply.
    destruct (Nat.leb_spec
                (length (subarray bytes i (Nat.min (i + chunkSize) (length bytes))))
                max_arguments) as [H|H]; [|lia].
    rewrite IH by lia.
    rewrite append_assoc, <- string_of_list_ascii_app, subarray_then_rest.
    reflexivity.
  - rewrite drop_ge by lia. cbn. rewrite append_empty_r. reflexivity.
Qed.

(** The conversion passes at most 8192 arguments per call.
    [uint8ArrayToBase64] succeeds, with the Base64 text of the whole
    array, exactly when the first chunk, of 8192 bytes or of the whole
    array if that is shorter, fits the argument limit of the engine;
    otherwise it throws the engine's [RangeError]. *)
Theorem uint8ArrayToBase64_limit (max_arguments : nat) (bytes : list ascii) :
  ((Nat.min (length bytes) chunkSize <= max_arguments)%nat ->
   uint8ArrayToBase64 max_arguments bytes
   = Ok (btoa (String.string_of_list_ascii bytes)))
  /\ ((max_arguments < Nat.min (length bytes) chunkSize)%nat ->
      uint8ArrayToBase64 max_arguments bytes
      = Err "RangeError: Maximum call stack size exceeded").
Proof.
  split.
  - intros Hmax. unfold uint8ArrayToBase64.
    rewrite toBinary_within by (try assumption; lia). reflexivity.
  - intros Hmax. unfold uint8ArrayToBase64. cbn [toBinary].
    destruct (Nat.ltb_spec 0 (length bytes)) as [Hlt|Hge]; [|lia].
    pose proof (subarray_length bytes 0) as Hlen.
    unfold fromCharCode_apply.
    destruct (Nat.leb_spec
                (length (subarray bytes 0 (Nat.min (0 + chunkSize) (length bytes))))
                max_arguments) as [H|H]; [lia | reflexivity].
Qed.

Lemma uint8ArrayToBase64_limit_witness :
  uint8ArrayToBase64 2 (String.list_ascii_of_string "abc")
  = Err "RangeError: Maximum call stack size exceeded".
Proof.
  apply (proj2 (uint8ArrayToBase64_limit 2 (String.list_ascii_of_string "abc"))).
  apply Nat.ltb_lt. reflexivity.
Defined.

(** How the streams cut their output into chunks does not matter.  Two
    gzip streams that hand out the same bytes, in whatever chunks, give
    the same result of [compressText]; two gunzip streams that hand out
    the same bytes, or the same error, give the same result of
    [decompressText]. *)
Theorem chunking_is_immaterial (max_arguments : nat)
    (gzip1 gzip2 : list ascii -> list (list ascii))
    (gunzip1 gunzip2 : list ascii -> result (list (list ascii)))
    (text : list Z) (base64Data : string) :
  ((forall data, concat (gzip1 data) = concat (gzip2 data)) ->
   compressText max_arguments gzip1 text = compressText max_arguments gzip2 text)
  /\ ((forall data,
         match gunzip1 data, gunzip2 data with
         | Ok chunks1, Ok chunks2 => concat chunks1 = concat chunks2
         | Err e1, Err e2 => e1 = e2
         | _, _ => False
         end) ->
      decompressText gunzip1 base64Data = decompressText gunzip2 base64Data).
Proof.
  split.
  - intros H. unfold compressText. rewrite !merge_concat, H. reflexivity.
  - intros H. unfold decompressText.
    destruct (atob base64Data) as [binary|]; [|reflexivity].
    specialize (H (String.list_ascii_of_string binary)).
    destruct (gunzip1 _) as [c1|e1], (gunzip2 _) as [c2|e2];
      try contradiction; [|congruence].
    rewrite !merge_concat, H. reflexivity.
Qed.

Lemma chunking_is_immaterial_witness :
  compressText chunkSize gzip_stored text_unicode
  = compressText chunkSize (fun data => [take 2 data; drop 2 data]) text_unicode.
Proof.
  apply (proj1 (chunking_is_immaterial chunkSize gzip_stored
                  (fun data => [take 2 data; drop 2 data])
                  gunzip_stored gunzip_stored text_unicode "")).
  intros data. cbn. rewrite !app_nil_r. symmetry. apply take_drop.
Defined.

(** ** [listFiles]: paths and names of the entries *)

Lemma strip_leading_slashes_head s :
  startsWith (strip_leading_slashes s) "/" = false.
Proof.
  induction s as [|c r IH]; [reflexivity|]. cbn [strip_leading_slashes].
  destruct (Ascii.eqb c "/") eqn:E; [exact IH|].
  unfold startsWith. cbn. rewrite E. reflexivity.
Qed.

Lemma strip_leading_slashes_id s :
  startsWith s "/" = false -> strip_leading_slashes s = s.
Proof.
  destruct s as [|c r]; [reflexivity|]. unfold startsWith. cbn.
  destruct (Ascii.eqb c "/"); [|reflexivity].
  destruct r; discriminate.
Qed.

Lemma startsWith_append (pre s : string) : startsWith (pre +:+ s) pre = true.
Proof.
  unfold startsWith.
  assert (H : String.substring 0 (String.length pre) (pre +:+ s) = pre).
  { induction pre as [|c pre IH]; [destruct s; reflexivity|].
    change (String c (String.substring 0 (String.length pre) (pre +:+ s))
            = String c pre).
    rewrite IH. reflexivity. }
  rewrite H. apply String.eqb_refl.
Qed.

Lemma substring_from_append (pre s : string) :
  substring_from (String.length pre) (pre +:+ s) = s.
Proof. induction pre as [|c pre IH]; [reflexivity | exact IH]. Qed.

Lemma has_slash_append (s t : string) :
  has_slash (s +:+ t) = has_slash s || has_slash t.
Proof.
  induction s as [|c s IH]; [reflexivity|].
  change (Ascii.eqb c "/" || has_slash (s +:+ t)
          = Ascii.eqb c "/" || has_slash s || has_slash t).
  rewrite IH. apply orb_assoc.
Qed.

Lemma truthy_append_char (s : string) (c : ascii) : truthy (s +:+ String c "") = true.
Proof. destruct s; reflexivity. Qed.

Lemma last_segment_from_no_slash : forall s last current,
  has_slash last = false -> has_slash current = false ->
  has_slash (last_segment_from last current s) = false.
Proof.
  induction s as [|c r IH]; intros last current Hl Hc; cbn [last_segment_from].
  - destruct (truthy current); assumption.
  - destruct (Ascii.eqb c "/") eqn:E.
    + apply IH; [destruct (truthy current); assumption | reflexivity].
    + apply IH; [assumption|]. rewrite has_slash_append, Hc. cbn. rewrite E. reflexivity.
Qed.

Lemma last_segment_from_truthy : forall s last current,
  truthy current = true \/ truthy last = true ->
  truthy (last_segment_from last current s) = true.
Proof.
  induction s as [|c r IH]; intros last current H; cbn [last_segment_from].
  - destruct (truthy current) eqn:E; [exact E | destruct H; [discriminate | assumption]].
  - destruct (Ascii.eqb c "/").
    + apply IH. right. destruct (truthy current) eqn:E; [assumption|].
      destruct H; [discriminate | assumption].
    + apply IH. left. apply truthy_append_char.
Qed.

Lemma last_segment_from_plain : forall s last current,
  has_slash s = false ->
  last_segment_from last current s
  = if truthy (current +:+ s) then current +:+ s else last.
Proof.
  induction s as [|c r IH]; intros last current Hs; cbn [last_segment_from].
  - rewrite append_empty_r. reflexivity.
  - cbn in Hs. apply orb_false_iff in Hs. destruct Hs as [E Hr]. rewrite E.
    rewrite IH by assumption. rewrite append_assoc. reflexivity.
Qed.

Lemma last_segment_from_after_slash : forall a b last current,
  exists last',
    last_segment_from last current (a +:+ "/" +:+ b) = last_segment_from last' "" b.
Proof.
  induction a as [|c a IH]; intros b last current.
  - eexists. reflexivity.
  - change (String c a +:+ "/" +:+ b) with (String c (a +:+ "/" +:+ b)).
    cbn [last_segment_from]. destruct (Ascii.eqb c "/"); apply IH.
Qed.

Lemma truthy_head s : startsWith s "/" = false -> s <> "" ->
  exists c r, s = String c r /\ Ascii.eqb c "/" = false.
Proof.
  intros Hs Hne. destruct s as [|c r]; [contradiction|].
  exists c, r. split; [reflexivity|].
  unfold startsWith in Hs. cbn in Hs.
  destruct (Ascii.eqb c "/"); [destruct r; discriminate | reflexivity].
Qed.

Lemma listed_entry_relative (baseUrlPath decodedHref : string) (modified bytes : Z) :
  (forall file,
     listed_entry baseUrlPath decodedHref modified bytes = Some file ->
     path file = relative_href baseUrlPath decodedHref
     /\ path file <> "" /\ startsWith (path file) "/" = false
     /\ name file <> "" /\ has_slash (name file) = false
     /\ lastModified file = modified /\ size file = bytes)
  /\ (listed_entry baseUrlPath decodedHref modified bytes = None <->
      relative_href baseUrlPath decodedHref = "").
Proof.
  unfold listed_entry.
  set (relative := relative_href baseUrlPath decodedHref).
  assert (Hhead : startsWith relative "/" = false)
    by apply strip_leading_slashes_head.
  assert (Hname : relative <> "" -> truthy (last_segment relative) = true).
  { intros Hne. destruct (truthy_head relative Hhead Hne) as (c & r & -> & Hc).
    unfold last_segment. cbn [last_segment_from]. rewrite Hc.
    apply last_segment_from_truthy. left. reflexivity. }
  assert (Hslash : has_slash (last_segment relative) = false)
    by (apply last_segment_from_no_slash; reflexivity).
  split.
  - intros file.
    destruct (negb (truthy (last_segment relative)) || negb (truthy relative)) eqn:E;
      [discriminate|].
    apply orb_false_iff in E. destruct E as [En Ep].
    apply negb_false_iff in En, Ep.
    intros [= <-]. cbn.
    assert (relative <> "") by (intros Heq; rewrite Heq in Ep; discriminate).
    repeat split; try assumption.
    intros Heq. rewrite Heq in En. discriminate.
  - split.
    + destruct (String.eqb_spec relative "") as [Heq|Hne]; [auto|].
      rewrite (Hname Hne). unfold truthy.
      destruct (String.eqb_spec relative ""); [contradiction | discriminate].
    + intros ->. reflexivity.
Qed.

(** Entries are relative and named.  Take one [response] element of the
    listing.  When [listFiles] lists it, the element has an href that is
    not empty and is no collection, and the entry has the path the href
    comes down to, which is not empty and does not start with a slash,
    and a name that is not empty and holds no slash.  It skips the
    element exactly when the href is missing or empty, or the element is
    a collection, or the href comes down to nothing: the base path
    itself, with or without slashes after it.  And the loop is left
    exactly when [decodeURIComponent] refuses the href of an element
    that would not have been skipped before. *)
Theorem listed_element_relative (decode : string -> option string)
    (baseUrlPath : string) (href : option string) (isCollection : bool)
    (modified bytes : Z) :
  let made := listed_element decode baseUrlPath href isCollection modified bytes in
  (forall file,
     made = Listed file ->
     exists h decodedHref,
       href = Some h /\ h <> "" /\ isCollection = false
       /\ decode h = Some decodedHref
       /\ path file = relative_href baseUrlPath decodedHref
       /\ path file <> "" /\ startsWith (path file) "/" = false
       /\ name file <> "" /\ has_slash (name file) = false
       /\ lastModified file = modified /\ size file = bytes)
  /\ (made = Skipped <->
      href = None \/ href = Some "" \/ isCollection = true
      \/ exists h decodedHref,
           href = Some h /\ decode h = Some decodedHref
           /\ relative_href baseUrlPath decodedHref = "")
  /\ (made = Aborted <->
      exists h, href = Some h /\ h <> "" /\ isCollection = false /\ decode h = None).
Proof.
  intros made. subst made. unfold listed_element.
  destruct href as [h|]; cbn [truthy_opt default negb].
  2:{ split; [discriminate|]. split; [tauto|].
      split; [discriminate | intros (h & Hh & _); discriminate]. }
  unfold truthy. destruct (String.eqb_spec h "") as [->|Hh]; cbn [negb].
  { split; [discriminate|]. split; [tauto|].
    split; [discriminate | intros (h & [= <-] & Hne & _); contradiction]. }
  destruct isCollection.
  { split; [discriminate|]. split; [tauto|].
    split; [discriminate | intros (h' & _ & _ & Hc & _); discriminate]. }
  change (id h) with h.
  destruct (decode h) as [decodedHref|] eqn:Hd.
  - destruct (listed_entry_relative baseUrlPath decodedHref modified bytes)
      as [Hlisted Hnone].
    destruct (listed_entry baseUrlPath decodedHref modified bytes) as [file|].
    + split; [|split].
      * intros file' Heq. injection Heq as Heq. subst file'.
        exists h, decodedHref.
        repeat split; try assumption; apply (Hlisted file eq_refl).
      * split; [discriminate|].
        intros [Hno | [Hempty | [Hc | (h' & d & [= <-] & Hd' & Hrel)]]];
          try discriminate.
        -- injection Hempty as ->. contradiction.
        -- rewrite Hd in Hd'. injection Hd' as <-.
           apply Hnone in Hrel. discriminate.
      * split; [discriminate|].
        intros (h' & [= <-] & _ & _ & Hd'). congruence.
    + split; [discriminate|]. split.
      * split; [|reflexivity]. intros _. right. right. right.
        exists h, decodedHref. repeat split; try assumption.
        apply Hnone. reflexivity.
      * split; [discriminate|].
        intros (h' & [= <-] & _ & _ & Hd'). congruence.
  - split; [discriminate|]. split.
    + split; [discriminate|].
      intros [Hno | [Hempty | [Hc | (h' & d & [= <-] & Hd' & _)]]];
        try discriminate.
      * injection Hempty as ->. contradiction.
      * congruence.
    + split; [|reflexivity]. intros _. exists h. auto.
Qed.

(** An href under the base path.  For a base path [b] and an href
    [b/r], where [r] does not start with a slash, the path listed is
    [r]; and when [r] is a directory part, a slash and a last part [f]
    that is not empty and holds no slash, the name listed is [f]. *)
Theorem listed_entry_under_base (baseUrlPath relative : string) (modified bytes : Z) :
  startsWith relative "/" = false ->
  relative_href baseUrlPath (baseUrlPath +:+ "/" +:+ relative) = relative
  /\ (forall directory file,
        relative = directory +:+ "/" +:+ file ->
        file <> "" -> has_slash file = false ->
        listed_entry baseUrlPath (baseUrlPath +:+ "/" +:+ relative) modified bytes
        = Some {| name := file; path := relative;
                  lastModified := modified; size := bytes |}).
Proof.
  intros Hrel.
  assert (Hpath : relative_href baseUrlPath (baseUrlPath +:+ "/" +:+ relative)
                  = relative).
  { unfold relative_href.
    rewrite <- append_assoc, startsWith_append, substring_from_append.
    apply strip_leading_slashes_id. assumption. }
  split; [assumption|].
  intros directory file Hsplit Hne Hfile.
  unfold listed_entry. rewrite Hpath.
  assert (Hseg : last_segment relative = file).
  { unfold last_segment. rewrite Hsplit.
    destruct (last_segment_from_after_slash directory file "" "") as [last' ->].
    rewrite last_segment_from_plain by assumption.
    change ("" +:+ file) with file.
    rewrite (truthy_nonempty file Hne). reflexivity. }
  rewrite Hseg, (truthy_nonempty file Hne).
  assert (Hnonempty : relative <> "").
  { rewrite Hsplit. destruct directory; discriminate. }
  rewrite (truthy_nonempty relative Hnonempty). reflexivity.
Qed.

Lemma listed_element_relative_witness :
  listed_element Some "/dav" (Some "/dav/BookmarkSyncer/") true 0 0 = Skipped
  /\ listed_element Some "/dav" (Some "/dav/") false 0 0 = Skipped.
Proof.
  split.
  - apply (proj1 (proj2 (listed_element_relative Some "/dav" (Some "/dav/BookmarkSyncer/")
                           true 0 0))).
    right. right. left. reflexivity.
  - apply (proj1 (proj2 (listed_element_relative Some "/dav" (Some "/dav/") false 0 0))).
    right. right. right. exists "/dav/", "/dav/". repeat split; reflexivity.
Defined.

Lemma listed_entry_under_base_witness :
  listed_entry "/dav" "/dav/BookmarkSyncer/bookmarks_v1.json.gz" 1000 42
  = Some {| name := "bookmarks_v1.json.gz";
            path := "BookmarkSyncer/bookmarks_v1.json.gz";
            lastModified := 1000; size := 42 |}.
Proof.
  apply (proj2 (listed_entry_under_base "/dav" "BookmarkSyncer/bookmarks_v1.json.gz"
                  1000 42 eq_refl) "BookmarkSyncer" "bookmarks_v1.json.gz");
    [reflexivity | discriminate | reflexivity].
Defined.
